(** * A caching HTTP/1.0 forward proxy: model of [cache.c] and [proxy.c]

    The development embeds the LRU cache of [cache.c] at the level of its
    pointer structure (a heap of [cache_block]s linked by [nextBlock] and
    [previousBlock]) and the request pipeline of [proxy.c] as functions over
    an explicit environment.  Code that can fault (null or dangling
    dereference, a copy past the end of an array) or spin runs in an error
    monad.

    One worker is followed at a time.  The mutex calls are left out: every
    function of [cache.c] runs under the mutex from its first statement to
    its last, but for the wait in [cache_eviction], which no other thread is
    there to end.  What other workers do to the cache between two critical
    sections of the worker followed is a parameter of its environment. *)

From Stdlib Require Import ZArith String Ascii List Lia Bool.
From Stdlib Require Import Init.Byte DecimalString DecimalPos DecimalN.
From stdpp Require Import base option list gmap.

Local Open Scope string_scope.
Local Open Scope Z_scope.

(** ** Machine integers *)

(** [size_t] on the LP64 targets the proxy is built for: 64 bits, unsigned. *)
Definition size_wrap (z : Z) : Z := z mod 2 ^ 64.

(** [int]: 32 bits, two's complement. *)
Definition int_wrap (z : Z) : Z := (z + 2 ^ 31) mod 2 ^ 32 - 2 ^ 31.

(** ** cache.h *)

Definition MAX_CACHE_SIZE : Z := 1024 * 1024.
Definition MAX_OBJECT_SIZE : Z := 100 * 1024.

Definition addr := positive.

(** A pointer is [None] for [NULL]. *)
Record cache_block := mk_block {
  cache_obj : list byte;
  cache_obj_size : Z;
  cache_uri_key : string;
  readReferenceCnt : Z;
  nextBlock : option addr;
  previousBlock : option addr
}.

(** The global [cache] together with the heap cells its blocks live in. *)
Record Cache := mk_cache {
  heap : gmap addr cache_block;
  cacheBlockHead : option addr;
  cacheBlockTail : option addr;
  cache_size : Z
}.

(** ** Faults and the state monad of the cache code *)

Inductive fault :=
| NullPointer      (* dereference of NULL *)
| DanglingPointer  (* dereference of a freed or never allocated block *)
| OutOfBounds      (* copy past the end of an array *)
| BusyWait         (* spinning on a reference count nobody else lowers *)
| OutOfFuel.       (* a list walk that does not reach NULL *)

Definition M (A : Type) : Type := Cache -> fault + (A * Cache).

Definition ret {A} (a : A) : M A := fun c => inr (a, c).
Definition raise {A} (e : fault) : M A := fun _ => inl e.
Definition bind {A B} (m : M A) (k : A -> M B) : M B :=
  fun c => match m c with
           | inl e => inl e
           | inr (a, c') => k a c'
           end.

Notation "'let*' x ':=' m 'in' k" := (bind m (fun x => k))
  (at level 10, x pattern, m at level 100, k at level 200).
Notation "m ';;;' k" := (bind m (fun _ => k))
  (at level 100, k at level 200, right associativity).

(** The same for code that has no state. *)
Definition bind_fault {A B} (m : fault + A) (k : A -> fault + B) : fault + B :=
  match m with
  | inl e => inl e
  | inr a => k a
  end.

Notation "'let+' x ':=' m 'in' k" := (bind_fault m (fun x => k))
  (at level 10, x pattern, m at level 100, k at level 200).

Definition get_head : M (option addr) := fun c => inr (cacheBlockHead c, c).
Definition get_tail : M (option addr) := fun c => inr (cacheBlockTail c, c).
Definition get_size : M Z := fun c => inr (cache_size c, c).

Definition set_head (p : option addr) : M unit :=
  fun c => inr (tt, mk_cache (heap c) p (cacheBlockTail c) (cache_size c)).
Definition set_tail (p : option addr) : M unit :=
  fun c => inr (tt, mk_cache (heap c) (cacheBlockHead c) p (cache_size c)).
Definition set_size (n : Z) : M unit :=
  fun c => inr (tt, mk_cache (heap c) (cacheBlockHead c) (cacheBlockTail c) n).

(** [*p] as an rvalue. *)
Definition load (p : option addr) : M cache_block :=
  fun c => match p with
           | None => inl NullPointer
           | Some a => match heap c !! a with
                       | None => inl DanglingPointer
                       | Some b => inr (b, c)
                       end
           end.

(** [p->field = v], one function per field. *)
Definition modify (f : cache_block -> cache_block) (p : option addr) : M unit :=
  fun c => match p with
           | None => inl NullPointer
           | Some a => match heap c !! a with
                       | None => inl DanglingPointer
                       | Some b => inr (tt, mk_cache (<[a := f b]> (heap c))
                                              (cacheBlockHead c) (cacheBlockTail c)
                                              (cache_size c))
                       end
           end.

Definition with_next (v : option addr) (b : cache_block) : cache_block :=
  mk_block (cache_obj b) (cache_obj_size b) (cache_uri_key b)
           (readReferenceCnt b) v (previousBlock b).
Definition with_prev (v : option addr) (b : cache_block) : cache_block :=
  mk_block (cache_obj b) (cache_obj_size b) (cache_uri_key b)
           (readReferenceCnt b) (nextBlock b) v.
Definition with_cnt (v : Z) (b : cache_block) : cache_block :=
  mk_block (cache_obj b) (cache_obj_size b) (cache_uri_key b)
           v (nextBlock b) (previousBlock b).
Definition with_payload (obj : list byte) (n : Z) (key : string)
    (b : cache_block) : cache_block :=
  mk_block obj n key (readReferenceCnt b) (nextBlock b) (previousBlock b).

Definition store_next (p v : option addr) : M unit := modify (with_next v) p.
Definition store_prev (p v : option addr) : M unit := modify (with_prev v) p.
Definition store_cnt (p : option addr) (v : Z) : M unit := modify (with_cnt v) p.

(** [Malloc(sizeof(cache_block))]: a cell that is not in use.  Its fields are
    indeterminate in C; every one of them is assigned before it is read. *)
Definition blank_block : cache_block := mk_block [] 0 EmptyString 0 None None.

Definition Malloc : M (option addr) :=
  fun c => let a := fresh (dom (heap c)) in
           inr (Some a, mk_cache (<[a := blank_block]> (heap c))
                          (cacheBlockHead c) (cacheBlockTail c) (cache_size c)).

(** [Free(p)] of a block. *)
Definition Free (p : option addr) : M unit :=
  fun c => match p with
           | None => inr (tt, c)
           | Some a => match heap c !! a with
                       | None => inl DanglingPointer
                       | Some _ => inr (tt, mk_cache (delete a (heap c))
                                              (cacheBlockHead c) (cacheBlockTail c)
                                              (cache_size c))
                       end
           end.

Definition is_null (p : option addr) : bool :=
  match p with None => true | Some _ => false end.

Definition ptr_eqb (p q : option addr) : bool :=
  match p, q with
  | None, None => true
  | Some a, Some b => Pos.eqb a b
  | _, _ => false
  end.

(** ** cache.c *)

Definition cache_init : Cache := mk_cache ∅ None None 0.

(** [p->nextBlock], [p->previousBlock] and [p->readReferenceCnt] as rvalues:
    each occurrence in the source is a read of the heap. *)
Definition next_of (p : option addr) : M (option addr) :=
  let* b := load p in ret (nextBlock b).
Definition prev_of (p : option addr) : M (option addr) :=
  let* b := load p in ret (previousBlock b).
Definition cnt_of (p : option addr) : M Z :=
  let* b := load p in ret (readReferenceCnt b).
Definition size_of (p : option addr) : M Z :=
  let* b := load p in ret (cache_obj_size b).

(** The body of the [while] loop of [cache_find] that runs on a hit: count the
    reference, then move the block to the tail. *)
Definition cache_find_hit (cacheLinePtr : option addr) : M unit :=
  let* n := cnt_of cacheLinePtr in
  store_cnt cacheLinePtr (int_wrap (n + 1)) ;;;
  let* hd := get_head in
  let* tl := get_tail in
  let* nx := next_of cacheLinePtr in
  let* pv := prev_of cacheLinePtr in
  if ptr_eqb cacheLinePtr hd && negb (is_null nx) then
    (* cache hit at head *)
    set_head nx ;;;
    let* tempCachePtr := next_of cacheLinePtr in
    store_prev tempCachePtr None ;;;
    let* tempCachePtr := get_tail in
    set_tail cacheLinePtr ;;;
    store_next tempCachePtr cacheLinePtr ;;;
    store_next cacheLinePtr None ;;;
    store_prev cacheLinePtr tempCachePtr
  else if ptr_eqb cacheLinePtr tl && negb (is_null pv) then
    (* cache hit at tail, do nothing *)
    ret tt
  else if negb (is_null pv) && negb (is_null nx) then
    (* cache hit in the middle *)
    let* tempCachePtr := next_of cacheLinePtr in
    let* pv' := prev_of cacheLinePtr in
    store_prev tempCachePtr pv' ;;;
    let* tempCachePtr := prev_of cacheLinePtr in
    let* nx' := next_of cacheLinePtr in
    store_next tempCachePtr nx' ;;;
    let* tempCachePtr := get_tail in
    set_tail cacheLinePtr ;;;
    store_next tempCachePtr cacheLinePtr ;;;
    store_next cacheLinePtr None ;;;
    store_prev cacheLinePtr tempCachePtr
  else
    (* cache hit only block, do nothing *)
    ret tt.

Fixpoint cache_find_loop (fuel : nat) (url : string)
    (cacheLinePtr : option addr) : M (option addr) :=
  match fuel with
  | O => raise OutOfFuel
  | S fuel =>
    if is_null cacheLinePtr then ret None
    else
      let* b := load cacheLinePtr in
      if String.eqb url (cache_uri_key b) then
        cache_find_hit cacheLinePtr ;;;
        ret cacheLinePtr
      else cache_find_loop fuel url (nextBlock b)
  end.

(** [cache_find(url)]: the handle of the block found, or [None].  The walk
    visits every block at most once when the list is acyclic. *)
Definition cache_find (url : string) : M (option addr) :=
  fun c => (let* hd := get_head in
            cache_find_loop (S (size (heap c))) url hd) c.

(** One run of the outer loop of [cache_eviction] per unit of fuel; every run
    frees a block.  The inner loop releases and retakes the mutex until the
    count is zero: alone, it never ends when the count is not zero.  The
    result is true when the diagnostic is printed. *)
Fixpoint cache_eviction_loop (fuel : nat) (reqBufSize sizeFreed : Z)
    (cacheLinePtr : option addr) : M bool :=
  match fuel with
  | O => raise OutOfFuel
  | S fuel =>
    if (sizeFreed <? reqBufSize) && negb (is_null cacheLinePtr) then
      let* n := cnt_of cacheLinePtr in
      if negb (n =? 0) then raise BusyWait
      else
        let* nx := next_of cacheLinePtr in
        (if negb (is_null nx) then
           set_head nx ;;;
           let* tempCacheLinePtr := next_of cacheLinePtr in
           store_prev tempCacheLinePtr None
         else
           set_head None ;;;
           set_tail None) ;;;
        let* sz := get_size in
        let* osz := size_of cacheLinePtr in
        set_size (size_wrap (sz - osz)) ;;;
        let* osz' := size_of cacheLinePtr in
        Free cacheLinePtr ;;;
        let* hd := get_head in
        cache_eviction_loop fuel reqBufSize (size_wrap (sizeFreed + osz')) hd
    else ret (sizeFreed <? reqBufSize)
  end.

Definition cache_eviction (reqBufSize : Z) : M bool :=
  fun c => (let* hd := get_head in
            cache_eviction_loop (S (size (heap c))) reqBufSize 0 hd) c.

(** [memcpy(dst, buf, n)] out of an array [buf]. *)
Definition memcpy_from (buf : list byte) (n : Z) : M (list byte) :=
  if Z.of_nat (length buf) <? n then raise OutOfBounds
  else ret (take (Z.to_nat n) buf).

(** Lines 190 to 213 of [cache_uri]: allocate a block, link it after the
    tail, fill it. *)
Definition cache_uri_link (uri : string) (buf : list byte) (buffSize : Z)
    : M unit :=
  let* cacheLinePtr := Malloc in
  let* hd := get_head in
  let* tl := get_tail in
  (if is_null hd && is_null tl then
     set_tail cacheLinePtr ;;;
     set_head cacheLinePtr ;;;
     store_prev cacheLinePtr None ;;;
     store_next cacheLinePtr None
   else
     let* tempCacheLinePtr := get_tail in
     set_tail cacheLinePtr ;;;
     store_prev cacheLinePtr tempCacheLinePtr ;;;
     store_next tempCacheLinePtr cacheLinePtr ;;;
     store_next cacheLinePtr None) ;;;
  let* obj := memcpy_from buf buffSize in
  modify (with_payload obj buffSize uri) cacheLinePtr ;;;
  store_cnt cacheLinePtr 0 ;;;
  let* sz := get_size in
  set_size (size_wrap (sz + buffSize)).

(** Lines 186 to 189 of [cache_uri]: make room when the object does not fit. *)
Definition cache_uri_room (buffSize : Z) : M unit :=
  let* sz := get_size in
  let updatedtotalCacheSize := size_wrap (sz + buffSize) in
  if MAX_CACHE_SIZE <? updatedtotalCacheSize then
    let* sz' := get_size in
    cache_eviction (size_wrap (size_wrap (sz' + buffSize) - MAX_CACHE_SIZE)) ;;;
    ret tt
  else ret tt.

Definition cache_uri (uri : string) (buf : list byte) (buffSize : Z) : M unit :=
  cache_uri_room buffSize ;;;
  cache_uri_link uri buf buffSize.

(** [cachePrint]: the lines it prints, one (size, URL) pair per block from the
    head on. *)
Fixpoint cachePrint_loop (fuel : nat) (h : gmap addr cache_block)
    (cacheLinePtr : option addr) : list (Z * string) :=
  match fuel, cacheLinePtr with
  | S fuel, Some a =>
    match h !! a with
    | Some b => (cache_obj_size b, cache_uri_key b)
                  :: cachePrint_loop fuel h (nextBlock b)
    | None => []
    end
  | _, _ => []
  end.

Definition cachePrint (c : Cache) : list (Z * string) :=
  cachePrint_loop (size (heap c)) (heap c) (cacheBlockHead c).

(** ** libc and csapp as the proxy uses them *)

Definition CR : ascii := ascii_of_nat 13.
Definition LF : ascii := ascii_of_nat 10.
Definition CRLF : string := String CR (String LF EmptyString).
Definition DQUOTE : string := String (ascii_of_nat 34) EmptyString.

(** [isspace] in the C locale. *)
Definition isspace (ch : ascii) : bool :=
  let n := nat_of_ascii ch in
  Nat.eqb n 32 || (Nat.leb 9 n && Nat.leb n 13).

Fixpoint skip_space (s : string) : string :=
  match s with
  | String ch rest => if isspace ch then skip_space rest else s
  | EmptyString => s
  end.

(** The [%s] conversion after leading space is skipped: the longest run of
    characters that are not space, and what follows it. *)
Fixpoint scan_word (s : string) : string * string :=
  match s with
  | String ch rest =>
    if isspace ch then (EmptyString, s)
    else let (w, r) := scan_word rest in (String ch w, r)
  | EmptyString => (EmptyString, EmptyString)
  end.

(** Ordinary characters of a format: each must be the next input character. *)
Fixpoint scan_literal (lit s : string) : option string :=
  match lit, s with
  | EmptyString, _ => Some s
  | String a lit', String b s' =>
    if Ascii.eqb a b then scan_literal lit' s' else None
  | String _ _, EmptyString => None
  end.

(** [sscanf(buf, "%s %s HTTP/1.%c", method, uri, version)]: the value returned
    and the three outputs.  An output that is not assigned is shown empty. *)
Definition sscanf_request (buf : string) : Z * string * string * ascii :=
  let (method, r1) := scan_word (skip_space buf) in
  if String.eqb method "" then (-1, "", "", zero)
  else
    let (uri, r2) := scan_word (skip_space r1) in
    if String.eqb uri "" then (1, method, "", zero)
    else
      match scan_literal "HTTP/1." (skip_space r2) with
      | Some (String version _) => (3, method, uri, version)
      | _ => (2, method, uri, zero)
      end.

(** [strstr(haystack, needle) != NULL]. *)
Fixpoint strstr (haystack needle : string) : bool :=
  String.prefix needle haystack ||
  match haystack with
  | String _ rest => strstr rest needle
  | EmptyString => false
  end.

Definition strlen (s : string) : Z := Z.of_nat (String.length s).

(** [%zu] and [%d] of a number that is not negative. *)
Definition decimal (n : Z) : string :=
  NilZero.string_of_uint (N.to_uint (Z.to_N n)).

(** The digits at the front of [s], read in base ten after [acc]. *)
Fixpoint atoi_digits (s : string) (acc : Z) : Z :=
  match s with
  | String ch rest =>
    let d := Z.of_nat (nat_of_ascii ch) - 48 in
    if (0 <=? d) && (d <=? 9) then atoi_digits rest (10 * acc + d) else acc
  | EmptyString => acc
  end.

Definition LONG_MAX : Z := 2 ^ 63 - 1.
Definition LONG_MIN : Z := - 2 ^ 63.

(** [strtol(s, NULL, 10)]: white space, a sign, digits; a value that does
    not fit a [long] is given as [LONG_MAX] or [LONG_MIN]. *)
Definition strtol (s : string) : Z :=
  match skip_space s with
  | String "-" rest => Z.max LONG_MIN (- atoi_digits rest 0)
  | String "+" rest => Z.min LONG_MAX (atoi_digits rest 0)
  | s' => Z.min LONG_MAX (atoi_digits s' 0)
  end.

(** [atoi(s)] is [(int) strtol(s, NULL, 10)]: the cast keeps the low 32
    bits of the [long]. *)
Definition atoi (s : string) : Z := int_wrap (strtol s).

Definition bytes (s : string) : list byte := list_byte_of_string s.

Definition NL : string := String LF EmptyString.

(** [sprintf(s, "%d", n)]. *)
Definition print_int (n : Z) : string :=
  if n <? 0 then "-" ++ decimal (- n) else decimal n.

(** ** proxy.c *)

Definition DEFAULT_PORT_NUM : Z := 80.

Definition user_hdr : string :=
  "User-Agent: Mozilla/5.0 (X11; Linux x86_64; rv:3.10.0) Gecko/20191101 "
  ++ "Firefox/63.0.1" ++ CRLF.
Definition conn_hdr : string := "Connection: close" ++ CRLF.
Definition prox_hdr : string := "Proxy-Connection: close" ++ CRLF.
Definition endof_hdr : string := CRLF.

Definition host_hdr_format (hostname : string) : string :=
  "Host: " ++ hostname ++ CRLF.
Definition requestlint_hdr_format (path : string) : string :=
  "GET " ++ path ++ " HTTP/1.0" ++ CRLF.

Definition connection_key : string := "Connection".
Definition user_agent_key : string := "User-Agent".
Definition proxy_connection_key : string := "Proxy-Connection".
Definition host_key : string := "Host".

(** What a transaction does to the outside, in order.  A [ClientWrite] is a
    call of [rio_writen] on the client descriptor, tagged with the place in
    the source that makes it. *)
Inductive site := ErrorHeaders | ErrorBody | CachedObject | RelayedChunk.

Inductive event :=
| ClientWrite (s : site) (data : list byte)
| OriginConnect (hostname portStr : string)
| OriginWrite (data : list byte)
| OriginClose
| Print (msg : string).

(** What a call of [rio_readnb] on the origin returns when it does not
    return zero: the bytes it left in [buf], or the error value -1. *)
Inductive read_result := ReadBytes (buf : list byte) | ReadError.

(** What [parser_parse_line] and the three [parser_retrieve] calls give for a
    request line: [None] where the call reports failure; a port that was
    retrieved may still be [NULL]. *)
Record parser_result := mk_parsed {
  parsed_port : option (option string);
  parsed_path : option string;
  parsed_host : option string
}.

(** The surroundings of one transaction.  [client_lines] are the C strings
    successive calls of [rio_readlineb] on the client leave in [buf] before
    the call that returns zero or less; [server_reads] are the results of
    the successive calls of [rio_readnb] on the origin before the call that
    returns zero.  [host_hdr_entry] and [other_hdr_entry] are the C strings
    found in the automatic arrays [host_hdr] and [other_hdr] when
    [create_server_http_request] is entered: the source gives them no initial
    value.  The worker holds the mutex in [cache_find], in [cache_uri], and
    around the decrement of the count, and nowhere else:
    [others_during_relay] is what the other workers do to the cache between
    this worker's probe and the lookup before its insert, and
    [others_before_insert] what they do between that lookup and the
    insert. *)
Record env := mk_env {
  client_lines : list string;
  writable : site -> bool;
  parser_parse_line : string -> option parser_result;
  open_clientfd : string -> string -> bool;
  server_reads : list read_result;
  host_hdr_entry : string;
  other_hdr_entry : string;
  others_during_relay : Cache -> Cache;
  others_before_insert : Cache -> Cache
}.

(** [memcpy(dst + off, src, n)] into an array of [len] bytes of which the
    first [off] hold [dst]. *)
Definition memcpy_at (len : Z) (dst : list byte) (off : Z) (src : list byte)
    : fault + list byte :=
  if len <? off + Z.of_nat (length src) then inl OutOfBounds
  else inr (take (Z.to_nat off) dst ++ src)%list.

(** The relay loop of [clientRequestHandler]: [ResponseObjectbuf] is the part
    of the array written so far.  What [rio_readnb] returns is kept in [n], a
    [size_t], and compared with zero only: after a read that fails, [n] is
    [SIZE_MAX] and the body of the loop runs.  The copy of line 305 then runs
    past the end of [ResponseObjectbuf]; where the test of line 304 skips
    it, [rio_writen] is asked in line 310 for [SIZE_MAX] bytes of [buf], an
    array of [MAXLINE] bytes.  Either way an array is left. *)
Fixpoint relay_reads (reads : list read_result) (sizebuf : Z)
    (ResponseObjectbuf : list byte) : list event * (fault + Z * list byte) :=
  match reads with
  | [] => ([], inr (sizebuf, ResponseObjectbuf))
  | ReadError :: _ => ([], inl OutOfBounds)
  | ReadBytes buf :: rest =>
    let n := Z.of_nat (length buf) in
    if n =? 0 then ([], inr (sizebuf, ResponseObjectbuf))
    else
      match (if sizebuf <? MAX_OBJECT_SIZE
             then memcpy_at MAX_OBJECT_SIZE ResponseObjectbuf sizebuf buf
             else inr ResponseObjectbuf) with
      | inl f => ([], inl f)
      | inr ResponseObjectbuf' =>
        let (evs, r) :=
          relay_reads rest (size_wrap (sizebuf + n)) ResponseObjectbuf' in
        (ClientWrite RelayedChunk buf :: evs, r)
      end
  end.

(** The loop when no read fails: [chunks] are the buffers filled. *)
Definition relay_loop (chunks : list (list byte)) (sizebuf : Z)
    (ResponseObjectbuf : list byte) : list event * (fault + Z * list byte) :=
  relay_reads (map ReadBytes chunks) sizebuf ResponseObjectbuf.

(** Lines 230 to 232: give the handle back. *)
Definition release_handle (reqCachePtr : option addr) : M unit :=
  let* n := cnt_of reqCachePtr in
  store_cnt reqCachePtr (int_wrap (n - 1)).

(** Lines 229 to 232: send the object of a block found, then give the handle
    back. *)
Definition serve_hit (reqCachePtr : option addr) : M (list byte) :=
  let* b := load reqCachePtr in
  let* data := memcpy_from (cache_obj b) (cache_obj_size b) in
  release_handle reqCachePtr ;;;
  ret data.

(** The other workers run while the mutex is free. *)
Definition interleave (others : Cache -> Cache) : M unit :=
  fun c => inr (tt, others c).

(** Lines 315 to 323: store the response when it is small enough and the URI
    is not found.  The lookup and the insert are two critical sections;
    [others] is what the other workers do between them. *)
Definition store_response (uri : string) (sizebuf : Z)
    (ResponseObjectbuf : list byte) (others : Cache -> Cache) : M unit :=
  if sizebuf <? MAX_OBJECT_SIZE then
    let* reqCachePtr := cache_find uri in
    if is_null reqCachePtr then
      interleave others ;;;
      cache_uri uri ResponseObjectbuf sizebuf
    else ret tt
  else ret tt.

Section Csapp.

(** [csapp.h] is not among the sources: its two buffer sizes are parameters. *)
Variables MAXLINE MAXBUF : Z.

(** [strcpy], [strcat] and [sprintf] into an array of [MAXLINE] bytes: the
    string that results, with its final zero byte, has to fit. *)
Definition into_array (s : string) : fault + string :=
  if MAXLINE <=? strlen s then inl OutOfBounds else inr s.

(** The [while] loop of [create_server_http_request] over the lines read. *)
Fixpoint create_server_http_request_loop (lines : list string)
    (host_hdr other_hdr : string) : fault + string * string :=
  match lines with
  | [] => inr (host_hdr, other_hdr)
  | buf :: rest =>
    if String.eqb buf endof_hdr then inr (host_hdr, other_hdr)
    else if strstr buf host_key then
      let+ host_hdr' := into_array buf in
      create_server_http_request_loop rest host_hdr' other_hdr
    else if negb (strstr buf connection_key)
            && negb (strstr buf proxy_connection_key)
            && negb (strstr buf user_agent_key)
            && negb (strstr buf host_key) then
      let+ other_hdr' := into_array (other_hdr ++ buf) in
      create_server_http_request_loop rest host_hdr other_hdr'
    else create_server_http_request_loop rest host_hdr other_hdr
  end.

(** [create_server_http_request]; the first two arguments are the contents of
    [host_hdr] and [other_hdr] on entry. *)
Definition create_server_http_request (host_hdr other_hdr : string)
    (hostname path : string) (port : Z) (client_rio : list string)
    : fault + string :=
  let+ request_hdr := into_array (requestlint_hdr_format path) in
  let+ hdrs := create_server_http_request_loop client_rio host_hdr other_hdr in
  let (host_hdr, other_hdr) := hdrs in
  let+ host_hdr :=
    if strlen host_hdr =? 0 then into_array (host_hdr_format hostname)
    else inr host_hdr in
  into_array (request_hdr ++ host_hdr ++ conn_hdr ++ prox_hdr ++ user_hdr
              ++ other_hdr ++ endof_hdr).

Definition error_body (errnum shortmsg longmsg : string) : string :=
  "<!DOCTYPE html>" ++ CRLF ++
  "<html>" ++ CRLF ++
  "<head><title>Proxy Error</title></head>" ++ CRLF ++
  "<body bgcolor=" ++ DQUOTE ++ "ffffff" ++ DQUOTE ++ ">" ++ CRLF ++
  "<h1>" ++ errnum ++ ": " ++ shortmsg ++ "</h1>" ++ CRLF ++
  "<p>" ++ longmsg ++ "</p>" ++ CRLF ++
  "<hr /><em>The Web Proxy</em>" ++ CRLF ++
  "</body></html>" ++ CRLF.

Definition error_headers (errnum shortmsg : string) (bodylen : Z) : string :=
  "HTTP/1.0 " ++ errnum ++ " " ++ shortmsg ++ CRLF ++
  "Content-Type: text/html" ++ CRLF ++
  "Content-Length: " ++ decimal bodylen ++ CRLF ++ CRLF.

(** [clienterror]; [wr s] tells whether the [rio_writen] at [s] succeeds. *)
Definition clienterror (wr : site -> bool)
    (errnum shortmsg longmsg : string) : list event :=
  let body := error_body errnum shortmsg longmsg in
  let bodylen := strlen body in
  if MAXBUF <=? bodylen then []
  else
    let buf := error_headers errnum shortmsg bodylen in
    let buflen := strlen buf in
    if MAXLINE <=? buflen then []
    else if negb (wr ErrorHeaders) then
      [ClientWrite ErrorHeaders (bytes buf);
       Print ("Error writing error response headers to client" ++ NL)]
    else if negb (wr ErrorBody) then
      [ClientWrite ErrorHeaders (bytes buf);
       ClientWrite ErrorBody (bytes body);
       Print ("Error writing error response body to client" ++ NL)]
    else
      [ClientWrite ErrorHeaders (bytes buf);
       ClientWrite ErrorBody (bytes body)].

(** The part of [clientRequestHandler] after the cache is probed and missed. *)
Definition fetch_from_origin (e : env) (buf uri : string)
    (client_rio : list string) (c : Cache) : list event * (fault + Cache) :=
  match parser_parse_line e buf with
  | None => ([Print ("Client request parse error" ++ NL)], inr c)
  | Some pr =>
    match parsed_port pr, parsed_path pr, parsed_host pr with
    | None, _, _ => ([Print ("Value parsing for port failed" ++ NL)], inr c)
    | Some _, None, _ =>
      ([Print ("Value parsing for path failed" ++ NL)], inr c)
    | Some _, Some _, None =>
      ([Print ("Value parsing for host failed" ++ NL)], inr c)
    | Some portVal, Some path, Some hostname =>
      let port := match portVal with
                  | None => DEFAULT_PORT_NUM
                  | Some s => atoi s
                  end in
      match create_server_http_request (host_hdr_entry e) (other_hdr_entry e)
              hostname path port client_rio with
      | inl f => ([], inl f)
      | inr server_http_request =>
      let portStr := print_int port in
      if negb (open_clientfd e hostname portStr) then
        ([OriginConnect hostname portStr;
          Print ("connection attempt to " ++ hostname ++ " at " ++ portStr
                 ++ " failed" ++ NL)], inr c)
      else
        let pre := [OriginConnect hostname portStr;
                    OriginWrite (bytes server_http_request)] in
        let (evs, r) := relay_reads (server_reads e) 0 [] in
        match r with
        | inl f => ((pre ++ evs)%list, inl f)
        | inr (sizebuf, ResponseObjectbuf) =>
          ((pre ++ evs ++ [OriginClose])%list,
           match store_response uri sizebuf ResponseObjectbuf
                   (others_before_insert e) (others_during_relay e c) with
           | inl f => inl f
           | inr (_, c') => inr c'
           end)
        end
      end
    end
  end.

Definition clientRequestHandler (e : env) (c : Cache)
    : list event * (fault + Cache) :=
  match client_lines e with
  | [] => ([], inr c)
  | buf :: client_rio =>
    let '(n, method, uri, version) := sscanf_request buf in
    if negb (n =? 3)
       || (negb (Ascii.eqb version "0") && negb (Ascii.eqb version "1")) then
      (clienterror (writable e) "400" "Bad Request"
         "Proxy received a malformed request", inr c)
    else if negb (String.eqb method "GET") then
      (clienterror (writable e) "501" "Not Implemented"
         "Proxy does not implement this method", inr c)
    else
      match cache_find uri c with
      | inl f => ([], inl f)
      | inr (Some a, c1) =>
        match serve_hit (Some a) c1 with
        | inl f => ([], inl f)
        | inr (data, c2) => ([ClientWrite CachedObject data], inr c2)
        end
      | inr (None, c1) => fetch_from_origin e buf uri client_rio c1
      end
  end.

End Csapp.

(** * Notions the properties are stated with *)

(** The blocks reached from the head, with their addresses. *)
Fixpoint chain (fuel : nat) (h : gmap addr cache_block)
    (p : option addr) : list (addr * cache_block) :=
  match fuel, p with
  | S fuel, Some a =>
    match h !! a with
    | Some b => (a, b) :: chain fuel h (nextBlock b)
    | None => []
    end
  | _, _ => []
  end.

(** The blocks of the cache from the head on, and their URLs. *)
Definition cache_chain (c : Cache) : list (addr * cache_block) :=
  chain (size (heap c)) (heap c) (cacheBlockHead c).

Definition cache_uris (c : Cache) : list string :=
  map (fun e => cache_uri_key (snd e)) (cache_chain c).

(** The count of references of the block a handle points to. *)
Definition pin_count (c : Cache) (p : option addr) : option Z :=
  match p with
  | None => None
  | Some a => readReferenceCnt <$> heap c !! a
  end.

(** [dlseg h prev p l last nxt]: in [h], the blocks at the addresses [l] are
    linked in this order through both pointers.  [p] points to the first and
    [last] to the last of them; [prev] is the back pointer of the first and
    [nxt] the forward pointer of the last. *)
Fixpoint dlseg (h : gmap addr cache_block) (prev p : option addr)
    (l : list addr) (last nxt : option addr) : Prop :=
  match l with
  | [] => p = nxt /\ last = prev
  | a :: l' =>
    p = Some a /\
    exists b, h !! a = Some b /\ previousBlock b = prev /\
              dlseg h (Some a) (nextBlock b) l' last nxt
  end.

(** The fields of a block that are not links. *)
Definition data (b : cache_block) : string * list byte * Z * Z :=
  (cache_uri_key b, cache_obj b, cache_obj_size b, readReferenceCnt b).

(** The URL, the size and the count of references of the block at [a]. *)
Definition key_at (h : gmap addr cache_block) (a : addr) : option string :=
  cache_uri_key <$> h !! a.
Definition size_at (h : gmap addr cache_block) (a : addr) : Z :=
  from_option cache_obj_size 0 (h !! a).
Definition cnt_at (h : gmap addr cache_block) (a : addr) : Z :=
  from_option readReferenceCnt 0 (h !! a).

(** The sum of the sizes of the blocks at [l]. *)
Definition total_size (h : gmap addr cache_block) (l : list addr) : Z :=
  foldr (fun a acc => size_at h a + acc) 0 l.

(** [cache_ok c l]: the cache [c] is the list of blocks at [l], head first,
    and its size field is the sum of their sizes, within the cap. *)
Record cache_ok (c : Cache) (l : list addr) : Prop := mk_cache_ok {
  ok_links : dlseg (heap c) None (cacheBlockHead c) l (cacheBlockTail c) None;
  ok_nodup : NoDup l;
  ok_sizes : Forall (fun a => 0 <= size_at (heap c) a) l;
  ok_total : cache_size c = total_size (heap c) l;
  ok_cap : cache_size c <= MAX_CACHE_SIZE
}.

(** Two heaps that differ in links only. *)
Definition same_data (h h' : gmap addr cache_block) : Prop :=
  forall x, data <$> h !! x = data <$> h' !! x.

(** No block at [l] is in use. *)
Definition unpinned (h : gmap addr cache_block) (l : list addr) : Prop :=
  Forall (fun a => cnt_at h a = 0) l.

(** The block at [a]. *)
Definition block_at (h : gmap addr cache_block) (a : addr) : cache_block :=
  default blank_block (h !! a).

(** Well-formedness as a check that runs: [walk_ok] follows the forward
    pointers from [p], checks each back pointer against the block before and
    the tail pointer against the last block, and returns the addresses
    visited. *)
Fixpoint walk_ok (fuel : nat) (h : gmap addr cache_block)
    (prev p last : option addr) : option (list addr) :=
  match fuel with
  | O => None
  | S fuel =>
    match p with
    | None => if ptr_eqb last prev then Some [] else None
    | Some a =>
      match h !! a with
      | None => None
      | Some b =>
        if ptr_eqb (previousBlock b) prev then
          cons a <$> walk_ok fuel h (Some a) (nextBlock b) last
        else None
      end
    end
  end.

Definition cache_okb (c : Cache) : bool :=
  match walk_ok (S (size (heap c))) (heap c) None (cacheBlockHead c)
          (cacheBlockTail c) with
  | None => false
  | Some l =>
    bool_decide (NoDup l)
    && forallb (fun a => 0 <=? size_at (heap c) a) l
    && (cache_size c =? total_size (heap c) l)
    && (cache_size c <=? MAX_CACHE_SIZE)
  end.

(** A cache is well formed when it is some list of blocks. *)
Definition cache_wf (c : Cache) : Prop := exists l, cache_ok c l.

(** No block of the cache is in use. *)
Definition all_unpinned (c : Cache) : Prop :=
  Forall (fun e => readReferenceCnt e.2 = 0) (cache_chain c).

(** The sum of the sizes [cachePrint] shows. *)
Definition printed_total (c : Cache) : Z :=
  foldr (fun e acc => e.1 + acc) 0 (cachePrint c).

(** The entries of the cache from the head on: URL, object, size, count of
    references. *)
Definition entries (c : Cache) : list (string * list byte * Z * Z) :=
  map (fun e => data e.2) (cache_chain c).

(** The URL of an entry. *)
Definition entry_key (d : string * list byte * Z * Z) : string := d.1.1.1.

(** The cache a run leaves; the cache it started from if it faults. *)
Definition after {A} (m : M A) (c : Cache) : Cache :=
  match m c with
  | inr (_, c') => c'
  | inl _ => c
  end.

(** The number of bytes in [chunks]. *)
Definition total_length (chunks : list (list byte)) : Z :=
  foldr (fun ch acc => Z.of_nat (length ch) + acc) 0 chunks.

(** The header lines of the client: those before the first empty line. *)
Fixpoint headers_before_blank (lines : list string) : list string :=
  match lines with
  | [] => []
  | l :: rest =>
    if String.eqb l CRLF then [] else l :: headers_before_blank rest
  end.

(** The line contains [Host]; the line contains none of the four keys. *)
Definition names_host (l : string) : bool := strstr l "Host".

Definition names_no_key (l : string) : bool :=
  negb (strstr l "Connection") && negb (strstr l "Proxy-Connection")
  && negb (strstr l "User-Agent") && negb (strstr l "Host").

(** The lines of [ls] one after the other. *)
Definition flatten (ls : list string) : string := fold_right append "" ls.

(** The request as the specification words it: the request line, the Host
    header (the client's, the last one if it sent several, or one made from
    the host name), the three fixed headers, the client's other headers in
    the order received, and an empty line. *)
Definition upstream_request_spec (hostname path : string)
    (lines : list string) : string :=
  let hs := headers_before_blank lines in
  "GET " ++ path ++ " HTTP/1.0" ++ CRLF
  ++ default ("Host: " ++ hostname ++ CRLF) (last (List.filter names_host hs))
  ++ "Connection: close" ++ CRLF
  ++ "Proxy-Connection: close" ++ CRLF
  ++ "User-Agent: Mozilla/5.0 (X11; Linux x86_64; rv:3.10.0) Gecko/20191101 Firefox/63.0.1"
  ++ CRLF
  ++ flatten (List.filter names_no_key hs)
  ++ CRLF.

(** The calls of [rio_writen] on the client descriptor, in order. *)
Definition client_writes (tr : list event) : list (site * list byte) :=
  flat_map (fun ev => match ev with
                      | ClientWrite s data => [(s, data)]
                      | _ => []
                      end) tr.

(** The test of line 205: [sscanf] does not return 3, or the version
    character is neither 0 nor 1. *)
Definition malformed (buf : string) : bool :=
  let '(n, method, uri, version) := sscanf_request buf in
  negb (n =? 3)
  || (negb (Ascii.eqb version "0") && negb (Ascii.eqb version "1")).

(** The method [sscanf] reads. *)
Definition request_method (buf : string) : string :=
  let '(n, method, uri, version) := sscanf_request buf in method.

(** The worker answers with the error page for [errnum]: its writes to the
    client are the headers of that page and, when that write succeeds, its
    body. *)
Definition responds (wr : site -> bool) (errnum shortmsg longmsg : string)
    (tr : list event) : Prop :=
  client_writes tr =
  (ErrorHeaders,
   bytes (error_headers errnum shortmsg
            (strlen (error_body errnum shortmsg longmsg))))
  :: (if wr ErrorHeaders
      then [(ErrorBody, bytes (error_body errnum shortmsg longmsg))]
      else []).

Definition responds_400 (wr : site -> bool) : list event -> Prop :=
  responds wr "400" "Bad Request" "Proxy received a malformed request".
Definition responds_501 (wr : site -> bool) : list event -> Prop :=
  responds wr "501" "Not Implemented" "Proxy does not implement this method".

(** The error page as the specification words it: either the whole response
    is written, headers before body, or, the body or the headers filling
    their buffer, nothing is. *)
Definition complete_or_nothing (MAXLINE MAXBUF : Z) (wr : site -> bool)
    (errnum shortmsg longmsg : string) : Prop :=
  let body := error_body errnum shortmsg longmsg in
  let hdrs := error_headers errnum shortmsg (strlen body) in
  let tr := clienterror MAXLINE MAXBUF wr errnum shortmsg longmsg in
  client_writes tr = [(ErrorHeaders, bytes hdrs); (ErrorBody, bytes body)]
  \/ ((MAXBUF <= strlen body \/ MAXLINE <= strlen hdrs)
      /\ client_writes tr = []).

(** Some event of the trace is on the connection to the origin. *)
Definition contacts_origin (tr : list event) : bool :=
  existsb (fun ev => match ev with
                     | OriginConnect _ _ | OriginWrite _ | OriginClose => true
                     | _ => false
                     end) tr.

(** No write of the trace comes from [clienterror]. *)
Definition no_error_write (tr : list event) : Prop :=
  Forall (fun w => w.1 <> ErrorHeaders) (client_writes tr).

(** What [cachePrint] shows after a transaction that returned. *)
Definition printed (r : list event * (fault + Cache))
    : option (list (Z * string)) :=
  match r.2 with
  | inr c => Some (cachePrint c)
  | inl _ => None
  end.

(** The URLs in the cache after a run, or the fault. *)
Definition urls_after {A} (m : M A) (c : Cache) : fault + list string :=
  match m c with
  | inr (_, c') => inr (cache_uris c')
  | inl f => inl f
  end.

(** The blocks at the front of [l] that [cache_eviction] frees when asked for
    [req] bytes, [freed] bytes being freed already: it goes on while less
    than [req] is freed. *)
Fixpoint evicted (h : gmap addr cache_block) (req freed : Z) (l : list addr)
    : list addr :=
  match l with
  | [] => []
  | a :: rest =>
    if freed <? req then a :: evicted h req (freed + size_at h a) rest else []
  end.

(** The sizes of the entries [es], added up. *)
Definition entries_size (es : list (string * list byte * Z * Z)) : Z :=
  foldr (fun d acc => d.1.2 + acc) 0 es.

(** What a worker reads through a handle: URL, object and size. *)
Definition payload (b : cache_block) : string * list byte * Z :=
  (cache_uri_key b, cache_obj b, cache_obj_size b).








(** No character of [s] is white space; every character of [s] is. *)
Fixpoint no_space (s : string) : bool :=
  match s with
  | String ch rest => negb (isspace ch) && no_space rest
  | EmptyString => true
  end.

Fixpoint all_space (s : string) : bool :=
  match s with
  | String ch rest => isspace ch && all_space rest
  | EmptyString => true
  end.

(** What [%s] reads whole: characters, one at least, none of them white
    space. *)
Definition is_word (s : string) : bool :=
  negb (String.eqb s "") && no_space s.

(** White space that separates: one character at least. *)
Definition is_gap (s : string) : bool :=
  negb (String.eqb s "") && all_space s.

(** The request line as the specification words it: it tokenizes into a
    method, a URI and a version character when it is, after white space if
    any, the method, white space, the URI, white space, [HTTP/1.] and the
    character; what follows the character does not count. *)
Definition tokenizes (buf method uri : string) (version : ascii) : Prop :=
  exists lead gap1 gap2 rest,
    all_space lead = true /\ is_word method = true /\ is_gap gap1 = true /\
    is_word uri = true /\ is_gap gap2 = true /\
    buf = lead ++ method ++ gap1 ++ uri ++ gap2 ++ "HTTP/1."
          ++ String version rest.

(** A line that is well formed: it tokenizes, and the version character is 0
    or 1. *)
Definition well_formed_line (buf : string) : Prop :=
  exists method uri version,
    tokenizes buf method uri version /\
    (version = "0"%char \/ version = "1"%char).

(** * Caches and transactions the properties are tried on *)

(** An object of [MAX_OBJECT_SIZE] bytes. *)
Definition object_100k : list byte := repeat x00 (Z.to_nat MAX_OBJECT_SIZE).

(** Ten objects of [MAX_OBJECT_SIZE] bytes each: 24 KiB short of full. *)
Definition ten_objects : Cache :=
  let insert u := cache_uri u object_100k MAX_OBJECT_SIZE in
  match (insert "u1" ;;; insert "u2" ;;; insert "u3" ;;; insert "u4" ;;;
         insert "u5" ;;; insert "u6" ;;; insert "u7" ;;; insert "u8" ;;;
         insert "u9" ;;; insert "u10")%string cache_init with
  | inr (_, c) => c
  | inl _ => cache_init
  end.

(** The cache after one insertion, of the one byte [A] under the URL [A]. *)
Definition cache_with_A : Cache := after (cache_uri "A" [x41] 1) cache_init.

Definition chunk (n : Z) : list byte := repeat x00 (Z.to_nat n).

(** What [rio_readnb] with a buffer of 8192 bytes returns for an origin that
    sends [n] zero bytes and closes: full buffers, then the rest. *)
Definition origin_sends (n : Z) : list (list byte) :=
  (repeat (chunk 8192) (Z.to_nat (n / 8192))
   ++ (if n mod 8192 =? 0 then [] else [chunk (n mod 8192)]))%list.

(** A header line of 5009 bytes. *)
Fixpoint pad (n : nat) : string :=
  match n with
  | O => ""
  | S n => String "a" (pad n)
  end.

Definition long_header : string := "X-Pad: " ++ pad (Z.to_nat 5000) ++ CRLF.

(** A transaction for [http://h/x] whose origin answers with [chunks], while
    the other workers do [others] to the cache during the relay and [others']
    between the lookup and the insert. *)
Definition get_x (chunks : list (list byte)) (others others' : Cache -> Cache)
    : env :=
  mk_env ["GET http://h/x HTTP/1.0" ++ CRLF; CRLF]
    (fun _ => true)
    (fun _ => Some (mk_parsed (Some None) (Some "/x") (Some "h")))
    (fun _ _ => true)
    (map ReadBytes chunks) "" "" others others'.

(** A transaction that sends [line] and nothing else. *)
Definition only_line (line : string) : env :=
  mk_env [line] (fun _ => true) (fun _ => None) (fun _ _ => false) [] "" ""
    id id.

(** One object of 100 KiB stored under each URL of [us], in order. *)
Definition inserts (us : list string) : M unit :=
  foldr (fun u k => cache_uri u object_100k MAX_OBJECT_SIZE ;;; k) (ret tt) us.

(** The cache after two insertions, of one byte each, under [A] and [B]. *)
Definition cache_AB : Cache := after (cache_uri "B" [x42] 1) cache_with_A.


(** The cache with the one entry [A] while a worker holds a handle on it. *)
Definition cache_A_held : Cache := after (cache_find "A") cache_with_A.

(** A transaction for [http://h/x] whose origin cannot be reached. *)
Definition get_x_unreachable : env :=
  mk_env ["GET http://h/x HTTP/1.0" ++ CRLF; CRLF]
    (fun _ => true)
    (fun _ => Some (mk_parsed (Some None) (Some "/x") (Some "h")))
    (fun _ _ => false)
    [] "" "" id id.


Local Close Scope string_scope.

(** * Verification of the cache *)

(** ** Segments *)

Lemma dlseg_in h prev p l last nxt a :
  dlseg h prev p l last nxt -> a ∈ l -> is_Some (h !! a).
Proof.
  revert prev p. induction l as [|x l IH]; intros prev p Hseg Hin.
  - by apply elem_of_nil in Hin.
  - destruct Hseg as (_ & b & Hb & _ & Hrest).
    apply elem_of_cons in Hin as [->|Hin]; [by eexists | by eapply IH].
Qed.

Lemma dlseg_frame h h' prev p l last nxt :
  (forall a, a ∈ l -> h' !! a = h !! a) ->
  dlseg h prev p l last nxt -> dlseg h' prev p l last nxt.
Proof.
  revert prev p. induction l as [|x l IH]; intros prev p Hagree Hseg; [done|].
  destruct Hseg as (-> & b & Hb & Hprev & Hrest).
  split; [done|]. exists b. split_and!; [|done|].
  - rewrite Hagree; [done | by left].
  - apply IH; [|done]. intros a Ha. apply Hagree. by right.
Qed.

Lemma dlseg_insert_ne h x bx prev p l last nxt :
  x ∉ l -> dlseg h prev p l last nxt ->
  dlseg (<[x := bx]> h) prev p l last nxt.
Proof.
  intros Hx. apply dlseg_frame. intros a Ha.
  apply lookup_insert_ne. by intros ->.
Qed.

Lemma dlseg_delete_ne h x prev p l last nxt :
  x ∉ l -> dlseg h prev p l last nxt ->
  dlseg (delete x h) prev p l last nxt.
Proof.
  intros Hx. apply dlseg_frame. intros a Ha.
  apply lookup_delete_ne. by intros ->.
Qed.

Lemma dlseg_app h prev p l1 l2 last nxt :
  dlseg h prev p (l1 ++ l2) last nxt <->
  exists q m, dlseg h prev p l1 q m /\ dlseg h q m l2 last nxt.
Proof.
  revert prev p. induction l1 as [|x l1 IH]; intros prev p; simpl.
  - split.
    + intros H. by exists prev, p.
    + by intros (q & m & [-> ->] & H).
  - split.
    + intros (-> & b & Hb & Hprev & Hrest).
      apply IH in Hrest as (q & m & H1 & H2).
      exists q, m. split; [|done]. split; [done|]. by exists b.
    + intros (q & m & (-> & b & Hb & Hprev & H1) & H2).
      split; [done|]. exists b. split_and!; [done..|].
      apply IH. by exists q, m.
Qed.

Lemma dlseg_last h prev p l x last nxt :
  dlseg h prev p (l ++ [x]) last nxt -> last = Some x.
Proof.
  intros H. apply dlseg_app in H as (q & m & _ & (_ & b & _ & _ & _ & ->)).
  done.
Qed.

(** Redirecting the back pointer of the first block of a segment. *)
Lemma dlseg_set_prev h prev x l last nxt v :
  x ∉ l -> dlseg h prev (Some x) (x :: l) last nxt ->
  exists b, h !! x = Some b /\
            dlseg (<[x := with_prev v b]> h) v (Some x) (x :: l) last nxt.
Proof.
  intros Hx (_ & b & Hb & _ & Hrest). exists b. split; [done|].
  split; [done|]. exists (with_prev v b). rewrite lookup_insert_eq.
  split_and!; [done..|]. by apply dlseg_insert_ne.
Qed.

(** Redirecting the forward pointer of the last block of a segment. *)
Lemma dlseg_set_next h prev p l x last nxt v :
  x ∉ l -> dlseg h prev p (l ++ [x]) last nxt ->
  exists b, h !! x = Some b /\
            dlseg (<[x := with_next v b]> h) prev p (l ++ [x]) last v.
Proof.
  intros Hx H. apply dlseg_app in H as (q & m & H1 & (-> & b & Hb & Hq & Hn & ->)).
  exists b. split; [done|]. apply dlseg_app. exists q, (Some x). split.
  - by apply dlseg_insert_ne.
  - split; [done|]. exists (with_next v b). by rewrite lookup_insert_eq.
Qed.

Lemma dlseg_nonempty_last h prev p l last nxt :
  l <> [] -> dlseg h prev p l last nxt ->
  exists l' x, l = l' ++ [x] /\ last = Some x.
Proof.
  intros Hl H. destruct (exists_last Hl) as (l' & x & ->).
  exists l', x. split; [done|]. by eapply dlseg_last.
Qed.

(** ** Running the primitives *)

Lemma bind_inr {A B} (m : M A) (k : A -> M B) c x c' :
  m c = inr (x, c') -> bind m k c = k x c'.
Proof. unfold bind. by intros ->. Qed.

Lemma bind_inl {A B} (m : M A) (k : A -> M B) c e :
  m c = inl e -> bind m k c = inl e.
Proof. unfold bind. by intros ->. Qed.

Lemma load_some c a b :
  heap c !! a = Some b -> load (Some a) c = inr (b, c).
Proof. unfold load. by intros ->. Qed.

Lemma modify_some f c a b :
  heap c !! a = Some b ->
  modify f (Some a) c =
  inr (tt, mk_cache (<[a := f b]> (heap c)) (cacheBlockHead c)
             (cacheBlockTail c) (cache_size c)).
Proof. unfold modify. by intros ->. Qed.

Lemma next_of_some c a b :
  heap c !! a = Some b -> next_of (Some a) c = inr (nextBlock b, c).
Proof. intros H. unfold next_of. by rewrite (bind_inr _ _ _ _ _ (load_some _ _ _ H)). Qed.

Lemma prev_of_some c a b :
  heap c !! a = Some b -> prev_of (Some a) c = inr (previousBlock b, c).
Proof. intros H. unfold prev_of. by rewrite (bind_inr _ _ _ _ _ (load_some _ _ _ H)). Qed.

Lemma cnt_of_some c a b :
  heap c !! a = Some b -> cnt_of (Some a) c = inr (readReferenceCnt b, c).
Proof. intros H. unfold cnt_of. by rewrite (bind_inr _ _ _ _ _ (load_some _ _ _ H)). Qed.

Lemma size_of_some c a b :
  heap c !! a = Some b -> size_of (Some a) c = inr (cache_obj_size b, c).
Proof. intros H. unfold size_of. by rewrite (bind_inr _ _ _ _ _ (load_some _ _ _ H)). Qed.

Lemma ptr_eqb_eq p q : ptr_eqb p q = true <-> p = q.
Proof.
  destruct p as [a|], q as [b|]; simpl; try (split; congruence).
  rewrite Pos.eqb_eq. split; congruence.
Qed.

Lemma ptr_eqb_refl p : ptr_eqb p p = true.
Proof. by apply ptr_eqb_eq. Qed.

Lemma ptr_eqb_ne p q : p <> q -> ptr_eqb p q = false.
Proof. intros H. apply not_true_is_false. by rewrite ptr_eqb_eq. Qed.

(** ** Heaps that differ in links only *)

Lemma same_data_refl h : same_data h h.
Proof. done. Qed.

Lemma same_data_trans h1 h2 h3 :
  same_data h1 h2 -> same_data h2 h3 -> same_data h1 h3.
Proof. intros H1 H2 x. by rewrite H1. Qed.

Lemma same_data_insert h x b b' :
  h !! x = Some b -> data b' = data b -> same_data h (<[x := b']> h).
Proof.
  intros Hb Hd y. destruct (decide (x = y)) as [->|Hne].
  - rewrite lookup_insert_eq, Hb. simpl. by rewrite Hd.
  - by rewrite lookup_insert_ne.
Qed.

Lemma same_data_key h h' a : same_data h h' -> key_at h a = key_at h' a.
Proof.
  intros H. unfold key_at. specialize (H a).
  destruct (h !! a) as [b|], (h' !! a) as [b'|]; simpl in *; try done.
  unfold data in H. simplify_eq. congruence.
Qed.

Lemma same_data_size h h' a : same_data h h' -> size_at h a = size_at h' a.
Proof.
  intros H. unfold size_at. specialize (H a).
  destruct (h !! a) as [b|], (h' !! a) as [b'|]; simpl in *; try done.
  unfold data in H. simplify_eq. congruence.
Qed.

Lemma same_data_cnt h h' a : same_data h h' -> cnt_at h a = cnt_at h' a.
Proof.
  intros H. unfold cnt_at. specialize (H a).
  destruct (h !! a) as [b|], (h' !! a) as [b'|]; simpl in *; try done.
  unfold data in H. simplify_eq. congruence.
Qed.

Lemma same_data_total h h' l : same_data h h' -> total_size h l = total_size h' l.
Proof.
  intros H. induction l as [|a l IH]; simpl; [done|].
  by rewrite IH, (same_data_size h h' a H).
Qed.

Lemma total_size_agree h h' l :
  (forall a, a ∈ l -> size_at h' a = size_at h a) ->
  total_size h' l = total_size h l.
Proof.
  induction l as [|a l IH]; intros H; simpl; [done|].
  rewrite IH, H; [done | by left |]. intros x Hx. apply H. by right.
Qed.

Lemma total_size_app h l1 l2 :
  total_size h (l1 ++ l2) = total_size h l1 + total_size h l2.
Proof. induction l1 as [|a l1 IH]; simpl; [done | rewrite IH; lia]. Qed.

Lemma total_size_nonneg h l :
  Forall (fun a => 0 <= size_at h a) l -> 0 <= total_size h l.
Proof.
  induction 1 as [|a l Ha _ IH]; simpl; lia.
Qed.

Lemma bind_get_head {B} (k : option addr -> M B) c :
  bind get_head k c = k (cacheBlockHead c) c.
Proof. done. Qed.

Lemma bind_get_tail {B} (k : option addr -> M B) c :
  bind get_tail k c = k (cacheBlockTail c) c.
Proof. done. Qed.

Lemma bind_get_size {B} (k : Z -> M B) c :
  bind get_size k c = k (cache_size c) c.
Proof. done. Qed.

Lemma bind_set_head {B} p (k : unit -> M B) c :
  bind (set_head p) k c =
  k tt (mk_cache (heap c) p (cacheBlockTail c) (cache_size c)).
Proof. done. Qed.

Lemma bind_set_tail {B} p (k : unit -> M B) c :
  bind (set_tail p) k c =
  k tt (mk_cache (heap c) (cacheBlockHead c) p (cache_size c)).
Proof. done. Qed.

Lemma bind_set_size {B} n (k : unit -> M B) c :
  bind (set_size n) k c =
  k tt (mk_cache (heap c) (cacheBlockHead c) (cacheBlockTail c) n).
Proof. done. Qed.

Lemma bind_ret {A B} (a : A) (k : A -> M B) c : bind (ret a) k c = k a c.
Proof. done. Qed.

Lemma bind_assoc {A B C} (m : M A) (f : A -> M B) (g : B -> M C) c :
  bind (bind m f) g c = bind m (fun x => bind (f x) g) c.
Proof. unfold bind. destruct (m c) as [e|[x c']]; done. Qed.

(** One step of a run: [step H] consumes the leading heap access of the goal,
    [H] being the lookup it depends on; [pure] consumes accesses to the fields
    of the cache itself. *)
Ltac pure :=
  repeat first
    [ rewrite bind_get_head | rewrite bind_get_tail | rewrite bind_get_size
    | rewrite bind_set_head | rewrite bind_set_tail | rewrite bind_set_size
    | rewrite bind_ret | rewrite bind_assoc ];
  cbn [heap cacheBlockHead cacheBlockTail cache_size].

Ltac step H :=
  lazymatch goal with
  | |- context [bind (cnt_of (Some ?a)) ?k ?c] =>
    rewrite (bind_inr _ k c _ _ (cnt_of_some c a _ H))
  | |- context [bind (next_of (Some ?a)) ?k ?c] =>
    rewrite (bind_inr _ k c _ _ (next_of_some c a _ H))
  | |- context [bind (prev_of (Some ?a)) ?k ?c] =>
    rewrite (bind_inr _ k c _ _ (prev_of_some c a _ H))
  | |- context [bind (size_of (Some ?a)) ?k ?c] =>
    rewrite (bind_inr _ k c _ _ (size_of_some c a _ H))
  | |- context [bind (load (Some ?a)) ?k ?c] =>
    rewrite (bind_inr _ k c _ _ (load_some c a _ H))
  | |- context [bind (modify ?f (Some ?a)) ?k ?c] =>
    rewrite (bind_inr _ k c _ _ (modify_some f c a _ H))
  | |- context [modify ?f (Some ?a) ?c] =>
    rewrite (modify_some f c a _ H)
  end;
  cbn [heap cacheBlockHead cacheBlockTail cache_size]; pure.

(** [relink H b'] accounts for one store that replaces the block of lookup
    [H] by [b'], which has the same data. *)
Ltac relink H b' :=
  eapply same_data_trans; [exact (same_data_insert _ _ _ b' H eq_refl)|].

(** ** [cache_find] *)

Lemma dlseg_single h prev a b nxt :
  h !! a = Some b -> previousBlock b = prev -> nextBlock b = nxt ->
  dlseg h prev (Some a) [a] (Some a) nxt.
Proof. intros Hb Hp Hn. split; [done|]. exists b. by rewrite Hn. Qed.

Lemma dlseg_head_in h prev p l last nxt :
  l <> [] -> dlseg h prev p l last nxt -> exists x, p = Some x /\ x ∈ l.
Proof.
  destruct l as [|x l]; [done|]. intros _ (-> & _). exists x. split; [done | by left].
Qed.

Lemma dlseg_last_in h prev p l last nxt :
  l <> [] -> dlseg h prev p l last nxt -> exists x, last = Some x /\ x ∈ l.
Proof.
  intros Hl H. destruct (dlseg_nonempty_last _ _ _ _ _ _ Hl H) as (l' & x & -> & ->).
  exists x. split; [done|]. apply elem_of_app. right. by left.
Qed.

(** A hit moves the block found to the tail and counts one more reference
    to it; nothing else changes but links. *)
Lemma cache_find_hit_spec c l1 a l2 ba :
  dlseg (heap c) None (cacheBlockHead c) (l1 ++ a :: l2) (cacheBlockTail c) None ->
  NoDup (l1 ++ a :: l2) ->
  heap c !! a = Some ba ->
  exists c',
    cache_find_hit (Some a) c = inr (tt, c') /\
    dlseg (heap c') None (cacheBlockHead c') (l1 ++ l2 ++ [a])
          (cacheBlockTail c') None /\
    same_data (<[a := with_cnt (int_wrap (readReferenceCnt ba + 1)) ba]> (heap c))
              (heap c') /\
    cache_size c' = cache_size c.
Proof.
  destruct c as [h hd tl sz]. cbn [heap cacheBlockHead cacheBlockTail cache_size].
  intros Hseg Hnd Ha.
  apply dlseg_app in Hseg as (q & m & S1 & (-> & ba' & Ha' & Hq & S2)).
  rewrite Ha in Ha'. injection Ha' as <-.
  apply NoDup_app in Hnd as (Hnd1 & Hdisj & Hnd2).
  apply NoDup_cons in Hnd2 as (Ha2 & Hnd2).
  assert (Ha1 : a ∉ l1) by (intros Hin; apply (Hdisj a Hin); by left).
  assert (Hdisj' : forall x, x ∈ l1 -> x ∉ l2).
  { intros x Hx1 Hx2. apply (Hdisj x Hx1). by right. }
  set (ba1 := with_cnt (int_wrap (readReferenceCnt ba + 1)) ba).
  set (h1 := <[a := ba1]> h).
  assert (Ha_1 : h1 !! a = Some ba1) by apply lookup_insert_eq.
  assert (S1_1 : dlseg h1 None hd l1 q (Some a)) by by apply dlseg_insert_ne.
  assert (S2_1 : dlseg h1 (Some a) (nextBlock ba) l2 tl None) by by apply dlseg_insert_ne.
  unfold cache_find_hit, store_cnt, store_next, store_prev.
  step Ha. step Ha. step Ha_1. step Ha_1.
  cbn [ba1 with_cnt nextBlock previousBlock]. rewrite Hq.
  destruct l1 as [|p0 l1'] using rev_ind; [| clear IHl1'].
  - (* the block found is the head *)
    destruct S1_1 as [-> ->]. rewrite ptr_eqb_refl. cbn [andb].
    destruct l2 as [|n l2'].
    + (* and the only block *)
      destruct S2_1 as [Hn ->]. rewrite Hn. cbn [is_null negb andb].
      rewrite ptr_eqb_refl. cbn [andb]. eexists. split; [done|].
      cbn [heap cacheBlockHead cacheBlockTail cache_size]. split_and!; try done.
      simpl. eapply dlseg_single; [done | by rewrite <- Hq | done].
    + pose proof S2_1 as (Hn & _). rewrite Hn in S2_1 |- *.
      cbn [is_null negb andb]. pure. step Ha_1.
      cbn [ba1 with_cnt nextBlock]. rewrite Hn.
      apply NoDup_cons in Hnd2 as Hnd2'. destruct Hnd2' as (Hn2 & _).
      destruct (dlseg_set_prev _ _ _ _ _ _ None Hn2 S2_1) as (bn & Hbn & S2_2).
      step Hbn.
      destruct (dlseg_nonempty_last _ _ _ (n :: l2') _ _ ltac:(done) S2_2)
        as (l2'' & t & El2 & ->).
      rewrite El2 in S2_2, Ha2, Hnd2.
      apply NoDup_app in Hnd2 as (_ & Hdt & _).
      assert (Ht : t ∉ l2'').
      { intros Hin. apply (Hdt t Hin). by left. }
      destruct (dlseg_set_next _ _ _ _ _ _ _ (Some a) Ht S2_2) as (bt & Hbt & S2_3).
      step Hbt.
      assert (Hat : a <> t).
      { intros ->. apply Ha2. apply elem_of_app. right. by left. }
      assert (Han : a <> n).
      { intros ->. apply Ha2. rewrite <- El2. by left. }
      assert (Ha_3 : (<[t := with_next (Some a) bt]>
                        (<[n := with_prev None bn]> h1)) !! a = Some ba1).
      { rewrite lookup_insert_ne by done. by rewrite lookup_insert_ne by done. }
      step Ha_3.
      match goal with |- context [modify _ (Some a) ?c] =>
        assert (Ha_4 : heap c !! a = Some (with_next None ba1))
          by apply lookup_insert_eq
      end.
      step Ha_4. eexists. split; [done|].
      cbn [heap cacheBlockHead cacheBlockTail cache_size]. split_and!; try done.
      * rewrite El2. simpl. apply dlseg_app. exists (Some t), (Some a). split.
        -- do 2 (apply dlseg_insert_ne; [done|]). done.
        -- eapply dlseg_single; [apply lookup_insert_eq | done..].
      * relink Hbn (with_prev None bn).
        relink Hbt (with_next (Some a) bt).
        relink Ha_3 (with_next None ba1).
        exact (same_data_insert _ _ _ (with_prev (Some t) (with_next None ba1))
                 Ha_4 eq_refl).
  - (* some block comes before the block found *)
    pose proof (dlseg_last _ _ _ _ _ _ _ S1_1) as ->.
    destruct (dlseg_head_in _ _ _ (l1' ++ [p0]) _ _ ltac:(by destruct l1') S1_1) as (x0 & -> & Hx0).
    rewrite (ptr_eqb_ne (Some a) (Some x0)) by (intros [= ->]; done).
    cbn [andb is_null negb].
    destruct l2 as [|n l2'].
    + destruct S2_1 as [Hn ->]. rewrite ptr_eqb_refl. cbn [andb].
      eexists. split; [done|].
      cbn [heap cacheBlockHead cacheBlockTail cache_size]. split_and!; try done.
      simpl. apply dlseg_app. exists (Some p0), (Some a). split; [done|].
      eapply dlseg_single; [done | by rewrite <- Hq | done].
    + destruct (dlseg_last_in _ _ _ (n :: l2') _ _ ltac:(done) S2_1) as (t & -> & Ht2).
      rewrite (ptr_eqb_ne (Some a) (Some t)) by (intros [= ->]; done).
      cbn [andb].
      pose proof S2_1 as (Hn & _). rewrite Hn in S2_1 |- *.
      cbn [is_null negb andb]. step Ha_1. step Ha_1.
      cbn [ba1 with_cnt nextBlock previousBlock]. rewrite Hn, Hq.
      apply NoDup_cons in Hnd2 as Hnd2'. destruct Hnd2' as (Hn2 & _).
      destruct (dlseg_set_prev _ _ _ _ _ _ (Some p0) Hn2 S2_1) as (bn & Hbn & S2_2).
      step Hbn.
      assert (Hn1 : n ∉ l1' ++ [p0]).
      { intros Hin. apply (Hdisj' n Hin). by left. }
      assert (S1_2 : dlseg (<[n := with_prev (Some p0) bn]> h1) None (Some x0)
                       (l1' ++ [p0]) (Some p0) (Some a))
        by by apply dlseg_insert_ne.
      assert (Han : a <> n).
      { intros ->. apply Ha2. by left. }
      assert (Ha_2 : (<[n := with_prev (Some p0) bn]> h1) !! a = Some ba1)
        by by rewrite lookup_insert_ne.
      step Ha_2. step Ha_2.
      cbn [ba1 with_cnt nextBlock previousBlock]. rewrite Hn, Hq.
      apply NoDup_app in Hnd1 as (_ & Hdp & _).
      assert (Hp : p0 ∉ l1').
      { intros Hin. apply (Hdp p0 Hin). by left. }
      destruct (dlseg_set_next _ _ _ _ _ _ _ (Some n) Hp S1_2) as (bp & Hbp & S1_3).
      step Hbp.
      assert (Hp2 : p0 ∉ n :: l2').
      { apply Hdisj'. apply elem_of_app. right. by left. }
      apply (dlseg_insert_ne _ p0 (with_next (Some n) bp)) in S2_2; [|done].
      destruct (dlseg_nonempty_last _ _ _ (n :: l2') _ _ ltac:(done) S2_2)
        as (l2'' & t' & El2 & [= <-]).
      rewrite El2 in S2_2, Hnd2, Ht2.
      apply NoDup_app in Hnd2 as (_ & Hdt & _).
      assert (Ht : t ∉ l2'').
      { intros Hin. apply (Hdt t Hin). by left. }
      destruct (dlseg_set_next _ _ _ _ _ _ _ (Some a) Ht S2_2) as (bt & Hbt & S2_3).
      step Hbt.
      assert (Hat : a <> t).
      { intros ->. apply Ha2. rewrite El2. apply elem_of_app. right. by left. }
      assert (Hap : a <> p0).
      { intros ->. apply Ha1. apply elem_of_app. right. by left. }
      assert (Ht1 : t ∉ l1' ++ [p0]).
      { intros Hin. apply (Hdisj' t Hin). rewrite El2. apply elem_of_app. right. by left. }
      apply (dlseg_insert_ne _ t (with_next (Some a) bt)) in S1_3; [|done].
      match goal with |- context [bind (modify _ (Some a)) _ ?c] =>
        assert (Ha_4 : heap c !! a = Some ba1)
      end.
      { cbn [heap]. by rewrite !lookup_insert_ne by done. }
      step Ha_4.
      match goal with |- context [modify _ (Some a) ?c] =>
        assert (Ha_5 : heap c !! a = Some (with_next None ba1))
          by apply lookup_insert_eq
      end.
      step Ha_5. eexists. split; [done|].
      cbn [heap cacheBlockHead cacheBlockTail cache_size]. split_and!; try done.
      * rewrite El2. apply dlseg_app. exists (Some p0), (Some n). split.
        { do 2 (apply dlseg_insert_ne; [done|]). done. }
        apply dlseg_app. exists (Some t), (Some a). split.
        { do 2 (apply dlseg_insert_ne; [by rewrite <- El2|]). done. }
        eapply dlseg_single; [apply lookup_insert_eq | done..].
      * relink Hbn (with_prev (Some p0) bn).
        relink Hbp (with_next (Some n) bp).
        relink Hbt (with_next (Some a) bt).
        relink Ha_4 (with_next None ba1).
        exact (same_data_insert _ _ _ (with_prev (Some t) (with_next None ba1))
                 Ha_5 eq_refl).
Qed.

Lemma dlseg_length h prev p l last nxt :
  dlseg h prev p l last nxt -> NoDup l -> (length l <= size h)%nat.
Proof.
  intros Hseg Hnd. rewrite <- (size_dom (D := gset addr)).
  rewrite <- (size_list_to_set (C := gset addr) l Hnd).
  apply subseteq_size. intros x Hx. apply elem_of_list_to_set in Hx.
  apply elem_of_dom. by eapply dlseg_in.
Qed.

Lemma cache_find_loop_miss url c l : forall fuel prev p last,
  (length l < fuel)%nat ->
  dlseg (heap c) prev p l last None ->
  Forall (fun x => key_at (heap c) x <> Some url) l ->
  cache_find_loop fuel url p c = inr (None, c).
Proof.
  induction l as [|x l IH]; intros fuel prev p last Hfuel Hseg Hkeys.
  - destruct Hseg as [-> _]. destruct fuel; [simpl in Hfuel; lia | done].
  - destruct Hseg as (-> & b & Hb & _ & Hrest).
    destruct fuel as [|fuel]; [simpl in Hfuel; lia|].
    apply Forall_cons in Hkeys as [Hx Hkeys].
    cbn [cache_find_loop is_null]. step Hb.
    unfold key_at in Hx. rewrite Hb in Hx. simpl in Hx.
    destruct (String.eqb_spec url (cache_uri_key b)) as [->|_]; [done|].
    eapply IH; [simpl in Hfuel; lia | done..].
Qed.

Lemma cache_find_loop_hit url c l1 a l2 : forall fuel prev p last nxt,
  (length l1 < fuel)%nat ->
  dlseg (heap c) prev p (l1 ++ a :: l2) last nxt ->
  Forall (fun x => key_at (heap c) x <> Some url) l1 ->
  key_at (heap c) a = Some url ->
  cache_find_loop fuel url p c =
  bind (cache_find_hit (Some a)) (fun _ => ret (Some a)) c.
Proof.
  induction l1 as [|x l1 IH]; intros fuel prev p last nxt Hfuel Hseg Hkeys Ha.
  - destruct Hseg as (-> & b & Hb & _ & Hrest).
    destruct fuel as [|fuel]; [simpl in Hfuel; lia|].
    cbn [cache_find_loop is_null]. step Hb.
    unfold key_at in Ha. rewrite Hb in Ha. simpl in Ha. injection Ha as Ha.
    by rewrite Ha, String.eqb_refl.
  - destruct Hseg as (-> & b & Hb & _ & Hrest).
    destruct fuel as [|fuel]; [simpl in Hfuel; lia|].
    apply Forall_cons in Hkeys as [Hx Hkeys].
    cbn [cache_find_loop is_null]. step Hb.
    unfold key_at in Hx. rewrite Hb in Hx. simpl in Hx.
    destruct (String.eqb_spec url (cache_uri_key b)) as [->|_]; [done|].
    eapply IH; [simpl in Hfuel; lia | done..].
Qed.

(** A miss leaves the cache as it is. *)
Lemma cache_find_miss url c l :
  cache_ok c l ->
  Forall (fun x => key_at (heap c) x <> Some url) l ->
  cache_find url c = inr (None, c).
Proof.
  intros [Hseg Hnd _ _ _] Hkeys. unfold cache_find. pure.
  eapply cache_find_loop_miss; [|done..].
  pose proof (dlseg_length _ _ _ _ _ _ Hseg Hnd). lia.
Qed.

Lemma total_size_move h l1 a l2 :
  total_size h (l1 ++ l2 ++ [a]) = total_size h (l1 ++ a :: l2).
Proof.
  rewrite !total_size_app. simpl. lia.
Qed.

(** A hit on the first block with the URL returns that block, now the tail,
    with one more reference. *)
Lemma cache_find_hit_ok url c l1 a l2 ba :
  cache_ok c (l1 ++ a :: l2) ->
  Forall (fun x => key_at (heap c) x <> Some url) l1 ->
  heap c !! a = Some ba -> cache_uri_key ba = url ->
  exists c',
    cache_find url c = inr (Some a, c') /\
    cache_ok c' (l1 ++ l2 ++ [a]) /\
    same_data (<[a := with_cnt (int_wrap (readReferenceCnt ba + 1)) ba]> (heap c))
              (heap c').
Proof.
  intros [Hseg Hnd Hsz Htot Hcap] Hkeys Ha Hkey.
  destruct (cache_find_hit_spec c l1 a l2 ba Hseg Hnd Ha)
    as (c' & Hrun & Hseg' & Hdata & Hsize).
  exists c'. split.
  - unfold cache_find. pure.
    erewrite cache_find_loop_hit; [| | exact Hseg | done |].
    + by rewrite (bind_inr _ _ _ _ _ Hrun).
    + pose proof (dlseg_length _ _ _ _ _ _ Hseg Hnd) as Hlen.
      rewrite length_app in Hlen. simpl in Hlen. lia.
    + unfold key_at. by rewrite Ha, <- Hkey.
  - split; [|done].
    assert (Hsame : forall x, size_at (heap c') x = size_at (heap c) x).
    { intros x. rewrite <- (same_data_size _ _ x Hdata). unfold size_at.
      destruct (decide (a = x)) as [->|Hne].
      - by rewrite lookup_insert_eq, Ha.
      - by rewrite lookup_insert_ne. }
    split.
    + done.
    + apply NoDup_app in Hnd as (Hnd1 & Hdisj & Hnd2).
      apply NoDup_cons in Hnd2 as (Ha2 & Hnd2).
      apply NoDup_app. split_and!; [done| |].
      * intros x Hx1 Hx2. apply elem_of_app in Hx2 as [Hx2|Hx2].
        -- apply (Hdisj x Hx1). by right.
        -- apply list_elem_of_singleton in Hx2 as ->. apply (Hdisj a Hx1). by left.
      * apply NoDup_app. split_and!; [done | | apply NoDup_singleton].
        intros x Hx2 Hxa. apply list_elem_of_singleton in Hxa as ->. done.
    + apply Forall_forall. intros x Hx. rewrite Hsame.
      rewrite Forall_forall in Hsz. apply Hsz.
      apply elem_of_app in Hx as [Hx|Hx]; [apply elem_of_app; by left|].
      apply elem_of_app in Hx as [Hx|Hx]; apply elem_of_app; right; [by right|].
      apply list_elem_of_singleton in Hx as ->. by left.
    + rewrite Hsize, Htot, total_size_move.
      symmetry. apply total_size_agree. intros; apply Hsame.
    + by rewrite Hsize.
Qed.

(** ** [cache_eviction] *)

Lemma size_wrap_small z : 0 <= z < 2 ^ 64 -> size_wrap z = z.
Proof. intros H. unfold size_wrap. by apply Z.mod_small. Qed.

Lemma int_wrap_small z : - 2 ^ 31 <= z < 2 ^ 31 -> int_wrap z = z.
Proof. intros H. unfold int_wrap. rewrite Z.mod_small; lia. Qed.

Lemma data_size_at h h' x :
  data <$> h' !! x = data <$> h !! x -> size_at h' x = size_at h x.
Proof.
  intros H. unfold size_at.
  destruct (h !! x) as [b|], (h' !! x) as [b'|]; simpl in *; try done.
  unfold data in H. simplify_eq. congruence.
Qed.

Lemma data_cnt_at h h' x :
  data <$> h' !! x = data <$> h !! x -> cnt_at h' x = cnt_at h x.
Proof.
  intros H. unfold cnt_at.
  destruct (h !! x) as [b|], (h' !! x) as [b'|]; simpl in *; try done.
  unfold data in H. simplify_eq. congruence.
Qed.

Lemma data_key_at h h' x :
  data <$> h' !! x = data <$> h !! x -> key_at h' x = key_at h x.
Proof.
  intros H. unfold key_at.
  destruct (h !! x) as [b|], (h' !! x) as [b'|]; simpl in *; try done.
  unfold data in H. simplify_eq. congruence.
Qed.

Lemma total_size_data h h' l :
  (forall x, x ∈ l -> data <$> h' !! x = data <$> h !! x) ->
  total_size h' l = total_size h l.
Proof.
  intros H. apply total_size_agree. intros a Ha. by apply data_size_at, H.
Qed.

Lemma unpinned_data h h' l :
  (forall x, x ∈ l -> data <$> h' !! x = data <$> h !! x) ->
  unpinned h' l <-> unpinned h l.
Proof.
  intros H. unfold unpinned. rewrite !Forall_forall.
  split; intros Hu x Hx; specialize (Hu x Hx);
    by rewrite (data_cnt_at h h' x (H x Hx)) in *.
Qed.

(** What one run of the eviction loop does to the head block [a] of a cache
    whose other blocks are [rest]. *)
Lemma evict_head_step h tl sz a ba rest :
  h !! a = Some ba -> NoDup (a :: rest) ->
  dlseg h (Some a) (nextBlock ba) rest tl None ->
  exists h' tl',
    dlseg h' None (nextBlock ba) rest tl' None /\
    (forall x, x ∈ rest -> data <$> h' !! x = data <$> h !! x) /\
    forall B (k : Z -> M B) hd,
      ((let* nx := next_of (Some a) in
        (if negb (is_null nx) then
           set_head nx ;;;
           let* tempCacheLinePtr := next_of (Some a) in
           store_prev tempCacheLinePtr None
         else set_head None ;;; set_tail None) ;;;
        let* sz0 := get_size in
        let* osz := size_of (Some a) in
        set_size (size_wrap (sz0 - osz)) ;;;
        let* osz' := size_of (Some a) in
        Free (Some a) ;;; k osz') (mk_cache h hd tl sz))
      = k (cache_obj_size ba)
          (mk_cache h' (nextBlock ba) tl' (size_wrap (sz - cache_obj_size ba))).
Proof.
  intros Ha Hnd Hrest. apply NoDup_cons in Hnd as [Har Hnd].
  destruct rest as [|n rest'].
  - destruct Hrest as [Hn ->]. exists (delete a h), None. split_and!.
    + by rewrite Hn.
    + intros x Hx. by apply elem_of_nil in Hx.
    + intros B k hd. step Ha. rewrite Hn. cbn [is_null negb]. pure.
      step Ha. step Ha. unfold Free, bind at 1. cbn [heap]. by rewrite Ha.
  - pose proof Hrest as (Hn & _). rewrite Hn in Hrest.
    apply not_elem_of_cons in Har as [Han Har].
    apply NoDup_cons in Hnd as [Hn' Hnd].
    destruct (dlseg_set_prev _ _ _ _ _ _ None Hn' Hrest) as (bn & Hbn & Hrest').
    exists (delete a (<[n := with_prev None bn]> h)), tl. split_and!.
    + rewrite Hn. apply dlseg_delete_ne; [|done].
      apply not_elem_of_cons. by split.
    + intros x Hx. assert (a <> x).
      { intros ->. apply elem_of_cons in Hx as [?|?]; done. }
      rewrite lookup_delete_ne by done.
      symmetry. by apply (same_data_insert h n bn (with_prev None bn)).
    + intros B k hd. step Ha. rewrite Hn. cbn [is_null negb]. pure.
      step Ha. rewrite Hn. unfold store_prev. step Hbn.
      assert (Ha' : (<[n := with_prev None bn]> h) !! a = Some ba)
        by by rewrite lookup_insert_ne.
      step Ha'. step Ha'. unfold Free, bind at 1. cbn [heap]. by rewrite Ha'.
Qed.

(** The loop either meets a block that is in use, and spins, or frees a
    prefix [l0] of the list: all of it, or just enough to reach the size
    asked for. *)
Lemma cache_eviction_loop_spec req l : forall fuel c freed,
  dlseg (heap c) None (cacheBlockHead c) l (cacheBlockTail c) None ->
  NoDup l -> (length l < fuel)%nat ->
  Forall (fun a => 0 <= size_at (heap c) a) l ->
  cache_size c = total_size (heap c) l ->
  0 <= freed -> freed + cache_size c < 2 ^ 64 ->
  (cache_eviction_loop fuel req freed (cacheBlockHead c) c = inl BusyWait /\
   ~ unpinned (heap c) l) \/
  exists d c' l0 l',
    l = l0 ++ l' /\
    cache_eviction_loop fuel req freed (cacheBlockHead c) c = inr (d, c') /\
    dlseg (heap c') None (cacheBlockHead c') l' (cacheBlockTail c') None /\
    (forall x, x ∈ l' -> data <$> heap c' !! x = data <$> heap c !! x) /\
    cache_size c' = total_size (heap c) l' /\
    (l' = [] \/ req <= freed + total_size (heap c) l0) /\
    unpinned (heap c) l0.
Proof.
  induction l as [|a rest IH]; intros fuel c freed Hseg Hnd Hfuel Hsz Htot Hfr Hov;
    (destruct fuel as [|fuel]; [simpl in Hfuel; lia|]);
    destruct c as [h hd tl sz]; cbn [heap cacheBlockHead cacheBlockTail cache_size] in *.
  - destruct Hseg as [-> ->]. right.
    exists (freed <? req), (mk_cache h None None sz), [], [].
    cbn [cache_eviction_loop is_null negb]. rewrite andb_false_r.
    split_and!; try done; [by left | constructor].
  - destruct Hseg as (-> & ba & Ha & Hprev & Hrest).
    apply Forall_cons in Hsz as [Hsa Hsz].
    assert (Hosz : size_at h a = cache_obj_size ba) by (unfold size_at; by rewrite Ha).
    rewrite Hosz in Hsa. simpl in Htot. rewrite Hosz in Htot.
    pose proof (total_size_nonneg _ _ Hsz) as Hrest_nn.
    cbn [cache_eviction_loop is_null negb]. rewrite andb_true_r.
    destruct (Z.ltb_spec freed req) as [Hlt|Hge].
    + step Ha. destruct (Z.eqb_spec (readReferenceCnt ba) 0) as [Hcnt|Hcnt];
        cbn [negb].
      2:{ left. split; [done|]. intros Hu. apply Forall_cons in Hu as [Hu _].
          unfold cnt_at in Hu. rewrite Ha in Hu. done. }
      destruct (evict_head_step h tl sz a ba rest Ha Hnd Hrest)
        as (h' & tl' & Hseg' & Hdata' & Hstep).
      rewrite Hstep. pure.
      apply NoDup_cons in Hnd as [Har Hnd].
      rewrite !size_wrap_small by lia.
      destruct (IH fuel (mk_cache h' (nextBlock ba) tl' (sz - cache_obj_size ba))
                  (freed + cache_obj_size ba))
        as [[Hrun Hpin] | (d & c' & l0 & l' & -> & Hrun & Hseg'' & Hdata'' & Htot'' & Hdone & Hun)];
        cbn [heap cacheBlockHead cacheBlockTail cache_size]; try done; try lia.
      * simpl in Hfuel. lia.
      * apply Forall_forall. intros x Hx. rewrite (data_size_at h h' x (Hdata' x Hx)).
        rewrite Forall_forall in Hsz. by apply Hsz.
      * rewrite (total_size_data h h' rest Hdata'). lia.
      * left. split; [done|]. intros Hu. apply Hpin.
        apply Forall_cons in Hu as [_ Hu]. by apply (unpinned_data h h' rest Hdata').
      * cbn [heap cacheBlockHead cacheBlockTail cache_size] in *.
        right. exists d, c', (a :: l0), l'. split_and!; try done.
        -- intros x Hx. rewrite Hdata'' by done. apply Hdata'.
           apply elem_of_app. by right.
        -- rewrite Htot''. apply total_size_data. intros x Hx. apply Hdata'.
           apply elem_of_app. by right.
        -- destruct Hdone as [->|Hdone]; [by left | right].
           simpl. rewrite Hosz.
           rewrite (total_size_data h h' l0) in Hdone; [lia|].
           intros x Hx. apply Hdata'. apply elem_of_app. by left.
        -- apply Forall_cons. split.
           ++ unfold cnt_at. by rewrite Ha.
           ++ apply (unpinned_data h h' l0); [|done].
              intros x Hx. apply Hdata'. apply elem_of_app. by left.
    + right. exists false, (mk_cache h (Some a) tl sz), [], (a :: rest).
      cbn [heap cacheBlockHead cacheBlockTail cache_size].
      split_and!; try done.
      * split; [done|]. by exists ba.
      * simpl. by rewrite Hosz.
      * right. simpl. lia.
      * constructor.
Qed.

(** ** [cache_uri] *)

Lemma bind_Malloc {B} (k : option addr -> M B) c :
  bind Malloc k c =
  k (Some (fresh (dom (heap c))))
    (mk_cache (<[fresh (dom (heap c)) := blank_block]> (heap c))
       (cacheBlockHead c) (cacheBlockTail c) (cache_size c)).
Proof. done. Qed.

Lemma fresh_not_in_heap (h : gmap addr cache_block) : h !! fresh (dom h) = None.
Proof. apply not_elem_of_dom, is_fresh. Qed.

(** Linking appends one block with the payload given and no reference. *)
Lemma cache_uri_link_spec c l uri buf n :
  dlseg (heap c) None (cacheBlockHead c) l (cacheBlockTail c) None ->
  NoDup l ->
  0 <= n <= Z.of_nat (length buf) -> cache_size c + n < 2 ^ 64 ->
  0 <= cache_size c ->
  exists a c',
    heap c !! a = None /\
    cache_uri_link uri buf n c = inr (tt, c') /\
    dlseg (heap c') None (cacheBlockHead c') (l ++ [a]) (cacheBlockTail c') None /\
    (forall x, x ∈ l -> data <$> heap c' !! x = data <$> heap c !! x) /\
    data <$> heap c' !! a = Some (uri, take (Z.to_nat n) buf, n, 0) /\
    cache_size c' = cache_size c + n.
Proof.
  destruct c as [h hd tl sz]. cbn [heap cacheBlockHead cacheBlockTail cache_size].
  intros Hseg Hnd Hn Hov Hsz.
  pose proof (fresh_not_in_heap h) as Hfresh.
  unfold cache_uri_link. rewrite bind_Malloc.
  cbn [heap cacheBlockHead cacheBlockTail cache_size].
  remember (fresh (dom h)) as a eqn:Ea. clear Ea.
  assert (Hal : a ∉ l).
  { intros Hin. destruct (dlseg_in _ _ _ _ _ _ a Hseg Hin) as [b Hb]. congruence. }
  set (h1 := <[a := blank_block]> h).
  assert (Ha1 : h1 !! a = Some blank_block) by apply lookup_insert_eq.
  assert (Hmem : memcpy_from buf n = ret (take (Z.to_nat n) buf)).
  { unfold memcpy_from. destruct (Z.ltb_spec (Z.of_nat (length buf)) n); [lia | done]. }
  exists a. unfold store_prev, store_next, store_cnt.
  fold h1. pure.
  destruct l as [|x0 l0].
  - destruct Hseg as [-> ->]. cbn [is_null andb]. pure.
    step Ha1.
    match goal with |- context [bind (modify _ (Some a)) _ ?c] =>
      assert (Ha2 : heap c !! a = Some (with_prev None blank_block))
        by apply lookup_insert_eq end.
    step Ha2. rewrite Hmem. pure.
    match goal with |- context [bind (modify _ (Some a)) _ ?c] =>
      assert (Ha3 : heap c !! a = Some (with_next None (with_prev None blank_block)))
        by apply lookup_insert_eq end.
    step Ha3.
    match goal with |- context [bind (modify _ (Some a)) _ ?c] =>
      assert (Ha4 : heap c !! a = Some
        (with_payload (take (Z.to_nat n) buf) n uri
           (with_next None (with_prev None blank_block))))
        by apply lookup_insert_eq end. step Ha4.
    rewrite size_wrap_small by lia.
    eexists. split_and!; try done; cbn [heap cacheBlockHead cacheBlockTail cache_size].
    + eapply dlseg_single; [apply lookup_insert_eq | done..].
    + intros x Hx. by apply elem_of_nil in Hx.
    + by rewrite lookup_insert_eq.
  - pose proof Hseg as (-> & _). cbn [is_null andb]. pure.
    destruct (dlseg_nonempty_last _ _ _ (x0 :: l0) _ _ ltac:(done) Hseg)
      as (l' & t & El & ->).
    rewrite El in Hseg, Hal |- *.
    step Ha1.
    apply (dlseg_insert_ne _ a blank_block) in Hseg; [|done]. fold h1 in Hseg.
    apply (dlseg_insert_ne _ a (with_prev (Some t) blank_block)) in Hseg; [|done].
    assert (Hat : a <> t).
    { intros ->. apply Hal. apply elem_of_app. right. by left. }
    rewrite El in Hnd. apply NoDup_app in Hnd as (_ & Hdt & _).
    assert (Htl : t ∉ l').
    { intros Hin. apply (Hdt t Hin). by left. }
    destruct (dlseg_set_next _ _ _ _ _ _ _ (Some a) Htl Hseg) as (bt & Hbt & Hseg').
    step Hbt.
    match goal with |- context [bind (modify _ (Some a)) _ ?c] =>
      assert (Ha2 : heap c !! a = Some (with_prev (Some t) blank_block))
    end.
    { cbn [heap]. rewrite lookup_insert_ne by done. apply lookup_insert_eq. }
    step Ha2. rewrite Hmem. pure.
    match goal with |- context [bind (modify _ (Some a)) _ ?c] =>
      assert (Ha3 : heap c !! a = Some
        (with_next None (with_prev (Some t) blank_block)))
        by apply lookup_insert_eq end.
    step Ha3.
    match goal with |- context [bind (modify _ (Some a)) _ ?c] =>
      assert (Ha4 : heap c !! a = Some
        (with_payload (take (Z.to_nat n) buf) n uri
           (with_next None (with_prev (Some t) blank_block))))
        by apply lookup_insert_eq end.
    step Ha4.
    rewrite size_wrap_small by lia.
    eexists. split_and!; try done; cbn [heap cacheBlockHead cacheBlockTail cache_size].
    + apply dlseg_app. exists (Some t), (Some a). split.
      * do 3 (apply dlseg_insert_ne; [done|]). done.
      * eapply dlseg_single; [apply lookup_insert_eq | done..].
    + intros x Hx. assert (a <> x) by (by intros ->).
      rewrite !(lookup_insert_ne _ a) by done.
      rewrite <- (same_data_insert _ t bt (with_next (Some a) bt) Hbt eq_refl x).
      rewrite lookup_insert_ne by done. unfold h1. by rewrite lookup_insert_ne.
    + by rewrite lookup_insert_eq.
Qed.


Lemma cache_ok_size_nonneg c l : cache_ok c l -> 0 <= cache_size c.
Proof. intros [_ _ Hsz Htot _]. rewrite Htot. by apply total_size_nonneg. Qed.

Lemma MAX_CACHE_SIZE_small : MAX_CACHE_SIZE + MAX_CACHE_SIZE < 2 ^ 64.
Proof. done. Qed.

(** Making room either spins on a block in use or frees a prefix [l0] of the
    list, after which the object fits. *)
Lemma cache_uri_room_spec c l n :
  cache_ok c l -> 0 <= n <= MAX_CACHE_SIZE ->
  (cache_uri_room n c = inl BusyWait /\ ~ unpinned (heap c) l) \/
  exists c' l0 l',
    l = l0 ++ l' /\
    cache_uri_room n c = inr (tt, c') /\
    dlseg (heap c') None (cacheBlockHead c') l' (cacheBlockTail c') None /\
    (forall x, x ∈ l' -> data <$> heap c' !! x = data <$> heap c !! x) /\
    cache_size c' = total_size (heap c) l' /\
    cache_size c' + n <= MAX_CACHE_SIZE /\
    unpinned (heap c) l0 /\
    (cache_size c + n <= MAX_CACHE_SIZE -> c' = c /\ l0 = []).
Proof.
  intros Hok Hn. pose proof (cache_ok_size_nonneg c l Hok) as Hnn.
  destruct Hok as [Hseg Hnd Hsz Htot Hcap].
  pose proof MAX_CACHE_SIZE_small as Hsmall.
  unfold cache_uri_room. pure. rewrite (size_wrap_small (cache_size c + n)) by lia.
  destruct (Z.ltb_spec MAX_CACHE_SIZE (cache_size c + n)) as [Hbig|Hfit].
  - pure. rewrite (size_wrap_small (cache_size c + n)) by lia.
    rewrite size_wrap_small by lia.
    destruct (cache_eviction_loop_spec (cache_size c + n - MAX_CACHE_SIZE) l
                (S (size (heap c))) c 0)
      as [[Hrun Hpin] | (d & c' & l0 & l' & -> & Hrun & Hseg' & Hdata & Htot' & Hdone & Hun)];
      try done; try lia.
    + pose proof (dlseg_length _ _ _ _ _ _ Hseg Hnd). lia.
    + left. split; [|done].
      by rewrite (bind_inl (cache_eviction _) _ c BusyWait Hrun).
    + right. exists c', l0, l'. split_and!; try done.
      * by rewrite (bind_inr (cache_eviction _) _ c d c' Hrun).
      * rewrite Htot'. destruct Hdone as [->|Hdone]; [simpl; lia|].
        rewrite Htot, total_size_app in Hbig, Hdone, Hcap. lia.
      * lia.
  - right. exists c, [], l. split_and!; try done; try lia. constructor.
Qed.

(** [cache_uri] either spins on a block in use or frees a prefix [l0] of the
    list and appends the new block [a] to what is left. *)
Lemma cache_uri_spec c l uri buf n :
  cache_ok c l -> 0 <= n <= Z.of_nat (length buf) -> n <= MAX_CACHE_SIZE ->
  (cache_uri uri buf n c = inl BusyWait /\ ~ unpinned (heap c) l) \/
  exists c' a l0 l',
    l = l0 ++ l' /\
    cache_uri uri buf n c = inr (tt, c') /\
    cache_ok c' (l' ++ [a]) /\
    (forall x, x ∈ l' -> data <$> heap c' !! x = data <$> heap c !! x) /\
    data <$> heap c' !! a = Some (uri, take (Z.to_nat n) buf, n, 0) /\
    unpinned (heap c) l0 /\
    (cache_size c + n <= MAX_CACHE_SIZE -> l0 = []).
Proof.
  intros Hok Hn Hcapn.
  destruct (cache_uri_room_spec c l n Hok ltac:(lia))
    as [[Hrun Hpin] | (c1 & l0 & l' & -> & Hrun & Hseg1 & Hdata1 & Htot1 & Hfit1 & Hun & Hsame)].
  { left. split; [|done]. unfold cache_uri. by rewrite (bind_inl _ _ _ _ Hrun). }
  destruct Hok as [Hseg Hnd Hsz Htot Hcap].
  apply NoDup_app in Hnd as (Hnd0 & Hdisj & Hnd').
  apply Forall_app in Hsz as [Hsz0 Hsz'].
  assert (Hnn1 : 0 <= cache_size c1).
  { rewrite Htot1. by apply total_size_nonneg. }
  pose proof MAX_CACHE_SIZE_small as Hsmall.
  destruct (cache_uri_link_spec c1 l' uri buf n Hseg1 Hnd' Hn ltac:(lia) Hnn1)
    as (a & c' & Hfresh & Hlink & Hseg' & Hdata' & Hnew & Hsize').
  assert (Hal : a ∉ l').
  { intros Hin. destruct (dlseg_in _ _ _ _ _ _ a Hseg1 Hin) as [b Hb]. congruence. }
  assert (Hsa : size_at (heap c') a = n).
  { unfold size_at. destruct (heap c' !! a) as [b|]; [|done].
    unfold data in Hnew. simpl in *. by simplify_eq. }
  right. exists c', a, l0, l'. split_and!; try done.
  - unfold cache_uri. by rewrite (bind_inr _ _ _ _ _ Hrun).
  - split.
    + done.
    + apply NoDup_app. split_and!; [done | | apply NoDup_singleton].
      intros x Hx Hxa. apply list_elem_of_singleton in Hxa as ->. done.
    + apply Forall_app. split.
      * apply Forall_forall. intros x Hx.
        rewrite (data_size_at _ _ x (Hdata' x Hx)), (data_size_at _ _ x (Hdata1 x Hx)).
        rewrite Forall_forall in Hsz'. by apply Hsz'.
      * apply Forall_singleton. lia.
    + rewrite Hsize', total_size_app. simpl. rewrite Hsa, Htot1.
      rewrite (total_size_data (heap c1) (heap c') l' Hdata').
      rewrite (total_size_data (heap c) (heap c1) l' Hdata1). lia.
    + lia.
  - intros x Hx. by rewrite Hdata', Hdata1.
  - intros Hfit. by destruct (Hsame Hfit).
Qed.

(** ** What [cachePrint] and the other walks see *)

Lemma chain_dlseg h l : forall fuel prev p last,
  dlseg h prev p l last None -> (length l <= fuel)%nat ->
  chain fuel h p = map (fun a => (a, block_at h a)) l.
Proof.
  induction l as [|a l IH]; intros fuel prev p last Hseg Hfuel.
  - destruct Hseg as [-> _]. by destruct fuel.
  - destruct Hseg as (-> & b & Hb & _ & Hrest).
    destruct fuel as [|fuel]; [simpl in Hfuel; lia|].
    simpl. rewrite Hb. unfold block_at at 1. rewrite Hb. simpl. f_equal.
    eapply IH; [done | simpl in Hfuel; lia].
Qed.

Lemma cachePrint_loop_chain h : forall fuel p,
  cachePrint_loop fuel h p =
  map (fun e => (cache_obj_size e.2, cache_uri_key e.2)) (chain fuel h p).
Proof.
  induction fuel as [|fuel IH]; intros p; [done|].
  destruct p as [a|]; [|done]. simpl.
  destruct (h !! a) as [b|]; [|done]. simpl. by rewrite IH.
Qed.

Lemma cache_chain_ok c l :
  cache_ok c l -> cache_chain c = map (fun a => (a, block_at (heap c) a)) l.
Proof.
  intros [Hseg Hnd _ _ _]. unfold cache_chain.
  eapply chain_dlseg; [done|]. by eapply dlseg_length.
Qed.

Lemma cache_uris_ok c l :
  cache_ok c l ->
  cache_uris c = map (fun a => cache_uri_key (block_at (heap c) a)) l.
Proof.
  intros Hok. unfold cache_uris. rewrite (cache_chain_ok c l Hok).
  by rewrite map_map.
Qed.

Lemma cachePrint_ok c l :
  cache_ok c l ->
  cachePrint c =
  map (fun a => (cache_obj_size (block_at (heap c) a),
                 cache_uri_key (block_at (heap c) a))) l.
Proof.
  intros Hok. unfold cachePrint. rewrite cachePrint_loop_chain.
  fold (cache_chain c). rewrite (cache_chain_ok c l Hok). by rewrite map_map.
Qed.

Lemma cache_ok_lookup c l a :
  cache_ok c l -> a ∈ l -> heap c !! a = Some (block_at (heap c) a).
Proof.
  intros [Hseg _ _ _ _] Hin.
  destruct (dlseg_in _ _ _ _ _ _ a Hseg Hin) as [b Hb].
  unfold block_at. by rewrite Hb.
Qed.


(** ** Well-formedness as a check that runs *)

Lemma walk_ok_dlseg h : forall fuel prev p last l,
  walk_ok fuel h prev p last = Some l -> dlseg h prev p l last None.
Proof.
  induction fuel as [|fuel IH]; intros prev p last l Hw; [done|].
  simpl in Hw. destruct p as [a|].
  - destruct (h !! a) as [b|] eqn:Hb; [|done].
    destruct (ptr_eqb (previousBlock b) prev) eqn:Hp; [|done].
    apply ptr_eqb_eq in Hp.
    destruct (walk_ok fuel h (Some a) (nextBlock b) last) as [l'|] eqn:Hw';
      [|done].
    simpl in Hw. injection Hw as <-. split; [done|]. exists b.
    split_and!; [done..|]. by apply IH.
  - destruct (ptr_eqb last prev) eqn:Hp; [|done]. apply ptr_eqb_eq in Hp.
    by injection Hw as <-.
Qed.

Lemma cache_okb_wf c : cache_okb c = true -> cache_wf c.
Proof.
  unfold cache_okb.
  destruct (walk_ok _ _ _ _ _) as [l|] eqn:Hw; [|done].
  rewrite !andb_true_iff. intros [[[Hnd Hsz] Htot] Hcap].
  exists l. split.
  - by apply walk_ok_dlseg in Hw.
  - by apply bool_decide_eq_true in Hnd.
  - apply Forall_forall. intros a Ha. rewrite forallb_forall in Hsz.
    apply Z.leb_le, Hsz. by apply list_elem_of_In.
  - by apply Z.eqb_eq.
  - by apply Z.leb_le.
Qed.

Lemma cache_init_ok : cache_ok cache_init [].
Proof. split; try done; constructor. Qed.

Lemma cnt_at_block h a : cnt_at h a = readReferenceCnt (block_at h a).
Proof. unfold cnt_at, block_at. by destruct (h !! a). Qed.

Lemma size_at_block h a : size_at h a = cache_obj_size (block_at h a).
Proof. unfold size_at, block_at. by destruct (h !! a). Qed.

Lemma all_unpinned_ok c l :
  cache_ok c l -> all_unpinned c <-> unpinned (heap c) l.
Proof.
  intros Hok. unfold all_unpinned, unpinned.
  rewrite (cache_chain_ok c l Hok), Forall_map. simpl.
  apply Forall_proper; [|done]. intros a. by rewrite cnt_at_block.
Qed.

Lemma printed_total_ok c l : cache_ok c l -> printed_total c = cache_size c.
Proof.
  intros Hok. unfold printed_total. rewrite (cachePrint_ok c l Hok).
  rewrite (ok_total c l Hok). clear Hok.
  induction l as [|a l IH]; simpl; [done|].
  by rewrite IH, size_at_block.
Qed.

(** ** The cache as a list of entries *)

Lemma cache_uris_entries c : cache_uris c = map entry_key (entries c).
Proof. unfold cache_uris, entries. by rewrite map_map. Qed.

Lemma entries_ok c l :
  cache_ok c l -> entries c = map (fun a => data (block_at (heap c) a)) l.
Proof.
  intros Hok. unfold entries. rewrite (cache_chain_ok c l Hok).
  by rewrite map_map.
Qed.

Lemma block_at_data h h' x :
  data <$> h' !! x = data <$> h !! x ->
  data (block_at h' x) = data (block_at h x).
Proof.
  intros H. unfold block_at.
  destruct (h !! x), (h' !! x); simpl in *; congruence.
Qed.

Lemma block_at_data_some h x d :
  data <$> h !! x = Some d -> data (block_at h x) = d.
Proof.
  intros H. unfold block_at. destruct (h !! x); simpl in *; congruence.
Qed.

Lemma entries_agree h h' l :
  (forall x, x ∈ l -> data <$> h' !! x = data <$> h !! x) ->
  map (fun a => data (block_at h' a)) l = map (fun a => data (block_at h a)) l.
Proof.
  intros H. apply map_ext_in. intros a Ha. apply block_at_data, H.
  by apply list_elem_of_In.
Qed.

Lemma cache_uri_room_fit c n :
  0 <= cache_size c -> 0 <= n -> cache_size c + n <= MAX_CACHE_SIZE ->
  cache_uri_room n c = inr (tt, c).
Proof.
  intros Hc Hn Hfit. unfold cache_uri_room. pure.
  rewrite size_wrap_small by (pose proof MAX_CACHE_SIZE_small; lia).
  by destruct (Z.ltb_spec MAX_CACHE_SIZE (cache_size c + n)); [lia|].
Qed.

(** An insertion that fits appends one entry. *)
Lemma cache_uri_fit c uri buf n :
  cache_wf c -> 0 <= n <= Z.of_nat (length buf) ->
  cache_size c + n <= MAX_CACHE_SIZE ->
  exists c',
    cache_uri uri buf n c = inr (tt, c') /\
    cache_wf c' /\
    entries c' = entries c ++ [(uri, take (Z.to_nat n) buf, n, 0)] /\
    cache_size c' = cache_size c + n.
Proof.
  intros [l Hok] Hn Hfit.
  pose proof (cache_ok_size_nonneg c l Hok) as Hnn.
  destruct (cache_uri_spec c l uri buf n Hok Hn ltac:(lia))
    as [[Hrun _] | (c' & a & l0 & l' & El & Hrun & Hok' & Hdata & Hnew & _ & Hl0)].
  { unfold cache_uri in Hrun.
    rewrite (bind_inr _ _ _ _ _ (cache_uri_room_fit c n Hnn ltac:(lia) Hfit)) in Hrun.
    destruct Hok as [Hseg Hnd _ _ _].
    destruct (cache_uri_link_spec c l uri buf n Hseg Hnd Hn
                ltac:(pose proof MAX_CACHE_SIZE_small; lia) Hnn)
      as (a & c' & _ & Hlink & _). congruence. }
  rewrite (Hl0 Hfit) in El. simpl in El. subst l'.
  exists c'. split_and!; [done | by eexists | |].
  - rewrite (entries_ok c' _ Hok'), (entries_ok c l Hok), map_app. simpl.
    by rewrite (entries_agree _ _ l Hdata), (block_at_data_some _ _ _ Hnew).
  - rewrite (ok_total _ _ Hok'), (ok_total _ _ Hok), total_size_app. simpl.
    rewrite (total_size_data _ _ l Hdata).
    rewrite size_at_block.
    pose proof (block_at_data_some _ _ _ Hnew) as Hd. unfold data in Hd.
    simplify_eq. lia.
Qed.

Lemma pin_count_block c l a :
  cache_ok c l -> a ∈ l ->
  pin_count c (Some a) = Some (readReferenceCnt (block_at (heap c) a)).
Proof.
  intros Hok Hin. simpl. by rewrite (cache_ok_lookup c l a Hok Hin).
Qed.

(** A lookup that finds [url] first after the entries [e1] moves that entry
    to the end of the list and counts one more reference to it. *)
Lemma cache_find_entries_hit url c e1 o s k e2 :
  cache_wf c ->
  entries c = e1 ++ (url, o, s, k) :: e2 ->
  Forall (fun d => entry_key d <> url) e1 ->
  exists a c',
    cache_find url c = inr (Some a, c') /\
    cache_wf c' /\
    entries c' = e1 ++ e2 ++ [(url, o, s, int_wrap (k + 1))] /\
    cacheBlockTail c' = Some a /\
    pin_count c (Some a) = Some k /\
    pin_count c' (Some a) = Some (int_wrap (k + 1)) /\
    data <$> heap c' !! a = Some (url, o, s, int_wrap (k + 1)).
Proof.
  intros [l Hok] Hent Hkeys. rewrite (entries_ok c l Hok) in Hent.
  apply map_eq_app in Hent as (l1 & l2' & -> & Hl1 & Hl2').
  apply map_eq_cons in Hl2' as (a & l2 & -> & Ha & Hl2).
  assert (Hin : a ∈ l1 ++ a :: l2) by (apply elem_of_app; right; by left).
  pose proof (cache_ok_lookup c _ a Hok Hin) as Hlook.
  set (ba := block_at (heap c) a) in *.
  assert (Hba : cache_uri_key ba = url /\ cache_obj ba = o /\
                cache_obj_size ba = s /\ readReferenceCnt ba = k).
  { unfold data in Ha. by simplify_eq. }
  destruct Hba as (Hkey & Hobj & Hsize & Hcnt).
  destruct (cache_find_hit_ok url c l1 a l2 ba Hok) as (c' & Hrun & Hok' & Hdata);
    [|done..|].
  { apply Forall_forall. intros x Hx Hkx.
    rewrite Forall_forall in Hkeys. apply (Hkeys (data (block_at (heap c) x))).
    - rewrite <- Hl1.
      apply list_elem_of_In, (in_map (fun a => data (block_at (heap c) a))).
      by apply list_elem_of_In.
    - assert (Hxin : x ∈ l1 ++ a :: l2) by (apply elem_of_app; by left).
      unfold key_at in Hkx. rewrite (cache_ok_lookup c _ x Hok Hxin) in Hkx.
      simpl in Hkx. by injection Hkx. }
  pose proof (ok_nodup _ _ Hok) as Hnd.
  apply NoDup_app in Hnd as (_ & Hdisj & Hnd2).
  apply NoDup_cons in Hnd2 as (Ha2 & _).
  assert (Hother : forall x, x <> a ->
            data (block_at (heap c') x) = data (block_at (heap c) x)).
  { intros x Hx. apply block_at_data. rewrite <- Hdata.
    by rewrite lookup_insert_ne. }
  assert (Hself : data (block_at (heap c') a) = (url, o, s, int_wrap (k + 1))).
  { apply block_at_data_some. rewrite <- Hdata, lookup_insert_eq. simpl.
    unfold data. simpl. by rewrite Hkey, Hobj, Hsize, Hcnt. }
  assert (Hin' : a ∈ l1 ++ l2 ++ [a]).
  { rewrite !elem_of_app. right. right. by left. }
  exists a, c'. split_and!; [done | by eexists | | | | |].
  - rewrite (entries_ok c' _ Hok'), !map_app. simpl. rewrite Hself.
    f_equal; [|f_equal].
    + rewrite <- Hl1. apply map_ext_in. intros x Hx. apply Hother.
      intros ->. apply (Hdisj a); [by apply list_elem_of_In | by left].
    + rewrite <- Hl2. apply map_ext_in. intros x Hx. apply Hother.
      intros ->. by apply Ha2, list_elem_of_In.
  - destruct Hok' as [Hseg' _ _ _ _].
    rewrite app_assoc in Hseg'. by apply dlseg_last in Hseg'.
  - rewrite (pin_count_block c _ a Hok Hin). by f_equal.
  - rewrite (pin_count_block c' _ a Hok' Hin').
    unfold data in Hself. f_equal. congruence.
  - rewrite (cache_ok_lookup c' _ a Hok' Hin'). simpl. by rewrite Hself.
Qed.

(** A lookup of a URL that no entry has changes nothing. *)
Lemma cache_find_entries_miss url c :
  cache_wf c ->
  Forall (fun d => entry_key d <> url) (entries c) ->
  cache_find url c = inr (None, c).
Proof.
  intros [l Hok] Hkeys. eapply cache_find_miss; [done|].
  rewrite (entries_ok c l Hok), Forall_map in Hkeys.
  apply Forall_forall. intros x Hx Hkx.
  rewrite Forall_forall in Hkeys. apply (Hkeys x Hx).
  unfold key_at in Hkx. rewrite (cache_ok_lookup c l x Hok Hx) in Hkx.
  simpl in Hkx. by injection Hkx.
Qed.

(** An insertion either spins on an entry in use, or drops entries [e0]
    from the head, none of them in use, and appends the new entry. *)
Lemma cache_uri_entries c uri buf n :
  cache_wf c -> 0 <= n <= Z.of_nat (length buf) -> n <= MAX_CACHE_SIZE ->
  (cache_uri uri buf n c = inl BusyWait /\ ~ all_unpinned c) \/
  exists c' e0 e',
    entries c = e0 ++ e' /\
    cache_uri uri buf n c = inr (tt, c') /\
    cache_wf c' /\
    entries c' = e' ++ [(uri, take (Z.to_nat n) buf, n, 0)] /\
    Forall (fun d => d.2 = 0) e0.
Proof.
  intros [l Hok] Hn Hcap.
  destruct (cache_uri_spec c l uri buf n Hok Hn Hcap)
    as [[Hrun Hpin] | (c' & a & l0 & l' & -> & Hrun & Hok' & Hdata & Hnew & Hun & _)].
  { left. split; [done|]. by rewrite (all_unpinned_ok c l Hok). }
  right.
  exists c', (map (fun a => data (block_at (heap c) a)) l0),
         (map (fun a => data (block_at (heap c) a)) l').
  split_and!; [| done | by eexists | |].
  - by rewrite (entries_ok c _ Hok), map_app.
  - rewrite (entries_ok c' _ Hok'), map_app. simpl.
    by rewrite (entries_agree _ _ l' Hdata), (block_at_data_some _ _ _ Hnew).
  - apply Forall_map. eapply Forall_impl; [exact Hun|].
    intros x Hx. simpl. by rewrite <- cnt_at_block.
Qed.

Lemma first_occurrence (l : list (string * list byte * Z * Z)) url :
  url ∈ map entry_key l ->
  exists e1 d e2,
    l = e1 ++ d :: e2 /\ entry_key d = url /\
    Forall (fun d' => entry_key d' <> url) e1.
Proof.
  induction l as [|d l IH]; intros Hin; [by apply elem_of_nil in Hin|].
  destruct (String.string_dec (entry_key d) url) as [Hd|Hd].
  - exists [], d, l. split_and!; [done.. | constructor].
  - simpl in Hin. apply elem_of_cons in Hin as [Hin|Hin]; [done|].
    destruct (IH Hin) as (e1 & d' & e2 & -> & Hk & Hall).
    exists (d :: e1), d', e2. split_and!; [done..|]. by constructor.
Qed.

(** * Properties of the cache *)

(** ** Insertion and the size cap *)

Lemma cache_uri_unfold c uri b n :
  0 <= cache_size c <= MAX_CACHE_SIZE -> 0 <= n <= MAX_CACHE_SIZE ->
  cache_uri uri b n c =
  if MAX_CACHE_SIZE <? cache_size c + n
  then bind (cache_eviction (cache_size c + n - MAX_CACHE_SIZE))
            (fun _ => cache_uri_link uri b n) c
  else cache_uri_link uri b n c.
Proof.
  intros Hc Hn. pose proof MAX_CACHE_SIZE_small as Hsmall.
  unfold cache_uri, cache_uri_room. pure.
  rewrite (size_wrap_small (cache_size c + n)) by lia.
  destruct (Z.ltb_spec MAX_CACHE_SIZE (cache_size c + n)) as [Hbig|Hfit].
  - pure. rewrite (size_wrap_small (cache_size c + n)) by lia.
    rewrite size_wrap_small by lia. unfold bind.
    by destruct (cache_eviction _ c) as [e|[d c']].
  - by pure.
Qed.

(** C6.  Inserting a body [b] of at most [MAX_OBJECT_SIZE] bytes into a well
    formed cache (its size field is the sum of the sizes of its blocks and is
    at most [MAX_CACHE_SIZE]) none of whose blocks is in use: when the body
    does not fit, [cache_eviction] is called first, with exactly
    [cache_size + len b - MAX_CACHE_SIZE]; the insertion returns, and then the
    size field is at most [MAX_CACHE_SIZE] and equals the sum of the sizes of
    the blocks present. *)
Theorem cache_uri_keeps_cap (c : Cache) (uri : string) (b : list byte) :
  cache_wf c -> all_unpinned c ->
  Z.of_nat (length b) <= MAX_OBJECT_SIZE ->
  let n := Z.of_nat (length b) in
  cache_uri uri b n c =
    (if MAX_CACHE_SIZE <? cache_size c + n
     then bind (cache_eviction (cache_size c + n - MAX_CACHE_SIZE))
               (fun _ => cache_uri_link uri b n) c
     else cache_uri_link uri b n c) /\
  exists c',
    cache_uri uri b n c = inr (tt, c') /\
    cache_wf c' /\
    cache_size c' <= MAX_CACHE_SIZE /\
    cache_size c' = printed_total c'.
Proof.
  intros [l Hok] Hun Hlen n.
  assert (Hobj : MAX_OBJECT_SIZE <= MAX_CACHE_SIZE) by done.
  split.
  - apply cache_uri_unfold; [|lia].
    split; [by eapply cache_ok_size_nonneg | by destruct Hok].
  - apply (all_unpinned_ok c l Hok) in Hun.
    destruct (cache_uri_spec c l uri b n Hok ltac:(lia) ltac:(lia))
      as [[_ Hpin] | (c' & a & l0 & l' & _ & Hrun & Hok' & _)]; [done|].
    exists c'. split_and!; [done | by eexists | by destruct Hok' |].
    symmetry. by eapply printed_total_ok.
Qed.

Lemma ten_objects_printed :
  map snd (cachePrint ten_objects)
  = ["u1"; "u2"; "u3"; "u4"; "u5"; "u6"; "u7"; "u8"; "u9"; "u10"]%string
  /\ cache_size ten_objects = 10 * MAX_OBJECT_SIZE.
Proof. split; vm_compute; reflexivity. Qed.

Lemma cache_uri_keeps_cap_witness :
  cache_wf ten_objects /\ all_unpinned ten_objects /\
  Z.of_nat (length object_100k) <= MAX_OBJECT_SIZE /\
  exists c',
    cache_uri "u11" object_100k (Z.of_nat (length object_100k)) ten_objects
    = inr (tt, c') /\
    cache_wf c' /\ cache_size c' <= MAX_CACHE_SIZE /\
    cache_size c' = printed_total c'.
Proof.
  assert (H1 : cache_wf ten_objects).
  { apply cache_okb_wf. vm_compute. reflexivity. }
  assert (H2 : all_unpinned ten_objects).
  { unfold all_unpinned.
    refine (bool_decide_eq_true_1 (Forall _ _) _). vm_compute. reflexivity. }
  assert (H3 : Z.of_nat (length object_100k) <= MAX_OBJECT_SIZE).
  { apply Z.leb_le. vm_compute. reflexivity. }
  split_and!; [done..|].
  exact (proj2 (cache_uri_keeps_cap ten_objects "u11" object_100k H1 H2 H3)).
Defined.

(** ** Recency order *)

Lemma cache_init_wf : cache_wf cache_init.
Proof. exists []. apply cache_init_ok. Qed.

Lemma entries_cache_init : entries cache_init = [].
Proof. by rewrite (entries_ok cache_init [] cache_init_ok). Qed.

Lemma take_whole (b : list byte) : take (Z.to_nat (Z.of_nat (length b))) b = b.
Proof. rewrite Nat2Z.id. by apply firstn_all. Qed.

(** C7.  From the empty cache, inserting A, then B, then C, none of which
    needs an eviction (together they fit under [MAX_CACHE_SIZE]), leaves the
    URLs in the order A, B, C from the head.  A lookup of A then returns a
    handle to A's block, makes the order B, C, A with that block the tail, and
    raises its count of references from 0 to 1. *)
Theorem lru_order_law (A B C : string) (bA bB bC : list byte) :
  Z.of_nat (length bA) + Z.of_nat (length bB) + Z.of_nat (length bC)
    <= MAX_CACHE_SIZE ->
  exists c3 h c4,
    (cache_uri A bA (Z.of_nat (length bA)) ;;;
     cache_uri B bB (Z.of_nat (length bB)) ;;;
     cache_uri C bC (Z.of_nat (length bC))) cache_init = inr (tt, c3) /\
    cache_uris c3 = [A; B; C] /\
    cache_find A c3 = inr (Some h, c4) /\
    cache_uris c4 = [B; C; A] /\
    cacheBlockTail c4 = Some h /\
    pin_count c3 (Some h) = Some 0 /\
    pin_count c4 (Some h) = Some 1.
Proof.
  intros Hfit.
  destruct (cache_uri_fit cache_init A bA (Z.of_nat (length bA)) cache_init_wf)
    as (c1 & Hrun1 & Hwf1 & Hent1 & Hsz1); [lia | simpl; lia |].
  destruct (cache_uri_fit c1 B bB (Z.of_nat (length bB)) Hwf1)
    as (c2 & Hrun2 & Hwf2 & Hent2 & Hsz2); [lia | simpl in Hsz1; lia |].
  destruct (cache_uri_fit c2 C bC (Z.of_nat (length bC)) Hwf2)
    as (c3 & Hrun3 & Hwf3 & Hent3 & Hsz3); [lia | simpl in Hsz1; lia |].
  rewrite Hent2, Hent1, entries_cache_init, !take_whole in Hent3. simpl in Hent3.
  destruct (cache_find_entries_hit A c3 [] bA (Z.of_nat (length bA)) 0
              [(B, bB, Z.of_nat (length bB), 0); (C, bC, Z.of_nat (length bC), 0)]
              Hwf3 Hent3 ltac:(constructor))
    as (h & c4 & Hfind & Hwf4 & Hent4 & Htail & Hpin3 & Hpin4 & _).
  exists c3, h, c4. split_and!; try done.
  - rewrite (bind_inr _ _ _ _ _ Hrun1), (bind_inr _ _ _ _ _ Hrun2). done.
  - by rewrite cache_uris_entries, Hent3.
  - by rewrite cache_uris_entries, Hent4.
Qed.

Lemma lru_order_law_witness :
  Z.of_nat (length [x41]) + Z.of_nat (length [x42; x42])
    + Z.of_nat (length [x43; x43; x43]) <= MAX_CACHE_SIZE /\
  exists c3 h c4,
    (cache_uri "A" [x41] 1 ;;; cache_uri "B" [x42; x42] 2 ;;;
     cache_uri "C" [x43; x43; x43] 3)%string cache_init = inr (tt, c3) /\
    cache_uris c3 = ["A"; "B"; "C"]%string /\
    cache_find "A" c3 = inr (Some h, c4) /\
    cache_uris c4 = ["B"; "C"; "A"]%string /\
    cacheBlockTail c4 = Some h /\
    pin_count c3 (Some h) = Some 0 /\
    pin_count c4 (Some h) = Some 1.
Proof.
  assert (H : Z.of_nat (length [x41]) + Z.of_nat (length [x42; x42])
              + Z.of_nat (length [x43; x43; x43]) <= MAX_CACHE_SIZE)
    by (vm_compute; discriminate).
  split; [exact H|].
  exact (lru_order_law "A" "B" "C" [x41] [x42; x42] [x43; x43; x43] H).
Defined.

(** ** One entry per URL *)

(** [cache_uri] does not look for the URL: the cache holds one entry for A,
    and [cache_uri] of A returns with a second entry for A. *)
Lemma cache_uri_present_duplicates :
  cache_wf cache_with_A /\
  cache_uris cache_with_A = ["A"%string] /\
  exists c2,
    cache_uri "A" [x41] 1 cache_with_A = inr (tt, c2) /\
    cache_uris c2 = ["A"; "A"]%string /\
    ~ NoDup (cache_uris c2).
Proof.
  split; [apply cache_okb_wf; by vm_compute|].
  split; [by vm_compute|].
  exists (after (cache_uri "A" [x41] 1) cache_with_A).
  assert (H : cache_uris (after (cache_uri "A" [x41] 1) cache_with_A)
              = ["A"; "A"]%string) by by vm_compute.
  split_and!; [by vm_compute | done |].
  rewrite H. intros Hnd. apply NoDup_cons in Hnd as [Hin _].
  apply Hin. by left.
Qed.

(** The worker looks for the URL, in [store_response], and calls
    [cache_uri] on a miss only.
    With no other worker at work between that lookup and the insert: on a
    well formed cache whose URLs are pairwise distinct, the step either spins
    in the eviction on an entry in use, or returns a well formed cache whose
    URLs are pairwise distinct; when the URL is present the URLs after are the
    URLs before, reordered; and the step returns when no entry is in use. *)
Lemma store_response_keeps_uris_unique (c : Cache) (uri : string)
    (sizebuf : Z) (buf : list byte) :
  cache_wf c -> NoDup (cache_uris c) ->
  0 <= sizebuf <= Z.of_nat (length buf) ->
  ((exists c',
      store_response uri sizebuf buf id c = inr (tt, c') /\
      cache_wf c' /\ NoDup (cache_uris c') /\
      (uri ∈ cache_uris c -> cache_uris c' ≡ₚ cache_uris c))
   \/ (store_response uri sizebuf buf id c = inl BusyWait /\ ~ all_unpinned c))
  /\ (all_unpinned c ->
      exists c', store_response uri sizebuf buf id c = inr (tt, c')).
Proof.
  intros Hwf Hnd Hsz.
  assert (Hmain :
    (exists c',
      store_response uri sizebuf buf id c = inr (tt, c') /\
      cache_wf c' /\ NoDup (cache_uris c') /\
      (uri ∈ cache_uris c -> cache_uris c' ≡ₚ cache_uris c))
    \/ (store_response uri sizebuf buf id c = inl BusyWait /\ ~ all_unpinned c)).
  { unfold store_response.
    destruct (Z.ltb_spec sizebuf MAX_OBJECT_SIZE) as [Hsmall|Hbig].
    2:{ left. exists c. by split_and!. }
    rewrite cache_uris_entries in *.
    destruct (decide (uri ∈ map entry_key (entries c))) as [Hin|Hout].
    - destruct (first_occurrence _ _ Hin) as (e1 & [[[u o] s] k] & e2 & Hent & Hk & Hall).
      unfold entry_key in Hk. simpl in Hk. subst u.
      destruct (cache_find_entries_hit uri c e1 o s k e2 Hwf Hent Hall)
        as (a & c' & Hfind & Hwf' & Hent' & _).
      left. exists c'. rewrite (bind_inr _ _ _ _ _ Hfind). simpl.
      assert (Hperm : map entry_key (entries c') ≡ₚ map entry_key (entries c)).
      { rewrite Hent', Hent, !map_app. simpl.
        change (entry_key (uri, o, s, int_wrap (k + 1))) with uri.
        change (entry_key (uri, o, s, k)) with uri.
        apply Permutation_app_head. symmetry. apply Permutation_cons_append. }
      split_and!; try done.
      + rewrite cache_uris_entries. by rewrite Hperm.
      + intros _. by rewrite cache_uris_entries.
    - assert (Hmiss : Forall (fun d => entry_key d <> uri) (entries c)).
      { apply Forall_forall. intros d Hd Hk. apply Hout. rewrite <- Hk.
        apply list_elem_of_In, in_map. by apply list_elem_of_In. }
      rewrite (bind_inr _ _ _ _ _ (cache_find_entries_miss uri c Hwf Hmiss)).
      simpl. unfold interleave, bind at 1. simpl.
      assert (Hcap : sizebuf <= MAX_CACHE_SIZE).
      { assert (MAX_OBJECT_SIZE <= MAX_CACHE_SIZE) by done. lia. }
      destruct (cache_uri_entries c uri buf sizebuf Hwf Hsz Hcap)
        as [[Hrun Hpin] | (c' & e0 & e' & Hent & Hrun & Hwf' & Hent' & _)];
        [by right | left].
      exists c'. split_and!; try done.
      rewrite cache_uris_entries, Hent', map_app. simpl.
      rewrite Hent, map_app in Hnd, Hout.
      apply NoDup_app in Hnd as (_ & _ & Hnd').
      apply NoDup_app. split_and!; [done | | apply NoDup_singleton].
      intros x Hx Hxu. apply list_elem_of_singleton in Hxu as ->.
      apply Hout. apply elem_of_app. by right. }
  split; [exact Hmain|]. intros Hun.
  destruct Hmain as [(c' & Hrun & _) | [_ Hpin]]; [by exists c' | done].
Qed.

Lemma store_response_keeps_uris_unique_witness :
  cache_wf cache_with_A /\ NoDup (cache_uris cache_with_A) /\
  0 <= 1 <= Z.of_nat (length [x41]) /\
  ((exists c',
      store_response "A" 1 [x41] id cache_with_A = inr (tt, c') /\
      cache_wf c' /\ NoDup (cache_uris c') /\
      ("A"%string ∈ cache_uris cache_with_A ->
       cache_uris c' ≡ₚ cache_uris cache_with_A))
   \/ (store_response "A" 1 [x41] id cache_with_A = inl BusyWait /\
       ~ all_unpinned cache_with_A))
  /\ (all_unpinned cache_with_A ->
      exists c', store_response "A" 1 [x41] id cache_with_A = inr (tt, c')).
Proof.
  assert (H1 : cache_wf cache_with_A) by (apply cache_okb_wf; by vm_compute).
  assert (H2 : NoDup (cache_uris cache_with_A)).
  { refine (bool_decide_eq_true_1 (NoDup _) _). by vm_compute. }
  assert (H3 : 0 <= 1 <= Z.of_nat (length [x41])) by (simpl; lia).
  split_and!; [done..| |];
    apply (store_response_keeps_uris_unique cache_with_A "A" 1 [x41] H1 H2 H3).
Defined.

(** ** Handles *)

Lemma release_handle_run c a b :
  heap c !! a = Some b ->
  release_handle (Some a) c =
  inr (tt, mk_cache (<[a := with_cnt (int_wrap (readReferenceCnt b - 1)) b]> (heap c))
             (cacheBlockHead c) (cacheBlockTail c) (cache_size c)).
Proof.
  intros Hb. unfold release_handle, store_cnt. step Hb. by step Hb.
Qed.

(** C5, counterexample.  The one block of [cache_with_A] has no reference;
    giving back a handle to it does not fail: it returns, and the count is
    then -1. *)
Lemma release_unpinned_goes_negative :
  pin_count cache_with_A (Some 1%positive) = Some 0 /\
  exists c',
    release_handle (Some 1%positive) cache_with_A = inr (tt, c') /\
    pin_count c' (Some 1%positive) = Some (-1).
Proof.
  split; [by vm_compute|].
  exists (after (release_handle (Some 1%positive)) cache_with_A).
  split; by vm_compute.
Qed.

(** C5, as the code has it.  Giving a handle back never fails on a block
    that exists: whatever the count [k] of the block (above [INT_MIN]), zero
    included, it returns and the count is then [k - 1]; nothing else in the
    cache changes. *)
Theorem release_handle_decrements (c : Cache) (a : addr) (b : cache_block) :
  heap c !! a = Some b ->
  - 2 ^ 31 < readReferenceCnt b < 2 ^ 31 ->
  exists c',
    release_handle (Some a) c = inr (tt, c') /\
    pin_count c' (Some a) = Some (readReferenceCnt b - 1) /\
    heap c' = <[a := with_cnt (readReferenceCnt b - 1) b]> (heap c) /\
    cacheBlockHead c' = cacheBlockHead c /\
    cacheBlockTail c' = cacheBlockTail c /\
    cache_size c' = cache_size c.
Proof.
  intros Hb Hk. eexists. split; [by apply release_handle_run|].
  rewrite int_wrap_small by lia. simpl. by rewrite lookup_insert_eq.
Qed.

Lemma release_handle_decrements_witness :
  heap cache_with_A !! 1%positive
    = Some (mk_block [x41] 1 "A" 0 None None) /\
  - 2 ^ 31 < 0 < 2 ^ 31 /\
  exists c',
    release_handle (Some 1%positive) cache_with_A = inr (tt, c') /\
    pin_count c' (Some 1%positive) = Some (0 - 1) /\
    heap c' = <[1%positive := with_cnt (0 - 1) (mk_block [x41] 1 "A" 0 None None)]>
                (heap cache_with_A) /\
    cacheBlockHead c' = cacheBlockHead cache_with_A /\
    cacheBlockTail c' = cacheBlockTail cache_with_A /\
    cache_size c' = cache_size cache_with_A.
Proof.
  assert (H1 : heap cache_with_A !! 1%positive
               = Some (mk_block [x41] 1 "A" 0 None None)) by by vm_compute.
  assert (H2 : - 2 ^ 31 < 0 < 2 ^ 31) by lia.
  split_and!; [done..|].
  exact (release_handle_decrements cache_with_A 1%positive _ H1 H2).
Defined.

(** The path of a hit at the probe (lines 227 to 237) gives the handle
    back: the object is sent and the count is what it was. *)
Lemma probe_hit_gives_handle_back (c : Cache) (uri : string) e1 o s k e2 :
  cache_wf c ->
  entries c = e1 ++ (uri, o, s, k) :: e2 ->
  Forall (fun d => entry_key d <> uri) e1 ->
  0 <= s <= Z.of_nat (length o) -> - 2 ^ 31 <= k < 2 ^ 31 - 1 ->
  exists a c1 c2,
    cache_find uri c = inr (Some a, c1) /\
    serve_hit (Some a) c1 = inr (take (Z.to_nat s) o, c2) /\
    pin_count c (Some a) = Some k /\
    pin_count c1 (Some a) = Some (k + 1) /\
    pin_count c2 (Some a) = Some k.
Proof.
  intros Hwf Hent Hall Hs Hk.
  destruct (cache_find_entries_hit uri c e1 o s k e2 Hwf Hent Hall)
    as (a & c1 & Hfind & _ & _ & _ & Hpin & Hpin1 & Hdata).
  rewrite int_wrap_small in Hpin1, Hdata by lia.
  destruct (heap c1 !! a) as [b|] eqn:Hb; [|done].
  unfold data in Hdata. simpl in Hdata. simplify_eq.
  exists a, c1. eexists. split_and!; [done | | done..|].
  - unfold serve_hit. step Hb. unfold memcpy_from.
    destruct (Z.ltb_spec (Z.of_nat (length (cache_obj b))) (cache_obj_size b));
      [lia|].
    pure. by rewrite (bind_inr _ _ _ _ _ (release_handle_run c1 a b Hb)).
  - simpl. rewrite lookup_insert_eq. simpl. rewrite int_wrap_small by lia.
    f_equal. lia.
Qed.

(** C1.  In [store_response], when the response is small enough and the
    lookup finds the URL, nothing gives the handle back: the step returns
    with the count of the block found one higher than before. *)
Theorem store_response_leaks_handle (c : Cache) (uri : string)
    (sizebuf : Z) (buf : list byte) (others : Cache -> Cache) :
  cache_wf c -> uri ∈ cache_uris c -> sizebuf < MAX_OBJECT_SIZE ->
  exists a k c1 c',
    cache_find uri c = inr (Some a, c1) /\
    store_response uri sizebuf buf others c = inr (tt, c') /\
    c' = c1 /\
    pin_count c (Some a) = Some k /\
    pin_count c' (Some a) = Some (int_wrap (k + 1)).
Proof.
  intros Hwf Hin Hsmall. rewrite cache_uris_entries in Hin.
  destruct (first_occurrence _ _ Hin) as (e1 & [[[u o] s] k] & e2 & Hent & Hk & Hall).
  unfold entry_key in Hk. simpl in Hk. subst u.
  destruct (cache_find_entries_hit uri c e1 o s k e2 Hwf Hent Hall)
    as (a & c' & Hfind & _ & _ & _ & Hpin & Hpin' & _).
  exists a, k, c', c'. split_and!; try done.
  unfold store_response.
  destruct (Z.ltb_spec sizebuf MAX_OBJECT_SIZE); [|lia].
  by rewrite (bind_inr _ _ _ _ _ Hfind).
Qed.

Lemma store_response_leaks_handle_witness :
  cache_wf cache_with_A /\ "A"%string ∈ cache_uris cache_with_A /\
  1 < MAX_OBJECT_SIZE /\
  exists a k c1 c',
    cache_find "A" cache_with_A = inr (Some a, c1) /\
    store_response "A" 1 [x41] id cache_with_A = inr (tt, c') /\
    c' = c1 /\
    pin_count cache_with_A (Some a) = Some k /\
    pin_count c' (Some a) = Some (int_wrap (k + 1)).
Proof.
  assert (H1 : cache_wf cache_with_A) by (apply cache_okb_wf; by vm_compute).
  assert (H2 : "A"%string ∈ cache_uris cache_with_A).
  { refine (bool_decide_eq_true_1 (_ ∈ _) _). by vm_compute. }
  assert (H3 : 1 < MAX_OBJECT_SIZE) by done.
  split_and!; [done..|].
  exact (store_response_leaks_handle cache_with_A "A" 1 [x41] id H1 H2 H3).
Defined.

(** * Verification of the relay *)

Lemma total_length_nonneg chunks : 0 <= total_length chunks.
Proof. induction chunks as [|ch chunks IH]; simpl; lia. Qed.

Lemma MAX_OBJECT_SIZE_small : MAX_OBJECT_SIZE < 2 ^ 64.
Proof. done. Qed.

Lemma relay_loop_cons ch chunks sizebuf buf :
  relay_loop (ch :: chunks) sizebuf buf =
  if Z.of_nat (length ch) =? 0 then ([], inr (sizebuf, buf))
  else
    match (if sizebuf <? MAX_OBJECT_SIZE
           then memcpy_at MAX_OBJECT_SIZE buf sizebuf ch
           else inr buf) with
    | inl f => ([], inl f)
    | inr buf' =>
      let (evs, r) :=
        relay_loop chunks (size_wrap (sizebuf + Z.of_nat (length ch))) buf' in
      (ClientWrite RelayedChunk ch :: evs, r)
    end.
Proof. reflexivity. Qed.

(** While everything read fits, every chunk is sent on and copied, and the
    count is the number of bytes read. *)
Lemma relay_loop_fits chunks : forall sizebuf buf,
  Forall (fun ch => ch <> []) chunks ->
  sizebuf = Z.of_nat (length buf) ->
  sizebuf + total_length chunks <= MAX_OBJECT_SIZE ->
  relay_loop chunks sizebuf buf =
  (map (ClientWrite RelayedChunk) chunks,
   inr (sizebuf + total_length chunks, buf ++ concat chunks)).
Proof.
  pose proof MAX_OBJECT_SIZE_small as Hsmall.
  induction chunks as [|ch chunks IH]; intros sizebuf buf Hne Hlen Hfit.
  - simpl. by rewrite Z.add_0_r, app_nil_r.
  - apply Forall_cons in Hne as [Hch Hne]. rewrite relay_loop_cons.
    simpl in Hfit |- *.
    pose proof (total_length_nonneg chunks) as Hnn.
    assert (Hpos : 0 < Z.of_nat (length ch)) by (destruct ch; [done | simpl; lia]).
    destruct (Z.eqb_spec (Z.of_nat (length ch)) 0) as [|_]; [lia|].
    destruct (Z.ltb_spec sizebuf MAX_OBJECT_SIZE) as [_|]; [|lia].
    unfold memcpy_at.
    destruct (Z.ltb_spec MAX_OBJECT_SIZE (sizebuf + Z.of_nat (length ch)))
      as [|_]; [lia|].
    rewrite size_wrap_small by lia.
    rewrite Hlen, Nat2Z.id, firstn_all.
    rewrite (IH _ (buf ++ ch)); [| done | rewrite length_app; lia | lia].
    rewrite <- Hlen, <- app_assoc, Z.add_assoc. done.
Qed.

(** A chunk that starts below the end of the array and ends past it is
    copied all the same. *)
Lemma relay_loop_overflow ch rest sizebuf buf :
  ch <> [] -> sizebuf < MAX_OBJECT_SIZE ->
  MAX_OBJECT_SIZE < sizebuf + Z.of_nat (length ch) ->
  relay_loop (ch :: rest) sizebuf buf = ([], inl OutOfBounds).
Proof.
  intros Hch Hlt Hover. rewrite relay_loop_cons.
  assert (Hpos : 0 < Z.of_nat (length ch)) by (destruct ch; [done | simpl; lia]).
  destruct (Z.eqb_spec (Z.of_nat (length ch)) 0) as [|_]; [lia|].
  destruct (Z.ltb_spec sizebuf MAX_OBJECT_SIZE) as [_|]; [|lia].
  unfold memcpy_at.
  by destruct (Z.ltb_spec MAX_OBJECT_SIZE (sizebuf + Z.of_nat (length ch)));
    [|lia].
Qed.

(** Once the count has reached the size of the array nothing more is
    copied, and the count goes on. *)
Lemma relay_loop_past_cap chunks : forall sizebuf buf,
  Forall (fun ch => ch <> []) chunks ->
  MAX_OBJECT_SIZE <= sizebuf -> sizebuf + total_length chunks < 2 ^ 64 ->
  relay_loop chunks sizebuf buf =
  (map (ClientWrite RelayedChunk) chunks,
   inr (sizebuf + total_length chunks, buf)).
Proof.
  induction chunks as [|ch chunks IH]; intros sizebuf buf Hne Hge Hov.
  - simpl. by rewrite Z.add_0_r.
  - apply Forall_cons in Hne as [Hch Hne]. rewrite relay_loop_cons.
    simpl in Hov |- *.
    pose proof (total_length_nonneg chunks) as Hnn.
    assert (Hpos : 0 < Z.of_nat (length ch)) by (destruct ch; [done | simpl; lia]).
    destruct (Z.eqb_spec (Z.of_nat (length ch)) 0) as [|_]; [lia|].
    destruct (Z.ltb_spec sizebuf MAX_OBJECT_SIZE) as [|_]; [lia|].
    assert (0 <= MAX_OBJECT_SIZE) by done.
    rewrite size_wrap_small by lia.
    rewrite IH; [| done | lia | lia]. f_equal. f_equal. f_equal. lia.
Qed.

(** C3.  An origin sends one byte more than [MAX_OBJECT_SIZE].  Read in
    buffers of 8192 bytes, that is twelve full chunks and one of 4097 bytes;
    the last is copied at offset 98304 of the array of 102400 bytes, past its
    end. *)
Theorem relay_overflows_candidate_buffer :
  map (fun ch => Z.of_nat (length ch)) (origin_sends (MAX_OBJECT_SIZE + 1))
  = [8192; 8192; 8192; 8192; 8192; 8192; 8192; 8192; 8192; 8192; 8192; 8192;
     4097] /\
  total_length (origin_sends (MAX_OBJECT_SIZE + 1)) = MAX_OBJECT_SIZE + 1 /\
  snd (relay_loop (origin_sends (MAX_OBJECT_SIZE + 1)) 0 []) = inl OutOfBounds.
Proof. split_and!; by vm_compute. Qed.

(** C2.  When the chunks read add up to exactly [MAX_OBJECT_SIZE] bytes, the
    relay sends them all on and has them all in the array, and then
    [store_response] leaves the cache as it is: the object is not
    inserted. *)
Theorem exact_max_object_not_cached (chunks : list (list byte))
    (uri : string) (c : Cache) :
  Forall (fun ch => ch <> []) chunks ->
  total_length chunks = MAX_OBJECT_SIZE ->
  relay_loop chunks 0 [] =
    (map (ClientWrite RelayedChunk) chunks,
     inr (MAX_OBJECT_SIZE, concat chunks)) /\
  forall others,
    store_response uri MAX_OBJECT_SIZE (concat chunks) others c = inr (tt, c).
Proof.
  intros Hne Htot. split; [|done].
  rewrite (relay_loop_fits chunks 0 [] Hne); [| done | lia].
  by rewrite Htot.
Qed.

Lemma exact_max_object_not_cached_witness :
  Forall (fun ch => ch <> []) (origin_sends MAX_OBJECT_SIZE) /\
  total_length (origin_sends MAX_OBJECT_SIZE) = MAX_OBJECT_SIZE /\
  relay_loop (origin_sends MAX_OBJECT_SIZE) 0 [] =
    (map (ClientWrite RelayedChunk) (origin_sends MAX_OBJECT_SIZE),
     inr (MAX_OBJECT_SIZE, concat (origin_sends MAX_OBJECT_SIZE))) /\
  forall others,
    store_response "http://h/x" MAX_OBJECT_SIZE
      (concat (origin_sends MAX_OBJECT_SIZE)) others cache_init
    = inr (tt, cache_init).
Proof.
  assert (H1 : Forall (fun ch => ch <> []) (origin_sends MAX_OBJECT_SIZE)).
  { refine (bool_decide_eq_true_1 (Forall _ _) _). by vm_compute. }
  assert (H2 : total_length (origin_sends MAX_OBJECT_SIZE) = MAX_OBJECT_SIZE)
    by by vm_compute.
  split_and!; [done..| |];
    apply (exact_max_object_not_cached _ "http://h/x" cache_init H1 H2).
Defined.

(** * Verification of the request for the origin *)

Local Open Scope string_scope.

Lemma append_empty_r (s : string) : s ++ "" = s.
Proof.
  induction s as [|ch s IH]; [done|].
  change (String ch (s ++ "") = String ch s). by rewrite IH.
Qed.

Lemma append_assoc3 (s1 s2 s3 : string) : (s1 ++ s2) ++ s3 = s1 ++ s2 ++ s3.
Proof.
  induction s1 as [|ch s1 IH]; [done|].
  change (String ch ((s1 ++ s2) ++ s3) = String ch (s1 ++ s2 ++ s3)).
  by rewrite IH.
Qed.

Lemma last_cons_default {A} (x : A) (l : list A) (d : A) :
  default d (last (x :: l)) = default x (last l).
Proof.
  revert x d. induction l as [|y l IH]; intros x d; [done|].
  change (last (x :: y :: l)) with (last (y :: l)).
  by rewrite (IH y d), (IH y x).
Qed.

Lemma strlen_append (s1 s2 : string) : strlen (s1 ++ s2) = (strlen s1 + strlen s2)%Z.
Proof.
  unfold strlen. rewrite <- Nat2Z.inj_add. f_equal.
  induction s1 as [|ch s1 IH]; [done|].
  change (S (String.length (s1 ++ s2)) = S (String.length s1 + String.length s2)).
  by rewrite IH.
Qed.

Lemma strlen_nonneg (s : string) : (0 <= strlen s)%Z.
Proof. unfold strlen. lia. Qed.

Lemma into_array_fits MAXLINE s :
  (strlen s < MAXLINE)%Z -> into_array MAXLINE s = inr s.
Proof.
  intros H. unfold into_array.
  by destruct (Z.leb_spec MAXLINE (strlen s)); [lia|].
Qed.

(** The loop on lines that fit the arrays: the Host header is the last line
    that names Host, and the other headers kept are put after what
    [other_hdr] held. *)
Lemma create_server_http_request_loop_spec MAXLINE lines :
  forall host_hdr other_hdr,
  Forall (fun l => (strlen l < MAXLINE)%Z) lines ->
  (strlen (other_hdr
           ++ flatten (List.filter names_no_key (headers_before_blank lines)))
   < MAXLINE)%Z ->
  create_server_http_request_loop MAXLINE lines host_hdr other_hdr =
  inr (default host_hdr
         (last (List.filter names_host (headers_before_blank lines))),
       other_hdr
       ++ flatten (List.filter names_no_key (headers_before_blank lines))).
Proof.
  induction lines as [|l lines IH]; intros host_hdr other_hdr Hlines Hfit; simpl.
  - by rewrite append_empty_r.
  - apply Forall_cons in Hlines as [Hl Hlines]. simpl in Hfit.
    unfold endof_hdr. destruct (String.eqb l CRLF); simpl.
    { by rewrite append_empty_r. }
    simpl in Hfit.
    unfold host_key, connection_key, proxy_connection_key, user_agent_key,
      names_host, names_no_key in *.
    destruct (strstr l "Host") eqn:Hhost.
    + rewrite andb_false_r in Hfit |- *. simpl in Hfit |- *.
      rewrite (into_array_fits _ _ Hl). simpl.
      rewrite IH by done. by rewrite last_cons_default.
    + rewrite andb_true_r in Hfit |- *.
      destruct (negb (strstr l "Connection") && negb (strstr l "Proxy-Connection")
                && negb (strstr l "User-Agent")); simpl in Hfit |- *.
      * rewrite <- append_assoc3 in Hfit.
        rewrite into_array_fits.
        2:{ rewrite strlen_append in Hfit.
            pose proof (strlen_nonneg (flatten (List.filter
              (fun l0 => negb (strstr l0 "Connection")
                         && negb (strstr l0 "Proxy-Connection")
                         && negb (strstr l0 "User-Agent")
                         && negb (strstr l0 "Host"))
              (headers_before_blank lines)))). lia. }
        simpl. rewrite IH by done. by rewrite append_assoc3.
      * by rewrite IH.
Qed.

Lemma names_host_nonempty l : names_host l = true -> strlen l <> 0%Z.
Proof. destruct l; [done|]. intros _. unfold strlen. simpl. lia. Qed.

(** With both arrays empty on entry, and lines and a request that fit the
    arrays, the request is built and is the one specified. *)
Lemma create_server_http_request_clean MAXLINE hostname path port lines :
  Forall (fun l => (strlen l < MAXLINE)%Z) lines ->
  (strlen (upstream_request_spec hostname path lines) < MAXLINE)%Z ->
  create_server_http_request MAXLINE "" "" hostname path port lines
  = inr (upstream_request_spec hostname path lines).
Proof.
  intros Hlines Hfit.
  unfold create_server_http_request, upstream_request_spec in *.
  set (hosts := List.filter names_host (headers_before_blank lines)) in *.
  set (kept := flatten (List.filter names_no_key (headers_before_blank lines)))
    in *.
  set (host := default ("Host: " ++ hostname ++ CRLF) (last hosts)) in *.
  assert (Hhost :
    (if (strlen (default "" (last hosts)) =? 0)%Z
     then host_hdr_format hostname else default "" (last hosts)) = host).
  { unfold host. destruct (last hosts) as [l|] eqn:Hlast; simpl; [|done].
    assert (Hl : names_host l = true).
    { apply last_Some_elem_of, list_elem_of_In in Hlast.
      by apply filter_In in Hlast as [_ ?]. }
    by destruct (Z.eqb_spec (strlen l) 0) as [Hz|_];
      [apply names_host_nonempty in Hl|]. }
  rewrite !strlen_append in Hfit.
  pose proof (strlen_nonneg path). pose proof (strlen_nonneg host).
  pose proof (strlen_nonneg kept).
  assert (Hc : forall s, (0 <= strlen s)%Z) by apply strlen_nonneg.
  unfold requestlint_hdr_format.
  rewrite into_array_fits.
  2:{ rewrite !strlen_append.
      pose proof (Hc "GET "). pose proof (Hc " HTTP/1.0"). pose proof (Hc CRLF).
      pose proof (Hc "Connection: close").
      pose proof (Hc "Proxy-Connection: close").
      pose proof (Hc "User-Agent: Mozilla/5.0 (X11; Linux x86_64; rv:3.10.0) Gecko/20191101 Firefox/63.0.1").
      lia. }
  simpl bind_fault.
  rewrite create_server_http_request_loop_spec; [| done |].
  2:{ change (strlen kept < MAXLINE)%Z. pose proof (Hc "GET ").
      pose proof (Hc " HTTP/1.0"). pose proof (Hc CRLF).
      pose proof (Hc "Connection: close").
      pose proof (Hc "Proxy-Connection: close").
      pose proof (Hc "User-Agent: Mozilla/5.0 (X11; Linux x86_64; rv:3.10.0) Gecko/20191101 Firefox/63.0.1").
      lia. }
  simpl bind_fault. change ("" ++ kept) with kept. fold hosts.
  assert (Hsel :
    (if (strlen (default "" (last hosts)) =? 0)%Z
     then into_array MAXLINE (host_hdr_format hostname)
     else inr (default "" (last hosts))) = inr host).
  { rewrite <- Hhost.
    destruct (Z.eqb_spec (strlen (default "" (last hosts))) 0); [|done].
    apply into_array_fits. rewrite Hhost in *.
    pose proof (Hc "GET "). pose proof (Hc " HTTP/1.0"). pose proof (Hc CRLF).
    pose proof (Hc "Connection: close").
    pose proof (Hc "Proxy-Connection: close").
    pose proof (Hc "User-Agent: Mozilla/5.0 (X11; Linux x86_64; rv:3.10.0) Gecko/20191101 Firefox/63.0.1").
    lia. }
  rewrite Hsel. simpl bind_fault.
  unfold conn_hdr, prox_hdr, user_hdr, endof_hdr.
  rewrite !append_assoc3.
  apply into_array_fits. by rewrite !strlen_append.
Qed.

(** C8.  The arrays [host_hdr] and [other_hdr] are never given an initial
    value, and nothing checks that what is put in them fits.  A client sends
    no header at all: with bytes of an earlier request left in [other_hdr],
    the request for the origin carries them as a header; with an earlier Host
    line left in [host_hdr], the request names that host and not the one
    parsed.  A client sends two headers of 5009 bytes: the second is appended
    past the end of [other_hdr].  None of these is the request specified. *)
Theorem create_server_http_request_unsafe :
  create_server_http_request 8192 "" ("X-Stale: 1" ++ CRLF) "h" "/x" 80 [CRLF]
  = inr ("GET /x HTTP/1.0" ++ CRLF ++ "Host: h" ++ CRLF
         ++ "Connection: close" ++ CRLF ++ "Proxy-Connection: close" ++ CRLF
         ++ user_hdr ++ "X-Stale: 1" ++ CRLF ++ CRLF) /\
  create_server_http_request 8192 ("Host: other" ++ CRLF) "" "h" "/x" 80 [CRLF]
  = inr ("GET /x HTTP/1.0" ++ CRLF ++ "Host: other" ++ CRLF
         ++ "Connection: close" ++ CRLF ++ "Proxy-Connection: close" ++ CRLF
         ++ user_hdr ++ CRLF) /\
  upstream_request_spec "h" "/x" [CRLF]
  = "GET /x HTTP/1.0" ++ CRLF ++ "Host: h" ++ CRLF
    ++ "Connection: close" ++ CRLF ++ "Proxy-Connection: close" ++ CRLF
    ++ user_hdr ++ CRLF /\
  Forall (fun l => (strlen l < 8192)%Z) [long_header; long_header; CRLF] /\
  create_server_http_request 8192 "" "" "h" "/x" 80
    [long_header; long_header; CRLF]
  = inl OutOfBounds.
Proof.
  split_and!; try by vm_compute.
  refine (bool_decide_eq_true_1 (Forall _ _) _). by vm_compute.
Qed.

Local Close Scope string_scope.

(** * Verification of the error page and of the checks on the request line *)

Lemma length_bytes (s : string) : Z.of_nat (length (bytes s)) = strlen s.
Proof.
  unfold bytes, strlen, list_byte_of_string. rewrite length_map. f_equal.
  induction s as [|ch s IH]; simpl; [done | by rewrite IH].
Qed.

Lemma clienterror_run MAXLINE MAXBUF wr errnum shortmsg longmsg :
  strlen (error_body errnum shortmsg longmsg) < MAXBUF ->
  strlen (error_headers errnum shortmsg
            (strlen (error_body errnum shortmsg longmsg))) < MAXLINE ->
  client_writes (clienterror MAXLINE MAXBUF wr errnum shortmsg longmsg) =
  (ErrorHeaders,
   bytes (error_headers errnum shortmsg
            (strlen (error_body errnum shortmsg longmsg))))
  :: (if wr ErrorHeaders
      then [(ErrorBody, bytes (error_body errnum shortmsg longmsg))]
      else []).
Proof.
  intros Hb Hh. unfold clienterror.
  destruct (Z.leb_spec MAXBUF (strlen (error_body errnum shortmsg longmsg)));
    [lia|].
  destruct (Z.leb_spec MAXLINE
              (strlen (error_headers errnum shortmsg
                         (strlen (error_body errnum shortmsg longmsg)))));
    [lia|].
  by destruct (wr ErrorHeaders), (wr ErrorBody).
Qed.

(** C10, counterexample.  Both buffers are large enough and the write of
    the headers fails: [clienterror] has called [rio_writen] for the headers
    and returns without the body.  The response is not whole and the client
    socket was written to. *)
Lemma clienterror_header_write_fails :
  strlen (error_body "400" "Bad Request" "Proxy received a malformed request")
    < 8192 /\
  strlen (error_headers "400" "Bad Request" 207) < 8192 /\
  clienterror 8192 8192 (fun _ => false) "400" "Bad Request"
    "Proxy received a malformed request"
  = [ClientWrite ErrorHeaders (bytes (error_headers "400" "Bad Request" 207));
     Print ("Error writing error response headers to client" ++ NL)] /\
  ~ complete_or_nothing 8192 8192 (fun _ => false) "400" "Bad Request"
      "Proxy received a malformed request".
Proof.
  split_and!; [by vm_compute.. |].
  intros [H | [_ H]]; by vm_compute in H.
Qed.

(** C10, as the code has it.  [clienterror] writes nothing, and returns,
    when the body would fill its buffer of [MAXBUF] bytes or the headers
    theirs of [MAXLINE] bytes.  Otherwise it calls [rio_writen] for the
    headers: the status line, the content type, the content length, which
    is the length of the body, and an empty line.  When that write fails it
    says so on [stderr] and returns with no more written; when it succeeds
    it calls [rio_writen] for the body, whole, and says so when that write
    fails.  These are all the things it does. *)
Theorem clienterror_headers_then_body (MAXLINE MAXBUF : Z)
    (wr : site -> bool) (errnum shortmsg longmsg : string) :
  let body := error_body errnum shortmsg longmsg in
  let hdrs := error_headers errnum shortmsg (strlen body) in
  let tr := clienterror MAXLINE MAXBUF wr errnum shortmsg longmsg in
  (MAXBUF <= strlen body \/ MAXLINE <= strlen hdrs -> tr = []) /\
  (strlen body < MAXBUF -> strlen hdrs < MAXLINE ->
   tr = ClientWrite ErrorHeaders (bytes hdrs)
        :: (if wr ErrorHeaders
            then ClientWrite ErrorBody (bytes body)
                 :: (if wr ErrorBody then []
                     else [Print ("Error writing error response body to client"
                                  ++ NL)%string])
            else [Print ("Error writing error response headers to client"
                         ++ NL)%string])) /\
  hdrs = ("HTTP/1.0 " ++ errnum ++ " " ++ shortmsg ++ CRLF ++
          "Content-Type: text/html" ++ CRLF ++
          "Content-Length: " ++ decimal (Z.of_nat (length (bytes body)))
          ++ CRLF ++ CRLF)%string.
Proof.
  intros body hdrs tr. split_and!.
  - intros Hover. unfold tr, clienterror. fold body. fold hdrs.
    destruct (Z.leb_spec MAXBUF (strlen body)); [done|].
    destruct (Z.leb_spec MAXLINE (strlen hdrs)); [done|]. lia.
  - intros Hb Hh. unfold tr, clienterror. fold body. fold hdrs.
    destruct (Z.leb_spec MAXBUF (strlen body)); [lia|].
    destruct (Z.leb_spec MAXLINE (strlen hdrs)); [lia|].
    by destruct (wr ErrorHeaders), (wr ErrorBody).
  - unfold hdrs, error_headers. by rewrite length_bytes.
Qed.

(** The 400 page when every write succeeds, when the write of the body
    fails, and when the headers do not fit. *)
Lemma clienterror_headers_then_body_witness :
  strlen (error_body "400" "Bad Request" "Proxy received a malformed request")
    < 8192 /\
  strlen (error_headers "400" "Bad Request" 207) < 8192 /\
  clienterror 8192 8192 (fun _ => true) "400" "Bad Request"
    "Proxy received a malformed request"
  = [ClientWrite ErrorHeaders (bytes (error_headers "400" "Bad Request" 207));
     ClientWrite ErrorBody
       (bytes (error_body "400" "Bad Request"
                 "Proxy received a malformed request"))] /\
  clienterror 8192 8192 (fun s => match s with ErrorBody => false | _ => true end)
    "400" "Bad Request" "Proxy received a malformed request"
  = [ClientWrite ErrorHeaders (bytes (error_headers "400" "Bad Request" 207));
     ClientWrite ErrorBody
       (bytes (error_body "400" "Bad Request"
                 "Proxy received a malformed request"));
     Print ("Error writing error response body to client" ++ NL)] /\
  clienterror 10 8192 (fun _ => true) "400" "Bad Request"
    "Proxy received a malformed request" = [].
Proof.
  assert (H1 : strlen (error_body "400" "Bad Request"
                         "Proxy received a malformed request") < 8192)
    by by vm_compute.
  assert (H2 : strlen (error_headers "400" "Bad Request" 207) < 8192)
    by by vm_compute.
  split_and!; [done..| | |].
  - exact (proj1 (proj2 (clienterror_headers_then_body 8192 8192
             (fun _ => true) "400" "Bad Request"
             "Proxy received a malformed request")) H1 H2).
  - exact (proj1 (proj2 (clienterror_headers_then_body 8192 8192
             (fun s => match s with ErrorBody => false | _ => true end)
             "400" "Bad Request"
             "Proxy received a malformed request")) H1 H2).
  - apply (proj1 (clienterror_headers_then_body 10 8192 (fun _ => true)
             "400" "Bad Request" "Proxy received a malformed request")).
    right. by vm_compute.
Defined.

Lemma client_writes_app tr1 tr2 :
  client_writes (tr1 ++ tr2) = client_writes tr1 ++ client_writes tr2.
Proof. apply flat_map_app. Qed.

Lemma relay_reads_no_error_write reads : forall sizebuf buf,
  no_error_write (relay_reads reads sizebuf buf).1.
Proof.
  induction reads as [|[ch|] reads IH]; intros sizebuf buf; simpl.
  - constructor.
  - destruct (Z.of_nat (length ch) =? 0); [constructor|].
    destruct (if sizebuf <? MAX_OBJECT_SIZE then _ else _) as [f|buf'];
      [constructor|].
    specialize (IH (size_wrap (sizebuf + Z.of_nat (length ch))) buf').
    destruct (relay_reads reads _ buf') as [evs r]. simpl in *.
    by constructor.
  - constructor.
Qed.

Lemma fetch_from_origin_no_error_write MAXLINE e buf uri client_rio c :
  no_error_write (fetch_from_origin MAXLINE e buf uri client_rio c).1.
Proof.
  unfold fetch_from_origin.
  destruct (parser_parse_line e buf) as [pr|]; [|by repeat constructor].
  destruct (parsed_port pr) as [portVal|]; [|by repeat constructor].
  destruct (parsed_path pr) as [path|]; [|by repeat constructor].
  destruct (parsed_host pr) as [hostname|]; [|by repeat constructor].
  destruct (create_server_http_request _ _ _ _ _ _ _) as [f|req];
    [by constructor|].
  destruct (open_clientfd e hostname _); simpl; [|by repeat constructor].
  pose proof (relay_reads_no_error_write (server_reads e) 0 []) as Hrelay.
  destruct (relay_reads (server_reads e) 0 []) as [evs [f|[sizebuf obj]]];
    simpl in *; unfold no_error_write; simpl.
  - done.
  - rewrite client_writes_app. simpl. by rewrite app_nil_r.
Qed.

Lemma responds_error_write wr errnum shortmsg longmsg tr :
  responds wr errnum shortmsg longmsg tr -> ~ no_error_write tr.
Proof.
  unfold responds, no_error_write. intros -> Hall.
  by apply Forall_cons in Hall as [? _].
Qed.

Lemma error_bodies_fit :
  strlen (error_body "400" "Bad Request" "Proxy received a malformed request")
    = 207 /\
  strlen (error_body "501" "Not Implemented"
            "Proxy does not implement this method") = 213 /\
  strlen (error_headers "400" "Bad Request" 207) = 74 /\
  strlen (error_headers "501" "Not Implemented" 213) = 78.
Proof. split_and!; by vm_compute. Qed.

Lemma clienterror_400 MAXLINE MAXBUF wr :
  256 <= MAXLINE -> 256 <= MAXBUF ->
  responds_400 wr
    (clienterror MAXLINE MAXBUF wr "400" "Bad Request"
       "Proxy received a malformed request") /\
  contacts_origin
    (clienterror MAXLINE MAXBUF wr "400" "Bad Request"
       "Proxy received a malformed request") = false.
Proof.
  intros Hl Hb. destruct error_bodies_fit as (H1 & _ & H2 & _). split.
  - apply clienterror_run; rewrite ?H1, ?H2; lia.
  - unfold clienterror. rewrite H1, H2.
    destruct (Z.leb_spec MAXBUF 207); [done|].
    destruct (Z.leb_spec MAXLINE 74); [done|].
    by destruct (wr ErrorHeaders), (wr ErrorBody).
Qed.

Lemma clienterror_501 MAXLINE MAXBUF wr :
  256 <= MAXLINE -> 256 <= MAXBUF ->
  responds_501 wr
    (clienterror MAXLINE MAXBUF wr "501" "Not Implemented"
       "Proxy does not implement this method") /\
  contacts_origin
    (clienterror MAXLINE MAXBUF wr "501" "Not Implemented"
       "Proxy does not implement this method") = false.
Proof.
  intros Hl Hb. destruct error_bodies_fit as (_ & H1 & _ & H2). split.
  - apply clienterror_run; rewrite ?H1, ?H2; lia.
  - unfold clienterror. rewrite H1, H2.
    destruct (Z.leb_spec MAXBUF 213); [done|].
    destruct (Z.leb_spec MAXLINE 78); [done|].
    by destruct (wr ErrorHeaders), (wr ErrorBody).
Qed.

Lemma responds_400_not_501 wr tr : responds_400 wr tr -> ~ responds_501 wr tr.
Proof.
  unfold responds_400, responds_501, responds. intros -> H.
  injection H as H _. by vm_compute in H.
Qed.

(** The two checks of the worker on the line it read, in terms of its own
    scan: it answers 400 exactly when the scan does not return 3 or the
    character is neither 0 nor 1, and 501, for a line that passes, exactly
    when the method scanned is not GET; in both cases nothing goes to the
    origin and the cache is as it was. *)
Lemma request_line_checks (MAXLINE MAXBUF : Z) (e : env) (c : Cache)
    (buf : string) (client_rio : list string) :
  256 <= MAXLINE -> 256 <= MAXBUF ->
  client_lines e = buf :: client_rio ->
  let r := clientRequestHandler MAXLINE MAXBUF e c in
  (responds_400 (writable e) r.1 <-> malformed buf = true) /\
  (malformed buf = false ->
   (responds_501 (writable e) r.1 <-> request_method buf <> "GET"%string)) /\
  (malformed buf = true \/ request_method buf <> "GET"%string ->
   contacts_origin r.1 = false /\ r.2 = inr c).
Proof.
  intros Hl Hb Hlines r. unfold r, clientRequestHandler, malformed, request_method.
  rewrite Hlines. destruct (sscanf_request buf) as [[[n method] uri] version].
  destruct (clienterror_400 MAXLINE MAXBUF (writable e) Hl Hb) as [H400 Ho400].
  destruct (clienterror_501 MAXLINE MAXBUF (writable e) Hl Hb) as [H501 Ho501].
  destruct (negb (n =? 3) || _) eqn:Hbad; simpl.
  { split_and!; [done | done | by intros _]. }
  destruct (String.eqb_spec method "GET") as [Hget|Hget]; simpl.
  2:{ split_and!.
      - split; [|done]. intros H. by apply responds_400_not_501 in H.
      - done.
      - by intros _. }
  assert (Hno : no_error_write
    (match cache_find uri c with
     | inl f => ([], inl f)
     | inr (Some a, c1) =>
       match serve_hit (Some a) c1 with
       | inl f => ([], inl f)
       | inr (data, c2) => ([ClientWrite CachedObject data], inr c2)
       end
     | inr (None, c1) => fetch_from_origin MAXLINE e buf uri client_rio c1
     end).1).
  { destruct (cache_find uri c) as [f|[[a|] c1]]; simpl.
    - constructor.
    - destruct (serve_hit (Some a) c1) as [f|[data c2]]; simpl;
        by repeat constructor.
    - apply fetch_from_origin_no_error_write. }
  split_and!.
  - split; [|done]. intros H.
    exact (False_ind _ (responds_error_write _ _ _ _ _ H Hno)).
  - intros _. split; [|done]. intros H.
    exact (False_ind _ (responds_error_write _ _ _ _ _ H Hno)).
  - intros [?|?]; done.
Qed.

(** * The worker, end to end *)

Local Open Scope string_scope.

(** A malformed line is answered 400, another method 501. *)
Example garbage_is_answered_400 :
  malformed ("GARBAGE" ++ CRLF) = true /\
  responds_400 (fun _ => true)
    (clientRequestHandler 8192 8192 (only_line ("GARBAGE" ++ CRLF))
       cache_init).1.
Proof. split; by vm_compute. Qed.

Example put_is_answered_501 :
  malformed ("PUT /x HTTP/1.0" ++ CRLF) = false /\
  request_method ("PUT /x HTTP/1.0" ++ CRLF) = "PUT" /\
  responds_501 (fun _ => true)
    (clientRequestHandler 8192 8192 (only_line ("PUT /x HTTP/1.0" ++ CRLF))
       cache_init).1.
Proof. split_and!; by vm_compute. Qed.

(** A first transaction fetches and stores; a second one is served from the
    cache, with no contact to the origin, and gives its handle back. *)
Example cold_fetch_then_warm_hit :
  let r1 := clientRequestHandler 8192 8192 (get_x [[x58; x59; x5a]] id id)
              cache_init in
  exists c1,
    r1.2 = inr c1 /\
    client_writes r1.1 = [(RelayedChunk, [x58; x59; x5a])] /\
    contacts_origin r1.1 = true /\
    entries c1 = [("http://h/x", [x58; x59; x5a], 3, 0)] /\
    let r2 := clientRequestHandler 8192 8192 (get_x [] id id) c1 in
    r2.1 = [ClientWrite CachedObject [x58; x59; x5a]] /\
    exists c2, r2.2 = inr c2 /\
               entries c2 = [("http://h/x", [x58; x59; x5a], 3, 0)].
Proof.
  eexists. split_and!; [by vm_compute..|].
  split; [by vm_compute|]. eexists. split; by vm_compute.
Qed.

(** An object of [MAX_OBJECT_SIZE - 1] bytes is stored; one of exactly
    [MAX_OBJECT_SIZE] bytes is relayed whole and not stored. *)
Example largest_object_stored :
  let r := clientRequestHandler 8192 8192
             (get_x (origin_sends (MAX_OBJECT_SIZE - 1)) id id) cache_init in
  printed r = Some [(MAX_OBJECT_SIZE - 1, "http://h/x")].
Proof. by vm_compute. Qed.

Example exact_max_object_relayed_not_stored :
  let r := clientRequestHandler 8192 8192
             (get_x (origin_sends MAX_OBJECT_SIZE) id id) cache_init in
  total_length (map snd (client_writes r.1)) = MAX_OBJECT_SIZE /\
  r.2 = inr cache_init.
Proof. split; by vm_compute. Qed.

(** While this worker relays, another one stores the same URL.  This
    worker's lookup before the insert finds it, and the transaction ends
    with the entry still counted as in use. *)
Example lost_race_leaves_entry_pinned :
  let other := after (cache_uri "http://h/x" [x58; x59; x5a] 3) in
  let r := clientRequestHandler 8192 8192 (get_x [[x58; x59; x5a]] other id)
             cache_init in
  exists c, r.2 = inr c /\
            entries c = [("http://h/x", [x58; x59; x5a], 3, 1)].
Proof. eexists. split; by vm_compute. Qed.

(** Another worker stores the same URL after this worker's lookup and
    before its insert: the cache ends with two entries for the URL. *)
Example race_before_insert_duplicates :
  let other := after (cache_uri "http://h/x" [x58; x59; x5a] 3) in
  let r := clientRequestHandler 8192 8192 (get_x [[x58; x59; x5a]] id other)
             cache_init in
  printed r = Some [(3, "http://h/x"); (3, "http://h/x")].
Proof. by vm_compute. Qed.

(** Eviction goes from the head: an eleventh object of 100 KiB pushes out
    the first.  With the first in use, and no other thread to give it back,
    the insertion spins. *)
Example eleventh_object_evicts_the_first :
  map snd (cachePrint
             (after (cache_uri "u11" object_100k MAX_OBJECT_SIZE) ten_objects))
  = ["u2"; "u3"; "u4"; "u5"; "u6"; "u7"; "u8"; "u9"; "u10"; "u11"].
Proof. by vm_compute. Qed.

(** A handle that is never given back: the entry moves towards the head as
    others are evicted, and the insertion that finds it there spins. *)
Example pinned_head_blocks_insertion :
  urls_after
    (cache_find "u1" ;;;
     inserts ["u11"; "u12"; "u13"; "u14"; "u15"; "u16"; "u17"; "u18"; "u19"])
    ten_objects
  = inr ["u1"; "u11"; "u12"; "u13"; "u14"; "u15"; "u16"; "u17"; "u18"; "u19"]
  /\
  urls_after
    (cache_find "u1" ;;;
     inserts ["u11"; "u12"; "u13"; "u14"; "u15"; "u16"; "u17"; "u18"; "u19";
              "u20"])
    ten_objects
  = inl BusyWait.
Proof. split; by vm_compute. Qed.

Local Close Scope string_scope.

(** * The cache, operation by operation *)

(** ** What an eviction frees *)

Lemma evicted_agree h h' req l : forall freed,
  (forall x, x ∈ l -> size_at h' x = size_at h x) ->
  evicted h' req freed l = evicted h req freed l.
Proof.
  induction l as [|a l IH]; intros freed H; simpl; [done|].
  destruct (freed <? req); [|done].
  rewrite (H a) by by left. f_equal. apply IH. intros x Hx. apply H. by right.
Qed.

Lemma evicted_split h req l : forall freed,
  exists l', l = evicted h req freed l ++ l'.
Proof.
  induction l as [|a l IH]; intros freed; simpl; [by exists []|].
  destruct (freed <? req); [|by eexists].
  destruct (IH (freed + size_at h a)) as [l' Hl']. exists l'. simpl. by f_equal.
Qed.

(** One run of the eviction loop, with the cells of the heap it leaves. *)
Lemma evict_head_step_dom h tl sz a ba rest :
  h !! a = Some ba -> NoDup (a :: rest) ->
  dlseg h (Some a) (nextBlock ba) rest tl None ->
  exists h' tl',
    dlseg h' None (nextBlock ba) rest tl' None /\
    (forall x, x ∈ rest -> data <$> h' !! x = data <$> h !! x) /\
    dom h' = dom h ∖ {[a]} /\
    forall B (k : Z -> M B) hd,
      ((let* nx := next_of (Some a) in
        (if negb (is_null nx) then
           set_head nx ;;;
           let* tempCacheLinePtr := next_of (Some a) in
           store_prev tempCacheLinePtr None
         else set_head None ;;; set_tail None) ;;;
        let* sz0 := get_size in
        let* osz := size_of (Some a) in
        set_size (size_wrap (sz0 - osz)) ;;;
        let* osz' := size_of (Some a) in
        Free (Some a) ;;; k osz') (mk_cache h hd tl sz))
      = k (cache_obj_size ba)
          (mk_cache h' (nextBlock ba) tl' (size_wrap (sz - cache_obj_size ba))).
Proof.
  intros Ha Hnd Hrest. apply NoDup_cons in Hnd as [Har Hnd].
  destruct rest as [|n rest'].
  - destruct Hrest as [Hn ->]. exists (delete a h), None. split_and!.
    + by rewrite Hn.
    + intros x Hx. by apply elem_of_nil in Hx.
    + apply dom_delete_L.
    + intros B k hd. step Ha. rewrite Hn. cbn [is_null negb]. pure.
      step Ha. step Ha. unfold Free, bind at 1. cbn [heap]. by rewrite Ha.
  - pose proof Hrest as (Hn & _). rewrite Hn in Hrest.
    apply not_elem_of_cons in Har as [Han Har].
    apply NoDup_cons in Hnd as [Hn' Hnd].
    destruct (dlseg_set_prev _ _ _ _ _ _ None Hn' Hrest) as (bn & Hbn & Hrest').
    exists (delete a (<[n := with_prev None bn]> h)), tl. split_and!.
    + rewrite Hn. apply dlseg_delete_ne; [|done].
      apply not_elem_of_cons. by split.
    + intros x Hx. assert (a <> x).
      { intros ->. apply elem_of_cons in Hx as [?|?]; done. }
      rewrite lookup_delete_ne by done.
      symmetry. by apply (same_data_insert h n bn (with_prev None bn)).
    + by rewrite dom_delete_L, dom_insert_lookup_L by eauto.
    + intros B k hd. step Ha. rewrite Hn. cbn [is_null negb]. pure.
      step Ha. rewrite Hn. unfold store_prev. step Hbn.
      assert (Ha' : (<[n := with_prev None bn]> h) !! a = Some ba)
        by by rewrite lookup_insert_ne.
      step Ha'. step Ha'. unfold Free, bind at 1. cbn [heap]. by rewrite Ha'.
Qed.

(** The eviction loop frees exactly the blocks [evicted] names, when none of
    them is in use, and reports whether that was less than asked for; it
    spins when one of them is in use. *)
Lemma cache_eviction_loop_run req l : forall fuel c freed,
  dlseg (heap c) None (cacheBlockHead c) l (cacheBlockTail c) None ->
  NoDup l -> (length l < fuel)%nat ->
  Forall (fun a => 0 <= size_at (heap c) a) l ->
  cache_size c = total_size (heap c) l ->
  0 <= freed -> freed + cache_size c < 2 ^ 64 ->
  exists l',
    l = evicted (heap c) req freed l ++ l' /\
    (unpinned (heap c) (evicted (heap c) req freed l) ->
     exists c',
       cache_eviction_loop fuel req freed (cacheBlockHead c) c
       = inr (freed + total_size (heap c) (evicted (heap c) req freed l) <? req,
              c') /\
       dlseg (heap c') None (cacheBlockHead c') l' (cacheBlockTail c') None /\
       (forall x, x ∈ l' -> data <$> heap c' !! x = data <$> heap c !! x) /\
       cache_size c' = total_size (heap c) l' /\
       dom (heap c') = dom (heap c) ∖ list_to_set (evicted (heap c) req freed l)) /\
    (~ unpinned (heap c) (evicted (heap c) req freed l) ->
     cache_eviction_loop fuel req freed (cacheBlockHead c) c = inl BusyWait).
Proof.
  induction l as [|a rest IH]; intros fuel c freed Hseg Hnd Hfuel Hsz Htot Hfr Hov;
    (destruct fuel as [|fuel]; [simpl in Hfuel; lia|]);
    destruct c as [h hd tl sz]; cbn [heap cacheBlockHead cacheBlockTail cache_size] in *.
  - destruct Hseg as [-> ->]. exists []. simpl.
    split_and!; [done | | intros H; exfalso; apply H; constructor].
    intros _. exists (mk_cache h None None sz).
    cbn [cache_eviction_loop is_null negb]. rewrite andb_false_r, Z.add_0_r.
    split_and!; try done. by rewrite difference_empty_L.
  - destruct Hseg as (-> & ba & Ha & Hprev & Hrest).
    apply Forall_cons in Hsz as [Hsa Hsz].
    assert (Hosz : size_at h a = cache_obj_size ba) by (unfold size_at; by rewrite Ha).
    rewrite Hosz in Hsa. simpl in Htot. rewrite Hosz in Htot.
    pose proof (total_size_nonneg _ _ Hsz) as Hrest_nn.
    cbn [cache_eviction_loop is_null negb evicted]. rewrite andb_true_r.
    destruct (Z.ltb_spec freed req) as [Hlt|Hge].
    + rewrite Hosz.
      destruct (evict_head_step_dom h tl sz a ba rest Ha Hnd Hrest)
        as (h' & tl' & Hseg' & Hdata' & Hdom' & Hstep).
      apply NoDup_cons in Hnd as [Har Hnd].
      assert (Hev : evicted h' req (freed + cache_obj_size ba) rest
                    = evicted h req (freed + cache_obj_size ba) rest).
      { apply evicted_agree. intros x Hx. by apply data_size_at, Hdata'. }
      destruct (IH fuel (mk_cache h' (nextBlock ba) tl' (sz - cache_obj_size ba))
                  (freed + cache_obj_size ba)) as (l' & El & IHr & IHw);
        cbn [heap cacheBlockHead cacheBlockTail cache_size]; try done; try lia.
      { simpl in Hfuel. lia. }
      { apply Forall_forall. intros x Hx. rewrite (data_size_at h h' x (Hdata' x Hx)).
        rewrite Forall_forall in Hsz. by apply Hsz. }
      { rewrite (total_size_data h h' rest Hdata'). lia. }
      cbn [heap cacheBlockHead cacheBlockTail cache_size] in *.
      rewrite Hev in El, IHr, IHw.
      set (l0 := evicted h req (freed + cache_obj_size ba) rest) in *.
      assert (Hl0 : forall x, x ∈ l0 -> x ∈ rest).
      { intros x Hx. rewrite El. apply elem_of_app. by left. }
      assert (Hl' : forall x, x ∈ l' -> x ∈ rest).
      { intros x Hx. rewrite El. apply elem_of_app. by right. }
      assert (Hun0 : unpinned h' l0 <-> unpinned h l0).
      { apply unpinned_data. intros x Hx. by apply Hdata', Hl0. }
      exists l'. split_and!.
      * simpl. by f_equal.
      * intros Hun. apply Forall_cons in Hun as [Hcnt Hun].
        unfold cnt_at in Hcnt. rewrite Ha in Hcnt. simpl in Hcnt.
        destruct IHr as (c' & Hrun & Hseg'' & Hdata'' & Htot'' & Hdom); [by apply Hun0|].
        exists c'. step Ha. rewrite Hcnt. cbn [Z.eqb negb].
        rewrite Hstep. pure. rewrite !size_wrap_small by lia.
        split_and!.
        -- rewrite Hrun. f_equal. f_equal. simpl. rewrite Hosz.
           rewrite (total_size_data h h' l0); [f_equal; lia|].
           intros x Hx. by apply Hdata', Hl0.
        -- done.
        -- intros x Hx. rewrite Hdata'' by done. by apply Hdata', Hl'.
        -- rewrite Htot''. apply total_size_data. intros x Hx. by apply Hdata', Hl'.
        -- rewrite Hdom, Hdom'. simpl. by rewrite difference_difference_l_L.
      * intros Hpin. step Ha.
        destruct (Z.eqb_spec (readReferenceCnt ba) 0) as [Hcnt|Hcnt]; cbn [negb]; [|done].
        rewrite Hstep. pure. rewrite !size_wrap_small by lia.
        apply IHw. intros Hu. apply Hpin. apply Forall_cons. split.
        -- unfold cnt_at. by rewrite Ha.
        -- by apply Hun0.
    + exists (a :: rest). simpl.
      split_and!; [done | | intros H; exfalso; apply H; constructor]. intros _.
      exists (mk_cache h (Some a) tl sz).
      cbn [heap cacheBlockHead cacheBlockTail cache_size].
      split_and!; try done.
      * unfold ret. do 2 f_equal. symmetry. apply Z.ltb_ge. lia.
      * by exists ba.
      * by rewrite Hosz.
      * by rewrite difference_empty_L.
Qed.

(** ** Runs that return, read backwards *)

Lemma bind_inv {A B} (m : M A) (k : A -> M B) c r :
  bind m k c = inr r -> exists x c1, m c = inr (x, c1) /\ k x c1 = inr r.
Proof.
  unfold bind. destruct (m c) as [e|[x c1]]; [done|]. intros H. by exists x, c1.
Qed.

Lemma load_inv p c b c' :
  load p c = inr (b, c') -> c' = c /\ exists a, p = Some a /\ heap c !! a = Some b.
Proof.
  unfold load. destruct p as [a|]; [|done].
  destruct (heap c !! a) as [b0|] eqn:Hb; [|done].
  intros [= <- <-]. split; [done|]. by exists a.
Qed.

Lemma modify_inv f p c u c' :
  modify f p c = inr (u, c') ->
  exists a b, p = Some a /\ heap c !! a = Some b /\
    c' = mk_cache (<[a := f b]> (heap c)) (cacheBlockHead c) (cacheBlockTail c)
           (cache_size c).
Proof.
  unfold modify. destruct p as [a|]; [|done].
  destruct (heap c !! a) as [b|] eqn:Hb; [|done].
  intros [= <-]. by exists a, b.
Qed.

Lemma Free_inv p c u c' :
  Free p c = inr (u, c') ->
  (p = None /\ c' = c) \/
  exists a b, p = Some a /\ heap c !! a = Some b /\
    c' = mk_cache (delete a (heap c)) (cacheBlockHead c) (cacheBlockTail c)
           (cache_size c).
Proof.
  unfold Free. destruct p as [a|]; [|intros [= <-]; by left].
  destruct (heap c !! a) as [b|] eqn:Hb; [|done].
  intros [= <-]. right. by exists a, b.
Qed.

Lemma field_inv {A} (f : cache_block -> A) p c x c' :
  (let* b := load p in ret (f b)) c = inr (x, c') ->
  c' = c /\ exists a b, p = Some a /\ heap c !! a = Some b /\ x = f b.
Proof.
  intros H. apply bind_inv in H as (b & c1 & Hl & Hr).
  apply load_inv in Hl as (-> & a & -> & Hb). injection Hr as <- <-.
  split; [done|]. by exists a, b.
Qed.

(** [inv_run] takes apart the hypotheses that say a run returned. *)
Ltac inv_run :=
  repeat match goal with
  | H : bind _ _ _ = inr _ |- _ =>
    let x := fresh "x" in let c := fresh "c" in
    let H1 := fresh "R" in let H2 := fresh "R" in
    apply bind_inv in H as (x & c & H1 & H2)
  | H : ret _ _ = inr _ |- _ => unfold ret in H; injection H as ? ?; subst
  | H : get_head _ = inr _ |- _ => unfold get_head in H; injection H as ? ?; subst
  | H : get_tail _ = inr _ |- _ => unfold get_tail in H; injection H as ? ?; subst
  | H : get_size _ = inr _ |- _ => unfold get_size in H; injection H as ? ?; subst
  | H : set_head _ _ = inr _ |- _ => unfold set_head in H; injection H as ?; subst
  | H : set_tail _ _ = inr _ |- _ => unfold set_tail in H; injection H as ?; subst
  | H : set_size _ _ = inr _ |- _ => unfold set_size in H; injection H as ?; subst
  | H : Malloc _ = inr _ |- _ => unfold Malloc in H; injection H as ? ?; subst
  | H : next_of _ _ = inr _ |- _ =>
    apply (field_inv nextBlock) in H as (-> & ? & ? & ? & ? & ?)
  | H : prev_of _ _ = inr _ |- _ =>
    apply (field_inv previousBlock) in H as (-> & ? & ? & ? & ? & ?)
  | H : cnt_of _ _ = inr _ |- _ =>
    apply (field_inv readReferenceCnt) in H as (-> & ? & ? & ? & ? & ?)
  | H : size_of _ _ = inr _ |- _ =>
    apply (field_inv cache_obj_size) in H as (-> & ? & ? & ? & ? & ?)
  | H : load _ _ = inr _ |- _ => apply load_inv in H as (-> & ? & ? & ?)
  | H : store_next _ _ _ = inr _ |- _ =>
    unfold store_next in H; apply modify_inv in H as (? & ? & ? & ? & ?)
  | H : store_prev _ _ _ = inr _ |- _ =>
    unfold store_prev in H; apply modify_inv in H as (? & ? & ? & ? & ?)
  | H : store_cnt _ _ _ = inr _ |- _ =>
    unfold store_cnt in H; apply modify_inv in H as (? & ? & ? & ? & ?)
  | H : modify _ _ _ = inr _ |- _ =>
    apply modify_inv in H as (? & ? & ? & ? & ?)
  | H : memcpy_from _ _ _ = inr _ |- _ =>
    unfold memcpy_from in H;
    destruct (_ <? _) in H; [discriminate H | injection H as ? ?]
  end; simplify_eq; cbn [heap cacheBlockHead cacheBlockTail cache_size] in *.

(** [cache_uri_link] allocates one cell and frees none. *)
Lemma cache_uri_link_dom uri buf n c u c' :
  cache_uri_link uri buf n c = inr (u, c') ->
  dom (heap c') = {[fresh (dom (heap c))]} ∪ dom (heap c).
Proof.
  unfold cache_uri_link. intros H. inv_run.
  destruct (is_null _ && is_null _) in R2; inv_run;
    repeat (rewrite dom_insert_lookup_L by eauto); apply dom_insert_L.
Qed.

Lemma evicted_nil h req freed l : req <= freed -> evicted h req freed l = [].
Proof.
  intros H. destruct l as [|a l]; [done|]. simpl.
  by destruct (Z.ltb_spec freed req); [lia|].
Qed.

(** When something is left, what was freed is at least what was asked. *)
Lemma evicted_enough h req l : forall freed l',
  l = evicted h req freed l ++ l' -> l' <> [] ->
  req <= freed + total_size h (evicted h req freed l).
Proof.
  induction l as [|a l IH]; intros freed l' El Hl'.
  - simpl in El. by subst l'.
  - simpl in El |- *. destruct (Z.ltb_spec freed req) as [Hlt|Hge].
    + simpl in El |- *. injection El as El.
      specialize (IH _ _ El Hl'). lia.
    + simpl. lia.
Qed.

(** Without its last block, what was freed is less than what was asked. *)
Lemma evicted_minimal h req l : forall freed l0 x,
  evicted h req freed l = l0 ++ [x] -> freed + total_size h l0 < req.
Proof.
  induction l as [|a l IH]; intros freed l0 x El.
  - by destruct l0.
  - simpl in El. destruct (Z.ltb_spec freed req) as [Hlt|Hge];
      [|by destruct l0].
    destruct l0 as [|y l0]; simpl in El |- *; [lia|].
    injection El as <- El. specialize (IH _ _ _ El). lia.
Qed.

Lemma cache_uri_room_run c l n :
  cache_ok c l -> 0 <= n < 2 ^ 63 ->
  exists l',
    l = evicted (heap c) (cache_size c + n - MAX_CACHE_SIZE) 0 l ++ l' /\
    (unpinned (heap c)
       (evicted (heap c) (cache_size c + n - MAX_CACHE_SIZE) 0 l) ->
     exists c',
       cache_uri_room n c = inr (tt, c') /\
       dlseg (heap c') None (cacheBlockHead c') l' (cacheBlockTail c') None /\
       (forall x, x ∈ l' -> data <$> heap c' !! x = data <$> heap c !! x) /\
       cache_size c' = total_size (heap c) l' /\
       dom (heap c') = dom (heap c)
         ∖ list_to_set (evicted (heap c) (cache_size c + n - MAX_CACHE_SIZE) 0 l)) /\
    (~ unpinned (heap c)
         (evicted (heap c) (cache_size c + n - MAX_CACHE_SIZE) 0 l) ->
     cache_uri_room n c = inl BusyWait).
Proof.
  intros Hok Hn. pose proof (cache_ok_size_nonneg c l Hok) as Hnn.
  destruct Hok as [Hseg Hnd Hsz Htot Hcap].
  assert (Hmax : MAX_CACHE_SIZE = 1048576) by done.
  unfold cache_uri_room. pure. rewrite (size_wrap_small (cache_size c + n)) by lia.
  destruct (Z.ltb_spec MAX_CACHE_SIZE (cache_size c + n)) as [Hbig|Hfit].
  - pure. rewrite (size_wrap_small (cache_size c + n)) by lia.
    rewrite size_wrap_small by lia.
    destruct (cache_eviction_loop_run (cache_size c + n - MAX_CACHE_SIZE) l
                (S (size (heap c))) c 0) as (l' & El & Hr & Hw);
      try done; try lia.
    { pose proof (dlseg_length _ _ _ _ _ _ Hseg Hnd). lia. }
    exists l'. split_and!; [done | |].
    + intros Hun. destruct (Hr Hun) as (c' & Hrun & Hseg' & Hdata & Htot' & Hdom).
      exists c'. split_and!; try done.
      by rewrite (bind_inr (cache_eviction _) _ c _ c' Hrun).
    + intros Hpin. by rewrite (bind_inl (cache_eviction _) _ c BusyWait (Hw Hpin)).
  - rewrite evicted_nil by lia. exists l.
    split_and!; [done | | intros H; exfalso; apply H; constructor].
    intros _. exists c. split_and!; try done.
    simpl. by rewrite difference_empty_L.
Qed.

(** [cache_uri] frees the blocks [evicted] names, for the bytes by which the
    object does not fit, and appends the new block; it spins when one of
    those blocks is in use. *)
Lemma cache_uri_run c l uri buf n :
  cache_ok c l -> 0 <= n <= Z.of_nat (length buf) -> n < 2 ^ 63 ->
  exists l',
    l = evicted (heap c) (cache_size c + n - MAX_CACHE_SIZE) 0 l ++ l' /\
    (unpinned (heap c)
       (evicted (heap c) (cache_size c + n - MAX_CACHE_SIZE) 0 l) ->
     exists c' a,
       cache_uri uri buf n c = inr (tt, c') /\
       dlseg (heap c') None (cacheBlockHead c') (l' ++ [a]) (cacheBlockTail c') None /\
       NoDup (l' ++ [a]) /\
       (forall x, x ∈ l' -> data <$> heap c' !! x = data <$> heap c !! x) /\
       data <$> heap c' !! a = Some (uri, take (Z.to_nat n) buf, n, 0) /\
       cache_size c' = total_size (heap c) l' + n /\
       dom (heap c') = {[a]} ∪ dom (heap c)
         ∖ list_to_set (evicted (heap c) (cache_size c + n - MAX_CACHE_SIZE) 0 l)) /\
    (~ unpinned (heap c)
         (evicted (heap c) (cache_size c + n - MAX_CACHE_SIZE) 0 l) ->
     cache_uri uri buf n c = inl BusyWait).
Proof.
  intros Hok Hn Hn'.
  destruct (cache_uri_room_run c l n Hok ltac:(lia)) as (l' & El & Hr & Hw).
  exists l'. split_and!; [done | |].
  2:{ intros Hpin. unfold cache_uri. by rewrite (bind_inl _ _ _ _ (Hw Hpin)). }
  intros Hun. destruct (Hr Hun) as (c1 & Hrun & Hseg1 & Hdata1 & Htot1 & Hdom1).
  destruct Hok as [Hseg Hnd Hsz Htot Hcap].
  set (l0 := evicted (heap c) (cache_size c + n - MAX_CACHE_SIZE) 0 l) in *.
  rewrite El in Hnd, Hsz.
  apply NoDup_app in Hnd as (Hnd0 & Hdisj & Hnd').
  apply Forall_app in Hsz as [Hsz0 Hsz'].
  assert (Hnn1 : 0 <= cache_size c1).
  { rewrite Htot1. by apply total_size_nonneg. }
  assert (Hle1 : cache_size c1 <= cache_size c).
  { rewrite Htot1, Htot, El, total_size_app.
    pose proof (total_size_nonneg _ _ Hsz0). lia. }
  assert (Hmax : MAX_CACHE_SIZE = 1048576) by done.
  destruct (cache_uri_link_spec c1 l' uri buf n Hseg1 Hnd' Hn ltac:(lia) Hnn1)
    as (a & c' & Hfresh & Hlink & Hseg' & Hdata' & Hnew & Hsize').
  assert (Hal : a ∉ l').
  { intros Hin. destruct (dlseg_in _ _ _ _ _ _ a Hseg1 Hin) as [b Hb]. congruence. }
  exists c', a. split_and!; try done.
  - unfold cache_uri. by rewrite (bind_inr _ _ _ _ _ Hrun).
  - apply NoDup_app. split_and!; [done | | apply NoDup_singleton].
    intros x Hx Hxa. apply list_elem_of_singleton in Hxa as ->. done.
  - intros x Hx. by rewrite Hdata', Hdata1.
  - by rewrite Hsize', Htot1.
  - pose proof (cache_uri_link_dom _ _ _ _ _ _ Hlink) as Hdom'.
    assert (Ha : a = fresh (dom (heap c1))).
    { assert (Hin : a ∈ dom (heap c')).
      { apply elem_of_dom. destruct (heap c' !! a); [by eexists | done]. }
      rewrite Hdom' in Hin. apply elem_of_union in Hin as [Hin|Hin].
      - by apply elem_of_singleton in Hin.
      - apply elem_of_dom in Hin as [b Hb]. congruence. }
    by rewrite Hdom', <- Ha, Hdom1.
Qed.

(** ** Sequences of operations *)


Lemma dlseg_with_cnt h a b v prev p l last nxt :
  h !! a = Some b -> dlseg h prev p l last nxt ->
  dlseg (<[a := with_cnt v b]> h) prev p l last nxt.
Proof.
  intros Ha. revert prev p. induction l as [|x l IH]; intros prev p Hseg; [done|].
  destruct Hseg as (-> & bx & Hbx & Hprev & Hrest). split; [done|].
  destruct (decide (a = x)) as [->|Hne].
  - rewrite Ha in Hbx. injection Hbx as <-.
    exists (with_cnt v b). rewrite lookup_insert_eq. split_and!; [done..|].
    by apply IH.
  - exists bx. rewrite lookup_insert_ne by done. split_and!; [done..|].
    by apply IH.
Qed.

(** Changing the count of a block leaves the cache well formed. *)
Lemma cache_ok_with_cnt c l a b v :
  cache_ok c l -> heap c !! a = Some b ->
  cache_ok (mk_cache (<[a := with_cnt v b]> (heap c)) (cacheBlockHead c)
              (cacheBlockTail c) (cache_size c)) l.
Proof.
  intros [Hseg Hnd Hsz Htot Hcap] Ha.
  assert (Hsame : forall x, size_at (<[a := with_cnt v b]> (heap c)) x
                            = size_at (heap c) x).
  { intros x. unfold size_at. destruct (decide (a = x)) as [->|Hne].
    - by rewrite lookup_insert_eq, Ha.
    - by rewrite lookup_insert_ne. }
  split; cbn [heap cacheBlockHead cacheBlockTail cache_size]; try done.
  - by apply dlseg_with_cnt.
  - eapply Forall_impl; [exact Hsz|]. intros x Hx. simpl. by rewrite Hsame.
  - rewrite Htot. symmetry. apply total_size_agree. intros; apply Hsame.
Qed.

(** The first block of [l] with the URL, if there is one. *)
Lemma first_key h url (l : list addr) :
  Forall (fun x => key_at h x <> Some url) l \/
  exists l1 a l2, l = l1 ++ a :: l2 /\
    Forall (fun x => key_at h x <> Some url) l1 /\ key_at h a = Some url.
Proof.
  induction l as [|x l IH]; [left; constructor|].
  destruct (decide (key_at h x = Some url)) as [Hx|Hx].
  - right. exists [], x, l. split_and!; [done | constructor | done].
  - destruct IH as [IH|(l1 & a & l2 & -> & H1 & Ha)].
    + left. by constructor.
    + right. exists (x :: l1), a, l2. split_and!; [done | by constructor | done].
Qed.













Lemma data_lookup (h h' : gmap addr cache_block) x b :
  data <$> h' !! x = data <$> h !! x -> h !! x = Some b ->
  exists b', h' !! x = Some b' /\ data b' = data b.
Proof.
  intros H Hb. rewrite Hb in H. destruct (h' !! x) as [b'|]; [|done].
  exists b'. split; [done|]. simpl in H. congruence.
Qed.

Lemma data_fields b b' :
  data b' = data b ->
  cache_uri_key b' = cache_uri_key b /\ cache_obj b' = cache_obj b /\
  cache_obj_size b' = cache_obj_size b /\
  readReferenceCnt b' = readReferenceCnt b.
Proof. unfold data. intros H. by simplify_eq. Qed.

Lemma data_tuple b k o s n :
  data b = (k, o, s, n) ->
  cache_uri_key b = k /\ cache_obj b = o /\ cache_obj_size b = s /\
  readReferenceCnt b = n.
Proof. unfold data. intros H. by simplify_eq. Qed.

Lemma data_payload b b' : data b' = data b -> payload b' = payload b.
Proof.
  intros H. apply data_fields in H as (H1 & H2 & H3 & _).
  unfold payload. by rewrite H1, H2, H3.
Qed.






(** ** Sample caches, checked by running *)

Lemma cache_okb_ok c l :
  walk_ok (S (size (heap c))) (heap c) None (cacheBlockHead c)
    (cacheBlockTail c) = Some l ->
  cache_okb c = true -> cache_ok c l.
Proof.
  unfold cache_okb. intros Hw. rewrite Hw.
  rewrite !andb_true_iff. intros [[[Hnd Hsz] Htot] Hcap]. split.
  - by apply walk_ok_dlseg in Hw.
  - by apply bool_decide_eq_true in Hnd.
  - apply Forall_forall. intros a Ha. rewrite forallb_forall in Hsz.
    apply Z.leb_le, Hsz. by apply list_elem_of_In.
  - by apply Z.eqb_eq.
  - by apply Z.leb_le.
Qed.

Ltac by_run := vm_compute; reflexivity.
Ltac wf_run := apply cache_okb_wf; by_run.
Ltac unpinned_run :=
  unfold all_unpinned; refine (bool_decide_eq_true_1 (Forall _ _) _); by_run.
Ltac absent_run := refine (bool_decide_eq_true_1 (_ ∉ _) _); by_run.


(** ** Entries and their sizes *)

Lemma entries_size_cons d es :
  entries_size (d :: es) = d.1.2 + entries_size es.
Proof. done. Qed.

Lemma entries_size_total h l :
  entries_size (map (fun a => data (block_at h a)) l) = total_size h l.
Proof.
  induction l as [|a l IH]; [done|]. cbn [map]. rewrite entries_size_cons, IH.
  simpl. by rewrite size_at_block.
Qed.

Lemma entries_size_app e1 e2 :
  entries_size (e1 ++ e2) = entries_size e1 + entries_size e2.
Proof.
  induction e1 as [|d e1 IH]; [done|]. cbn [app].
  rewrite !entries_size_cons, IH. lia.
Qed.




(** ** Lookup *)

Lemma key_at_block h a b : h !! a = Some b -> key_at h a = Some (cache_uri_key b).
Proof. unfold key_at. by intros ->. Qed.

Lemma cache_uris_not_in c l url :
  cache_ok c l ->
  Forall (fun x => key_at (heap c) x <> Some url) l -> url ∉ cache_uris c.
Proof.
  intros Hok Hkeys Hin. rewrite (cache_uris_ok c l Hok) in Hin.
  apply list_elem_of_In, in_map_iff in Hin as (x & Hx & Hin).
  apply list_elem_of_In in Hin.
  rewrite Forall_forall in Hkeys. apply (Hkeys x Hin).
  rewrite (key_at_block _ _ _ (cache_ok_lookup c l x Hok Hin)). by rewrite Hx.
Qed.

Lemma cache_uris_in c l a url :
  cache_ok c l -> a ∈ l -> key_at (heap c) a = Some url -> url ∈ cache_uris c.
Proof.
  intros Hok Hin Hk. rewrite (cache_uris_ok c l Hok).
  rewrite (key_at_block _ _ _ (cache_ok_lookup c l a Hok Hin)) in Hk.
  injection Hk as <-.
  apply list_elem_of_In,
    (in_map (fun a => cache_uri_key (block_at (heap c) a))).
  by apply list_elem_of_In.
Qed.

(** X2.  A lookup finds the URLs that are in the cache, and those only.  On
    a well formed cache [cache_find] returns: [NULL] when no entry has the
    URL, and then the cache is as it was; a handle when some entry has it,
    and then the block has that URL and is the tail of the list.  Either way
    the cache stays well formed, its size field is what it was, and it holds
    the same URLs as before, reordered at most. *)
Theorem cache_find_finds_what_is_cached (c : Cache) (url : string) :
  cache_wf c ->
  exists p c',
    cache_find url c = inr (p, c') /\
    cache_wf c' /\ cache_size c' = cache_size c /\
    cache_uris c' ≡ₚ cache_uris c /\
    match p with
    | None => (url ∉ cache_uris c) /\ c' = c
    | Some a => (url ∈ cache_uris c) /\ key_at (heap c') a = Some url /\
                cacheBlockTail c' = Some a
    end.
Proof.
  intros [l Hok].
  destruct (first_key (heap c) url l) as [Hmiss|(l1 & a & l2 & -> & Hkeys & Ha)].
  { exists None, c. split_and!; try done.
    - by eapply cache_find_miss.
    - by exists l.
    - by eapply cache_uris_not_in. }
  pose proof Ha as Hka. unfold key_at in Ha.
  destruct (heap c !! a) as [ba|] eqn:Hba; [|done]. simpl in Ha. injection Ha as Hkey.
  destruct (cache_find_hit_ok url c l1 a l2 ba Hok Hkeys Hba Hkey)
    as (c' & Hrun & Hok' & Hdata).
  assert (Hp : forall x,
            payload (block_at (heap c') x) = payload (block_at (heap c) x)).
  { intros x. unfold block_at. specialize (Hdata x).
    destruct (decide (a = x)) as [<-|Hne].
    - rewrite lookup_insert_eq in Hdata. rewrite Hba.
      destruct (heap c' !! a) as [b'|]; [|done].
      simpl in Hdata |- *.
      assert (Hd : data b' = data (with_cnt (int_wrap (readReferenceCnt ba + 1)) ba))
        by congruence.
      by apply data_payload in Hd.
    - rewrite lookup_insert_ne in Hdata by done.
      destruct (heap c !! x) as [b0|], (heap c' !! x) as [b1|];
        simpl in *; try done.
      assert (Hd : data b1 = data b0) by congruence.
      by apply data_payload in Hd. }
  exists (Some a), c'. split_and!; try done.
  - by exists (l1 ++ l2 ++ [a]).
  - rewrite (ok_total _ _ Hok'), (ok_total _ _ Hok), total_size_move.
    apply total_size_agree. intros x _. rewrite !size_at_block.
    specialize (Hp x). unfold payload in Hp. congruence.
  - rewrite (cache_uris_ok _ _ Hok'), (cache_uris_ok _ _ Hok).
    rewrite (map_ext (fun a => cache_uri_key (block_at (heap c') a))
                     (fun a => cache_uri_key (block_at (heap c) a))).
    2:{ intros x. specialize (Hp x). unfold payload in Hp. congruence. }
    apply Permutation_map.
    apply Permutation_app_head. symmetry. apply Permutation_cons_append.
  - eapply cache_uris_in; [done | | done]. apply elem_of_app. right. by left.
  - rewrite <- (same_data_key _ _ a Hdata). unfold key_at.
    by rewrite lookup_insert_eq, <- Hkey.
  - destruct Hok' as [Hseg' _ _ _ _].
    rewrite app_assoc in Hseg'. by apply dlseg_last in Hseg'.
Qed.

Lemma cache_find_finds_what_is_cached_witness :
  cache_wf cache_AB /\
  exists p c',
    cache_find "A" cache_AB = inr (p, c') /\
    cache_wf c' /\ cache_size c' = cache_size cache_AB /\
    cache_uris c' ≡ₚ cache_uris cache_AB /\
    match p with
    | None => ("A"%string ∉ cache_uris cache_AB) /\ c' = cache_AB
    | Some a => ("A"%string ∈ cache_uris cache_AB) /\
                key_at (heap c') a = Some "A"%string /\
                cacheBlockTail c' = Some a
    end.
Proof.
  assert (H1 : cache_wf cache_AB) by wf_run.
  split; [exact H1|].
  exact (cache_find_finds_what_is_cached cache_AB "A" H1).
Defined.

(** ** A hit and the return of its handle *)

(** The list of a well formed cache whose tail is [a] ends with [a]. *)
Lemma cache_ok_tail c l a :
  cache_ok c l -> cacheBlockTail c = Some a -> exists l', l = l' ++ [a].
Proof.
  intros [Hseg _ _ _ _] Htl. destruct l as [|x l].
  - destruct Hseg as [_ Hl]. congruence.
  - destruct (dlseg_nonempty_last _ _ _ (x :: l) _ _ ltac:(done) Hseg)
      as (l' & t & -> & Ht).
    exists l'. congruence.
Qed.

(** Setting the count of the tail block changes the last entry only. *)
Lemma entries_with_cnt_tail c l a b v :
  cache_ok c (l ++ [a]) -> heap c !! a = Some b ->
  let c' := mk_cache (<[a := with_cnt v b]> (heap c)) (cacheBlockHead c)
              (cacheBlockTail c) (cache_size c) in
  cache_ok c' (l ++ [a]) /\
  entries c' = map (fun x => data (block_at (heap c) x)) l
               ++ [(cache_uri_key b, cache_obj b, cache_obj_size b, v)].
Proof.
  intros Hok Hb c'. pose proof (cache_ok_with_cnt c _ a b v Hok Hb) as Hok'.
  split; [done|]. fold c' in Hok'.
  rewrite (entries_ok c' _ Hok'), map_app. cbn [map heap c'].
  unfold block_at at 2. rewrite lookup_insert_eq. cbn [default]. f_equal.
  apply map_ext_in. intros x Hx. unfold block_at.
  rewrite lookup_insert_ne; [done|]. intros ->.
  destruct Hok as [_ Hnd _ _ _]. apply NoDup_app in Hnd as (_ & Hd & _).
  apply (Hd x); [by apply list_elem_of_In | by left].
Qed.

(** A hit on the first entry with the URL, followed by the return of the
    handle: the entry is moved to the end of the list and nothing else
    changes. *)
Lemma hit_then_release url c e1 o s k e2 :
  cache_wf c ->
  entries c = e1 ++ (url, o, s, k) :: e2 ->
  Forall (fun d => entry_key d <> url) e1 ->
  - 2 ^ 31 <= k < 2 ^ 31 - 1 ->
  exists a c1 b c2,
    cache_find url c = inr (Some a, c1) /\
    heap c1 !! a = Some b /\ payload b = (url, o, s) /\
    release_handle (Some a) c1 = inr (tt, c2) /\
    cache_wf c2 /\
    entries c2 = e1 ++ e2 ++ [(url, o, s, k)].
Proof.
  intros Hwf Hent Hall Hk.
  destruct (cache_find_entries_hit url c e1 o s k e2 Hwf Hent Hall)
    as (a & c1 & Hfind & [l1 Hok1] & Hent1 & Htl & _ & _ & Hdata).
  rewrite int_wrap_small in Hent1, Hdata by lia.
  destruct (heap c1 !! a) as [b|] eqn:Hb; [|done].
  simpl in Hdata. assert (Hd : data b = (url, o, s, k + 1)) by congruence.
  apply data_tuple in Hd as (Hkey & Hobj & Hsize & Hcnt).
  destruct (cache_ok_tail c1 l1 a Hok1 Htl) as [l1' ->].
  destruct (entries_with_cnt_tail c1 l1' a b k Hok1 Hb) as [Hok2 Hent2].
  exists a, c1, b. eexists. split_and!; [done | done | | | |].
  - unfold payload. by rewrite Hkey, Hobj, Hsize.
  - rewrite (release_handle_run c1 a b Hb). rewrite Hcnt.
    replace (k + 1 - 1) with k by lia. by rewrite int_wrap_small by lia.
  - by eexists.
  - rewrite Hent2, Hkey, Hobj, Hsize.
    rewrite (entries_ok c1 _ Hok1), map_app in Hent1. cbn [map] in Hent1.
    rewrite app_assoc in Hent1 |- *. apply app_inj_tail in Hent1 as [-> _].
    done.
Qed.

Lemma serve_hit_run c a b c2 :
  heap c !! a = Some b ->
  0 <= cache_obj_size b <= Z.of_nat (length (cache_obj b)) ->
  release_handle (Some a) c = inr (tt, c2) ->
  serve_hit (Some a) c
  = inr (take (Z.to_nat (cache_obj_size b)) (cache_obj b), c2).
Proof.
  intros Hb Hs Hrel. unfold serve_hit. step Hb. unfold memcpy_from.
  destruct (Z.ltb_spec (Z.of_nat (length (cache_obj b))) (cache_obj_size b));
    [lia|].
  pure. by rewrite (bind_inr _ _ _ _ _ Hrel).
Qed.

(** ** What is stored is what is found *)

(** X3.  An object stored under a URL that is not cached is what a lookup of
    that URL then finds and what is sent from it.  On a well formed cache
    with no block in use and no entry for [uri], for a body [buf] of at most
    [MAX_CACHE_SIZE] bytes: [cache_uri] returns; [cache_find] of [uri] then
    returns a handle; sending the object through the handle and giving the
    handle back sends exactly [buf], and leaves the entries as the
    insertion left them. *)
Theorem stored_object_is_served_back (c : Cache) (uri : string)
    (buf : list byte) :
  cache_wf c -> all_unpinned c -> uri ∉ cache_uris c ->
  Z.of_nat (length buf) <= MAX_CACHE_SIZE ->
  exists c1 a c2 c3,
    cache_uri uri buf (Z.of_nat (length buf)) c = inr (tt, c1) /\
    cache_find uri c1 = inr (Some a, c2) /\
    serve_hit (Some a) c2 = inr (buf, c3) /\
    cache_wf c3 /\ entries c3 = entries c1.
Proof.
  intros Hwf Hun Hout Hfit.
  destruct (cache_uri_entries c uri buf (Z.of_nat (length buf)) Hwf
              ltac:(lia) Hfit)
    as [[_ Hpin] | (c1 & e0 & e' & Hent & Hrun & Hwf1 & Hent1 & _)]; [done|].
  rewrite take_whole in Hent1.
  assert (Hkeys : Forall (fun d => entry_key d <> uri) e').
  { apply Forall_forall. intros d Hd Hk. apply Hout.
    rewrite cache_uris_entries, Hent, map_app. apply elem_of_app. right.
    rewrite <- Hk. apply list_elem_of_In, in_map. by apply list_elem_of_In. }
  destruct (hit_then_release uri c1 e' buf (Z.of_nat (length buf)) 0 []
              Hwf1 Hent1 Hkeys ltac:(lia))
    as (a & c2 & b & c3 & Hfind & Hb & Hp & Hrel & Hwf3 & Hent3).
  unfold payload in Hp. injection Hp as Hkey Hobj Hsize.
  exists c1, a, c2, c3. split_and!; [done | done | | done |].
  - rewrite (serve_hit_run c2 a b c3 Hb ltac:(rewrite Hsize, Hobj; lia) Hrel).
    by rewrite Hsize, Hobj, take_whole.
  - by rewrite Hent3, Hent1.
Qed.

Lemma stored_object_is_served_back_witness :
  cache_wf ten_objects /\ all_unpinned ten_objects /\
  ("u11"%string ∉ cache_uris ten_objects) /\
  Z.of_nat (length object_100k) <= MAX_CACHE_SIZE /\
  exists c1 a c2 c3,
    cache_uri "u11" object_100k (Z.of_nat (length object_100k)) ten_objects
    = inr (tt, c1) /\
    cache_find "u11" c1 = inr (Some a, c2) /\
    serve_hit (Some a) c2 = inr (object_100k, c3) /\
    cache_wf c3 /\ entries c3 = entries c1.
Proof.
  assert (H1 : cache_wf ten_objects) by wf_run.
  assert (H2 : all_unpinned ten_objects) by unpinned_run.
  assert (H3 : "u11"%string ∉ cache_uris ten_objects) by absent_run.
  assert (H4 : Z.of_nat (length object_100k) <= MAX_CACHE_SIZE).
  { apply Z.leb_le. by_run. }
  split_and!; [done..|].
  exact (stored_object_is_served_back ten_objects "u11" object_100k
           H1 H2 H3 H4).
Defined.

(** ** Insertion and recency *)

Lemma all_unpinned_entries c :
  all_unpinned c <-> Forall (fun d => d.2 = 0) (entries c).
Proof. unfold all_unpinned, entries. by rewrite Forall_map. Qed.

(** An insertion on a cache with no block in use, in terms of entries: the
    entries [e0] at the head are dropped, the rest is kept, the new entry is
    appended; what is kept fits with the new entry, and would not with one
    more entry. *)
Lemma cache_uri_entries_run c uri buf :
  cache_wf c -> all_unpinned c ->
  Z.of_nat (length buf) <= MAX_CACHE_SIZE ->
  exists c' e0 e',
    cache_uri uri buf (Z.of_nat (length buf)) c = inr (tt, c') /\
    cache_wf c' /\
    entries c = e0 ++ e' /\
    entries c' = e' ++ [(uri, buf, Z.of_nat (length buf), 0)] /\
    cache_size c' = entries_size e' + Z.of_nat (length buf) /\
    cache_size c' <= MAX_CACHE_SIZE /\
    (forall e x, e0 = e ++ [x] ->
       MAX_CACHE_SIZE < entries_size (x :: e') + Z.of_nat (length buf)).
Proof.
  intros [l Hok] Hun Hfit. apply (all_unpinned_ok c l Hok) in Hun.
  set (n := Z.of_nat (length buf)) in *.
  assert (Hmax : MAX_CACHE_SIZE = 1048576) by done.
  destruct (cache_uri_run c l uri buf n Hok ltac:(lia) ltac:(lia))
    as (l' & El & Hr & _).
  remember (evicted (heap c) (cache_size c + n - MAX_CACHE_SIZE) 0 l) as l0
    eqn:El0.
  assert (Hun0 : unpinned (heap c) l0).
  { unfold unpinned in *. rewrite El in Hun. by apply Forall_app in Hun as [? _]. }
  destruct (Hr Hun0) as (c' & a & Hrun & Hseg' & Hnd' & Hdata & Hnew & Hsize & _).
  pose proof Hok as [Hseg Hnd Hsz Htot Hcap].
  assert (Hba : exists ba, heap c' !! a = Some ba /\
                           data ba = (uri, take (Z.to_nat n) buf, n, 0)).
  { destruct (heap c' !! a) as [ba|]; [|done]. exists ba. split; [done|].
    simpl in Hnew. congruence. }
  destruct Hba as (ba & Hba & Hdba).
  assert (Hsa : size_at (heap c') a = n).
  { unfold size_at. rewrite Hba. simpl.
    by apply data_tuple in Hdba as (_ & _ & ? & _). }
  assert (Htot' : total_size (heap c) l = total_size (heap c) l0
                                          + total_size (heap c) l').
  { by rewrite El, total_size_app. }
  assert (Hsz0 : 0 <= total_size (heap c) l0).
  { apply total_size_nonneg. rewrite El in Hsz. by apply Forall_app in Hsz as [? _]. }
  assert (Hcap' : total_size (heap c) l' + n <= MAX_CACHE_SIZE).
  { destruct l' as [|x l'].
    - simpl. lia.
    - rewrite El0 in El. pose proof
        (evicted_enough (heap c) _ l 0 (x :: l') El ltac:(done)) as He.
      rewrite <- El0 in He. lia. }
  assert (Hok' : cache_ok c' (l' ++ [a])).
  { split; try done.
    - apply Forall_app. split.
      + apply Forall_forall. intros x Hx.
        rewrite (data_size_at _ _ x (Hdata x Hx)).
        rewrite Forall_forall in Hsz. apply Hsz. rewrite El.
        apply elem_of_app. by right.
      + apply Forall_singleton. lia.
    - rewrite Hsize, total_size_app. simpl. rewrite Hsa.
      rewrite (total_size_data (heap c) (heap c') l' Hdata). lia.
    - lia. }
  exists c', (map (fun x => data (block_at (heap c) x)) l0),
         (map (fun x => data (block_at (heap c) x)) l').
  rewrite !entries_size_total.
  split_and!; try done.
  - by eexists.
  - by rewrite (entries_ok c l Hok), <- map_app, <- El.
  - rewrite (entries_ok c' _ Hok'), map_app. cbn [map].
    rewrite (entries_agree _ _ l' Hdata). f_equal.
    rewrite (block_at_data_some _ _ _ Hnew). unfold n. by rewrite take_whole.
  - lia.
  - intros e x He.
    apply map_eq_app in He as (l1 & l2 & El1 & <- & Hl2).
    destruct l2 as [|y [|? ?]]; try done.
    rewrite El1 in El0. symmetry in El0.
    pose proof (evicted_minimal (heap c) _ l 0 l1 y El0) as Hmin.
    cbn [map] in Hl2. injection Hl2 as <-.
    rewrite entries_size_cons, entries_size_total.
    cbn [fst snd data]. rewrite <- size_at_block.
    rewrite Htot, Htot', El1, total_size_app in Hmin. simpl in Hmin. lia.
Qed.

(** X4.  An insertion keeps the most recently used entries that fit.  On a
    well formed cache with no block in use, for a body of at most
    [MAX_CACHE_SIZE] bytes, [cache_uri] returns a well formed cache: the
    entries [e0] nearest the head are gone, the others [e'] are kept as they
    were and in their order, and the new entry comes last, with no
    reference; the size field is the size of [e'] plus that of the body and
    is within the cap; and [e0] is as short as can be: with the last entry
    of [e0] kept too, the cap would be exceeded. *)
Theorem cache_uri_keeps_most_recent (c : Cache) (uri : string)
    (buf : list byte) :
  cache_wf c -> all_unpinned c ->
  Z.of_nat (length buf) <= MAX_CACHE_SIZE ->
  exists c' e0 e',
    cache_uri uri buf (Z.of_nat (length buf)) c = inr (tt, c') /\
    cache_wf c' /\
    entries c = e0 ++ e' /\
    entries c' = e' ++ [(uri, buf, Z.of_nat (length buf), 0)] /\
    cache_size c' = entries_size e' + Z.of_nat (length buf) /\
    cache_size c' <= MAX_CACHE_SIZE /\
    (forall e x, e0 = e ++ [x] ->
       MAX_CACHE_SIZE < entries_size (x :: e') + Z.of_nat (length buf)).
Proof.
  intros Hwf Hun Hfit.
  destruct (cache_uri_entries_run c uri buf Hwf Hun Hfit)
    as (c' & e0 & e' & H).
  by exists c', e0, e'.
Qed.

Lemma cache_uri_keeps_most_recent_witness :
  cache_wf ten_objects /\ all_unpinned ten_objects /\
  Z.of_nat (length object_100k) <= MAX_CACHE_SIZE /\
  exists c' e0 e',
    cache_uri "u11" object_100k (Z.of_nat (length object_100k)) ten_objects
    = inr (tt, c') /\
    cache_wf c' /\
    entries ten_objects = e0 ++ e' /\
    entries c'
    = e' ++ [("u11"%string, object_100k, Z.of_nat (length object_100k), 0)] /\
    cache_size c' = entries_size e' + Z.of_nat (length object_100k) /\
    cache_size c' <= MAX_CACHE_SIZE /\
    (forall e x, e0 = e ++ [x] ->
       MAX_CACHE_SIZE
       < entries_size (x :: e') + Z.of_nat (length object_100k)).
Proof.
  assert (H1 : cache_wf ten_objects) by wf_run.
  assert (H2 : all_unpinned ten_objects) by unpinned_run.
  assert (H3 : Z.of_nat (length object_100k) <= MAX_CACHE_SIZE).
  { apply Z.leb_le. by_run. }
  split_and!; [done..|].
  exact (cache_uri_keeps_most_recent ten_objects "u11" object_100k H1 H2 H3).
Defined.

(** X5.  The entry just used is the last to go.  On a well formed cache
    with no block in use, a lookup finds the entry for [url]; once its handle
    is given back, an insertion of a body that fits beside that entry under
    [MAX_CACHE_SIZE] returns and does not evict it, whatever else it evicts:
    the cache then ends with that entry and the new one, after some of the
    other entries. *)
Theorem looked_up_entry_survives_insert (c : Cache) (url uri : string)
    (buf : list byte) e1 o s e2 :
  cache_wf c -> all_unpinned c ->
  entries c = e1 ++ (url, o, s, 0) :: e2 ->
  Forall (fun d => entry_key d <> url) e1 ->
  s + Z.of_nat (length buf) <= MAX_CACHE_SIZE ->
  exists a c1 c2 c3 e0 e',
    cache_find url c = inr (Some a, c1) /\
    release_handle (Some a) c1 = inr (tt, c2) /\
    cache_uri uri buf (Z.of_nat (length buf)) c2 = inr (tt, c3) /\
    e1 ++ e2 = e0 ++ e' /\
    entries c3 = e' ++ [(url, o, s, 0); (uri, buf, Z.of_nat (length buf), 0)].
Proof.
  intros Hwf Hun Hent Hkeys Hfit.
  destruct (hit_then_release url c e1 o s 0 e2 Hwf Hent Hkeys ltac:(lia))
    as (a & c1 & b & c2 & Hfind & _ & _ & Hrel & Hwf2 & Hent2).
  assert (Hun2 : all_unpinned c2).
  { apply all_unpinned_entries. rewrite Hent2.
    apply all_unpinned_entries in Hun. rewrite Hent in Hun.
    apply Forall_app in Hun as [H1 H2]. apply Forall_cons in H2 as [H2 H3].
    apply Forall_app. split; [done|]. apply Forall_app. split; [done|].
    by apply Forall_singleton. }
  assert (Hs : 0 <= s).
  { destruct Hwf as [l Hok]. pose proof (ok_sizes _ _ Hok) as Hsz.
    rewrite (entries_ok c l Hok) in Hent.
    apply map_eq_app in Hent as (l1 & l2 & -> & _ & Hl2).
    destruct l2 as [|x l2]; [done|]. cbn [map] in Hl2. injection Hl2 as Hx _.
    apply Forall_app in Hsz as [_ Hsz]. apply Forall_cons in Hsz as [Hsz _].
    rewrite size_at_block in Hsz. unfold data in Hx. by simplify_eq. }
  destruct (cache_uri_entries_run c2 uri buf Hwf2 Hun2 ltac:(lia))
    as (c3 & e0 & e' & Hrun & _ & Hsplit & Hent3 & _ & _ & Hmin).
  rewrite Hent2, app_assoc in Hsplit.
  destruct e' as [|d e' _] using rev_ind.
  - rewrite app_nil_r in Hsplit. specialize (Hmin _ _ (eq_sym Hsplit)).
    rewrite entries_size_cons in Hmin. simpl in Hmin. lia.
  - rewrite app_assoc in Hsplit. apply app_inj_tail in Hsplit as [Hsplit <-].
    exists a, c1, c2, c3, e0, e'. split_and!; try done.
    by rewrite Hent3, <- app_assoc.
Qed.

Lemma looked_up_entry_survives_insert_witness :
  cache_wf cache_AB /\ all_unpinned cache_AB /\
  entries cache_AB
  = [] ++ ("A"%string, [x41], 1, 0) :: [("B"%string, [x42], 1, 0)] /\
  1 + Z.of_nat (length [x43]) <= MAX_CACHE_SIZE /\
  exists a c1 c2 c3 e0 e',
    cache_find "A" cache_AB = inr (Some a, c1) /\
    release_handle (Some a) c1 = inr (tt, c2) /\
    cache_uri "C" [x43] (Z.of_nat (length [x43])) c2 = inr (tt, c3) /\
    [] ++ [("B"%string, [x42], 1, 0)] = e0 ++ e' /\
    entries c3
    = e' ++ [("A"%string, [x41], 1, 0);
             ("C"%string, [x43], Z.of_nat (length [x43]), 0)].
Proof.
  assert (H1 : cache_wf cache_AB) by wf_run.
  assert (H2 : all_unpinned cache_AB) by unpinned_run.
  assert (H3 : entries cache_AB
               = [] ++ ("A"%string, [x41], 1, 0)
                       :: [("B"%string, [x42], 1, 0)]) by by_run.
  assert (H4 : 1 + Z.of_nat (length [x43]) <= MAX_CACHE_SIZE).
  { apply Z.leb_le. by_run. }
  split_and!; [done..|].
  exact (looked_up_entry_survives_insert cache_AB "A" "C" [x43] [] [x41] 1
           [("B"%string, [x42], 1, 0)] H1 H2 H3 (Forall_nil_2 _) H4).
Defined.

(** When more is asked than the whole list holds, all of it is freed. *)
Lemma evicted_all h req l : forall freed,
  Forall (fun a => 0 <= size_at h a) l ->
  freed + total_size h l < req -> evicted h req freed l = l.
Proof.
  induction l as [|a l IH]; intros freed Hsz Hlt; [done|].
  apply Forall_cons in Hsz as [Ha Hsz]. simpl in Hlt |- *.
  pose proof (total_size_nonneg _ _ Hsz).
  destruct (Z.ltb_spec freed req); [|lia]. f_equal. apply IH; [done | lia].
Qed.

(** X6.  [cache_uri] does not itself bound the object.  With a body longer
    than [MAX_CACHE_SIZE], on a well formed cache with no block in use, it
    frees every entry and stores the body alone; the size field is then the
    length of the body, above the cap. *)
Theorem cache_uri_of_oversized_object (c : Cache) (uri : string)
    (buf : list byte) :
  cache_wf c -> all_unpinned c ->
  MAX_CACHE_SIZE < Z.of_nat (length buf) < 2 ^ 63 ->
  exists c',
    cache_uri uri buf (Z.of_nat (length buf)) c = inr (tt, c') /\
    entries c' = [(uri, buf, Z.of_nat (length buf), 0)] /\
    cache_size c' = Z.of_nat (length buf) /\
    MAX_CACHE_SIZE < cache_size c'.
Proof.
  intros [l Hok] Hun Hbig. apply (all_unpinned_ok c l Hok) in Hun.
  set (n := Z.of_nat (length buf)) in *.
  destruct (cache_uri_run c l uri buf n Hok ltac:(lia) ltac:(lia))
    as (l' & El & Hr & _).
  pose proof Hok as [Hseg Hnd Hsz Htot Hcap].
  assert (Hev : evicted (heap c) (cache_size c + n - MAX_CACHE_SIZE) 0 l = l).
  { apply evicted_all; [done | lia]. }
  rewrite Hev in El, Hr.
  assert (l' = []) as ->.
  { apply (f_equal length) in El. rewrite length_app in El.
    destruct l'; [done | simpl in El; lia]. }
  destruct (Hr Hun) as (c' & a & Hrun & Hseg' & Hnd' & _ & Hnew & Hsize & _).
  exists c'. simpl in Hsize. split; [done|]. split; [|split; [done | lia]].
  unfold entries, cache_chain.
  rewrite (chain_dlseg (heap c') [a] _ _ _ _ Hseg').
  - simpl. rewrite (block_at_data_some _ _ _ Hnew). unfold n.
    by rewrite take_whole.
  - by apply (dlseg_length _ _ _ _ _ _ Hseg').
Qed.

Lemma cache_uri_of_oversized_object_witness :
  cache_wf cache_with_A /\ all_unpinned cache_with_A /\
  MAX_CACHE_SIZE < Z.of_nat (length (chunk (MAX_CACHE_SIZE + 1))) < 2 ^ 63 /\
  exists c',
    cache_uri "B" (chunk (MAX_CACHE_SIZE + 1))
      (Z.of_nat (length (chunk (MAX_CACHE_SIZE + 1)))) cache_with_A
    = inr (tt, c') /\
    entries c'
    = [("B"%string, chunk (MAX_CACHE_SIZE + 1),
        Z.of_nat (length (chunk (MAX_CACHE_SIZE + 1))), 0)] /\
    cache_size c' = Z.of_nat (length (chunk (MAX_CACHE_SIZE + 1))) /\
    MAX_CACHE_SIZE < cache_size c'.
Proof.
  assert (H1 : cache_wf cache_with_A) by wf_run.
  assert (H2 : all_unpinned cache_with_A) by unpinned_run.
  assert (H3 : MAX_CACHE_SIZE
               < Z.of_nat (length (chunk (MAX_CACHE_SIZE + 1))) < 2 ^ 63).
  { unfold chunk. rewrite repeat_length, Z2Nat.id; unfold MAX_CACHE_SIZE; lia. }
  split_and!; [done..|].
  exact (cache_uri_of_oversized_object cache_with_A "B"
           (chunk (MAX_CACHE_SIZE + 1)) H1 H2 H3).
Defined.

(** ** Any sequence of operations *)





(** ** Eviction that had to wait *)

(** X9.  [cache_eviction] waits for a block in use with the mutex released
    and then goes on with the pointer it had.  When the loop goes on at a
    block that is no longer in use but is by now the tail of the list, after
    other blocks (a lookup moved it there while the mutex was free), it
    frees that block, sets both head and tail to [NULL], takes the size of
    that block alone off the size field, and stops: the blocks before it
    stay allocated and are out of reach. *)
Theorem eviction_resumed_at_the_tail (c : Cache) (l : list addr) (a : addr)
    (b : cache_block) (reqBufSize sizeFreed : Z) (fuel : nat) :
  cache_ok c (l ++ [a]) -> l <> [] ->
  heap c !! a = Some b -> readReferenceCnt b = 0 ->
  0 <= sizeFreed < reqBufSize -> sizeFreed + cache_size c < 2 ^ 64 ->
  exists c',
    cache_eviction_loop (S (S fuel)) reqBufSize sizeFreed (Some a) c
    = inr (sizeFreed + cache_obj_size b <? reqBufSize, c') /\
    cacheBlockHead c' = None /\ cacheBlockTail c' = None /\
    heap c' = delete a (heap c) /\
    cache_size c' = cache_size c - cache_obj_size b /\
    cache_uris c' = [] /\
    Forall (fun x => is_Some (heap c' !! x)) l.
Proof.
  intros Hok Hl Hb Hcnt Hfreed Hov.
  pose proof Hok as [Hseg Hnd Hsz Htot Hcap].
  assert (Hnext : nextBlock b = None).
  { apply dlseg_app in Hseg as (q & m & _ & (_ & b' & Hb' & _ & Hn & _)).
    congruence. }
  assert (Hsize : 0 <= cache_obj_size b <= cache_size c).
  { assert (Hsa : size_at (heap c) a = cache_obj_size b)
      by (unfold size_at; by rewrite Hb).
    rewrite Htot, total_size_app. simpl. rewrite Hsa.
    apply Forall_app in Hsz as [Hsz1 Hsz2]. apply Forall_cons in Hsz2 as [Hsz2 _].
    rewrite Hsa in Hsz2.
    pose proof (total_size_nonneg _ _ Hsz1). lia. }
  eexists. split.
  - cbn [cache_eviction_loop is_null negb].
    destruct (Z.ltb_spec sizeFreed reqBufSize); [|lia]. cbn [andb].
    step Hb. rewrite Hcnt. cbn [Z.eqb negb]. step Hb.
    rewrite Hnext. cbn [is_null negb]. pure. step Hb. step Hb.
    unfold Free, bind at 1. cbn [heap]. rewrite Hb. pure.
    rewrite andb_false_r. rewrite !size_wrap_small by lia. reflexivity.
  - cbn [heap cacheBlockHead cacheBlockTail cache_size].
    split_and!; try done.
    { unfold cache_uris, cache_chain. cbn [heap cacheBlockHead].
      by destruct (size (delete a (heap c))). }
    apply Forall_forall. intros x Hx.
    assert (x <> a).
    { intros ->. apply NoDup_app in Hnd as (_ & Hd & _).
      apply (Hd a Hx). by left. }
    rewrite lookup_delete_ne by done.
    apply (dlseg_in _ _ _ _ _ _ x Hseg). apply elem_of_app. by left.
Qed.

Lemma eviction_resumed_at_the_tail_witness :
  cache_ok cache_AB ([1%positive] ++ [2%positive]) /\
  heap cache_AB !! 2%positive = Some (block_at (heap cache_AB) 2%positive) /\
  readReferenceCnt (block_at (heap cache_AB) 2%positive) = 0 /\
  exists c',
    cache_eviction_loop 2 5 0 (Some 2%positive) cache_AB
    = inr (0 + cache_obj_size (block_at (heap cache_AB) 2%positive) <? 5, c')
    /\
    cacheBlockHead c' = None /\ cacheBlockTail c' = None /\
    heap c' = delete 2%positive (heap cache_AB) /\
    cache_size c'
    = cache_size cache_AB
      - cache_obj_size (block_at (heap cache_AB) 2%positive) /\
    cache_uris c' = [] /\
    Forall (fun x => is_Some (heap c' !! x)) [1%positive].
Proof.
  assert (H1 : cache_ok cache_AB ([1%positive] ++ [2%positive])).
  { apply cache_okb_ok; by_run. }
  assert (H2 : heap cache_AB !! 2%positive
               = Some (block_at (heap cache_AB) 2%positive)) by by_run.
  assert (H3 : readReferenceCnt (block_at (heap cache_AB) 2%positive) = 0)
    by by_run.
  split_and!; [done..|].
  refine (eviction_resumed_at_the_tail cache_AB [1%positive] 2%positive _
            5 0 0 H1 _ H2 H3 _ _); [done | lia |].
  apply Z.ltb_lt. by_run.
Defined.

(** ** Blocks in use, in any state of the cache *)

Lemma same_data_lookup (h h' : gmap addr cache_block) a b :
  same_data h h' -> h !! a = Some b ->
  exists b', h' !! a = Some b' /\ data b' = data b.
Proof. intros H. apply data_lookup. by rewrite H. Qed.

Lemma same_data_sym h h' : same_data h h' -> same_data h' h.
Proof. intros H x. by rewrite H. Qed.

(** The unlinking of the head block, lines 151 to 160, changes links only. *)
Lemma unlink_head_same_data (p : option addr) (nx : option addr) c u c2 :
  (if negb (is_null nx) then
     set_head nx ;;;
     let* tempCacheLinePtr := next_of p in
     store_prev tempCacheLinePtr None
   else
     set_head None ;;;
     set_tail None) c = inr (u, c2) ->
  same_data (heap c) (heap c2).
Proof.
  intros H. destruct (negb (is_null nx)); inv_run; [|done].
  eapply same_data_insert; [eassumption | done].
Qed.

(** The eviction loop never frees a block in use, nor changes what it
    holds. *)
Lemma cache_eviction_loop_keeps fuel : forall req freed p c d c' a b,
  cache_eviction_loop fuel req freed p c = inr (d, c') ->
  heap c !! a = Some b -> readReferenceCnt b <> 0 ->
  exists b', heap c' !! a = Some b' /\ data b' = data b.
Proof.
  induction fuel as [|fuel IH]; intros req freed p c d c' a b Hrun Ha Hcnt;
    [done|].
  cbn [cache_eviction_loop] in Hrun.
  destruct ((freed <? req) && negb (is_null p)).
  2:{ inv_run. by exists b. }
  apply bind_inv in Hrun as (n & c0 & Hn & Hrun).
  apply (field_inv readReferenceCnt) in Hn as (-> & x & bx & -> & Hx & ->).
  destruct (Z.eqb_spec (readReferenceCnt bx) 0) as [Hz|]; [|done].
  cbn [negb] in Hrun.
  apply bind_inv in Hrun as (nx & c0 & Hnx & Hrun).
  apply (field_inv nextBlock) in Hnx as (-> & _ & _ & _ & _ & _).
  apply bind_inv in Hrun as (u & c2 & Hunlink & Hrun).
  apply unlink_head_same_data in Hunlink.
  destruct (same_data_lookup _ _ a b Hunlink Ha) as (b2 & Hb2 & Hd2).
  destruct (same_data_lookup _ _ x bx Hunlink Hx) as (bx2 & Hbx2 & Hdx2).
  assert (Hne : x <> a).
  { intros ->. rewrite Hb2 in Hbx2. injection Hbx2 as <-.
    apply data_fields in Hd2 as (_ & _ & _ & Hc2).
    apply data_fields in Hdx2 as (_ & _ & _ & Hcx). congruence. }
  assert (Hcnt2 : readReferenceCnt b2 <> 0).
  { apply data_fields in Hd2 as (_ & _ & _ & Hc2). congruence. }
  clear Hbx2 Hdx2 Hx Hz Hunlink Ha. inv_run.
  match goal with H : Free _ _ = inr _ |- _ =>
    apply Free_inv in H as [[? _] | (y & by' & [= <-] & _ & ->)]; [done|]
  end.
  match goal with H : cache_eviction_loop _ _ _ _ _ = inr _ |- _ =>
    cbn [heap cacheBlockHead] in H;
    destruct (IH _ _ _ _ _ _ a b2 H) as (b' & Hb' & Hd')
  end.
  - cbn [heap]. by rewrite lookup_delete_ne.
  - done.
  - exists b'. split; [done|]. unfold data in *. congruence.
Qed.

Lemma kept_insert (h : gmap addr cache_block) k v a b :
  (exists b', h !! a = Some b' /\ data b' = data b) ->
  (k = a -> exists bk, h !! k = Some bk /\ data v = data bk) ->
  exists b', <[k := v]> h !! a = Some b' /\ data b' = data b.
Proof.
  intros (b' & Hb' & Hd') Hk. destruct (decide (k = a)) as [Heq|Hne].
  - destruct (Hk Heq) as (bk & Hbk & Hdk). subst k.
    rewrite lookup_insert_eq. exists v. split; [done|]. congruence.
  - rewrite lookup_insert_ne by done. by exists b'.
Qed.

(** Linking a new block leaves every block there was as it is, links
    apart. *)
Lemma cache_uri_link_keeps uri buf n c u c' a b :
  cache_uri_link uri buf n c = inr (u, c') ->
  heap c !! a = Some b ->
  exists b', heap c' !! a = Some b' /\ data b' = data b.
Proof.
  unfold cache_uri_link. intros H Ha.
  assert (Hfresh : fresh (dom (heap c)) <> a).
  { intros Heq. pose proof (fresh_not_in_heap (heap c)). congruence. }
  inv_run.
  match goal with
  | H : (if _ then _ else _) _ = inr _ |- _ =>
    destruct (is_null _ && is_null _) in H
  end; inv_run;
  repeat (apply kept_insert;
          [| intros Heq; first [ by destruct (Hfresh Heq)
                               | eexists; split; [eassumption | reflexivity] ]]);
  by exists b.
Qed.

(** A hit counts one more reference to the block found and changes no
    other count, no URL, object or size. *)
Lemma cache_find_hit_keeps p c u c' a b :
  cache_find_hit p c = inr (u, c') ->
  heap c !! a = Some b ->
  exists b', heap c' !! a = Some b' /\
    data b' = data (if decide (p = Some a)
                    then with_cnt (int_wrap (readReferenceCnt b + 1)) b
                    else b).
Proof.
  unfold cache_find_hit. intros H Ha.
  apply bind_inv in H as (n & c0 & Hn & H).
  apply (field_inv readReferenceCnt) in Hn as (-> & x & bx & -> & Hx & ->).
  apply bind_inv in H as (u0 & c1 & Hst & H).
  unfold store_cnt in Hst.
  apply modify_inv in Hst as (y & by' & [= <-] & Hy & ->).
  rewrite Hx in Hy. injection Hy as <-.
  set (b1 := if decide (Some x = Some a)
             then with_cnt (int_wrap (readReferenceCnt b + 1)) b else b).
  assert (Hbase : exists b', <[x := with_cnt (int_wrap (readReferenceCnt bx + 1)) bx]>
                               (heap c) !! a = Some b' /\ data b' = data b1).
  { unfold b1. destruct (decide (Some x = Some a)) as [[= ->]|Hne].
    - rewrite lookup_insert_eq. rewrite Hx in Ha. injection Ha as <-. by eexists.
    - rewrite lookup_insert_ne by congruence. by exists b. }
  clearbody b1. clear Hx Ha.
  inv_run.
  repeat match goal with
  | H : (if ?cond then _ else _) _ = inr _ |- _ => destruct cond; inv_run
  end;
  repeat (apply kept_insert;
          [| intros Heq; eexists; split; [eassumption | reflexivity] ]);
  exact Hbase.
Qed.

Lemma cache_find_loop_keeps fuel : forall url p c q c' a b,
  cache_find_loop fuel url p c = inr (q, c') ->
  heap c !! a = Some b ->
  exists b', heap c' !! a = Some b' /\
    data b' = data (if decide (q = Some a)
                    then with_cnt (int_wrap (readReferenceCnt b + 1)) b
                    else b).
Proof.
  induction fuel as [|fuel IH]; intros url p c q c' a b Hrun Ha; [done|].
  cbn [cache_find_loop] in Hrun. destruct (is_null p).
  { inv_run. by exists b. }
  apply bind_inv in Hrun as (bp & c0 & Hl & Hrun).
  apply load_inv in Hl as (-> & x & -> & Hx).
  destruct (String.eqb url (cache_uri_key bp)).
  - apply bind_inv in Hrun as (u & c1 & Hhit & Hret).
    unfold ret in Hret. injection Hret as <- <-.
    by apply (cache_find_hit_keeps _ _ _ _ a b Hhit).
  - by apply (IH _ _ _ _ _ a b Hrun).
Qed.

(** X10.  A block in use is left alone, in whatever state the cache is.
    For every cache, well formed or not, and every block of its heap whose
    count of references is not zero: an eviction that returns has not freed
    the block, and the block holds the URL, object, size and count it held;
    the same for an insertion that returns; and a lookup that returns, which
    in no case frees a block, leaves its URL, object and size as they were
    and its count as it was, or one higher when it is the block found. *)
Theorem block_in_use_is_left_alone (c : Cache) (a : addr) (b : cache_block) :
  heap c !! a = Some b -> readReferenceCnt b <> 0 ->
  (forall reqBufSize d c',
     cache_eviction reqBufSize c = inr (d, c') ->
     exists b', heap c' !! a = Some b' /\ data b' = data b) /\
  (forall uri buf buffSize r c',
     cache_uri uri buf buffSize c = inr (r, c') ->
     exists b', heap c' !! a = Some b' /\ data b' = data b) /\
  (forall url p c',
     cache_find url c = inr (p, c') ->
     exists b', heap c' !! a = Some b' /\ payload b' = payload b /\
       readReferenceCnt b'
       = if decide (p = Some a)
         then int_wrap (readReferenceCnt b + 1) else readReferenceCnt b).
Proof.
  intros Ha Hcnt. split_and!.
  - intros req d c' Hrun. unfold cache_eviction in Hrun.
    apply bind_inv in Hrun as (hd & c0 & Hhd & Hrun).
    unfold get_head in Hhd. injection Hhd as <- <-.
    by apply (cache_eviction_loop_keeps _ _ _ _ _ _ _ a b Hrun).
  - intros uri buf n r c' Hrun. unfold cache_uri in Hrun.
    apply bind_inv in Hrun as (u & c1 & Hroom & Hlink).
    assert (Hb1 : exists b1, heap c1 !! a = Some b1 /\ data b1 = data b).
    { unfold cache_uri_room in Hroom.
      apply bind_inv in Hroom as (sz & c0 & Hsz & Hroom).
      unfold get_size in Hsz. injection Hsz as <- <-.
      destruct (MAX_CACHE_SIZE <? _).
      - apply bind_inv in Hroom as (sz' & c0 & Hsz & Hroom).
        unfold get_size in Hsz. injection Hsz as <- <-.
        apply bind_inv in Hroom as (d & c2 & Hev & Hret).
        unfold ret in Hret. simplify_eq.
        unfold cache_eviction in Hev.
        apply bind_inv in Hev as (hd & c0 & Hhd & Hev).
        unfold get_head in Hhd. injection Hhd as <- <-.
        by apply (cache_eviction_loop_keeps _ _ _ _ _ _ _ a b Hev).
      - unfold ret in Hroom. simplify_eq. by exists b. }
    destruct Hb1 as (b1 & Hb1 & Hd1).
    destruct (cache_uri_link_keeps _ _ _ _ _ _ a b1 Hlink Hb1) as (b' & Hb' & Hd').
    exists b'. split; [done | congruence].
  - intros url p c' Hrun. unfold cache_find in Hrun.
    apply bind_inv in Hrun as (hd & c0 & Hhd & Hrun).
    unfold get_head in Hhd. injection Hhd as <- <-.
    destruct (cache_find_loop_keeps _ _ _ _ _ _ a b Hrun Ha) as (b' & Hb' & Hd').
    exists b'. split; [done|].
    destruct (decide (p = Some a)); apply data_fields in Hd' as (Hk & Ho & Hs & Hc);
      unfold payload; rewrite Hk, Ho, Hs, Hc; done.
Qed.

Lemma block_in_use_is_left_alone_witness :
  heap cache_A_held !! 1%positive
  = Some (block_at (heap cache_A_held) 1%positive) /\
  readReferenceCnt (block_at (heap cache_A_held) 1%positive) = 1 /\
  (exists c', cache_find "A" cache_A_held = inr (Some 1%positive, c')) /\
  (exists c', cache_uri "B" [x42] 1 cache_A_held = inr (tt, c')) /\
  (forall url p c',
     cache_find url cache_A_held = inr (p, c') ->
     exists b', heap c' !! 1%positive = Some b' /\
       payload b' = payload (block_at (heap cache_A_held) 1%positive) /\
       readReferenceCnt b'
       = if decide (p = Some 1%positive)
         then int_wrap
                (readReferenceCnt (block_at (heap cache_A_held) 1%positive)
                 + 1)
         else readReferenceCnt (block_at (heap cache_A_held) 1%positive)).
Proof.
  assert (H1 : heap cache_A_held !! 1%positive
               = Some (block_at (heap cache_A_held) 1%positive)) by by_run.
  assert (H2 : readReferenceCnt (block_at (heap cache_A_held) 1%positive) = 1)
    by by_run.
  split_and!; [done.. | eexists; by_run | eexists; by_run |].
  refine (proj2 (proj2 (block_in_use_is_left_alone cache_A_held 1%positive _
                          H1 _))).
  rewrite H2. lia.
Defined.

Local Open Scope string_scope.
Local Open Scope Z_scope.

(** * Verification of the scan of the request line *)

Lemma append_cons ch (s t : string) : String ch s ++ t = String ch (s ++ t).
Proof. done. Qed.

Lemma append_nil (t : string) : "" ++ t = t.
Proof. done. Qed.

(** White space before a character that is none is skipped. *)
Lemma skip_space_gap (s : string) ch t :
  all_space s = true -> isspace ch = false ->
  skip_space (s ++ String ch t) = String ch t.
Proof.
  intros Hs Hch. induction s as [|x s IH].
  - rewrite append_nil. simpl. by rewrite Hch.
  - simpl in Hs. apply andb_true_iff in Hs as [Hx Hs].
    rewrite append_cons. simpl. rewrite Hx. by apply IH.
Qed.

(** [%s] reads up to the white space that follows. *)
Lemma scan_word_gap (w : string) ch t :
  no_space w = true -> isspace ch = true ->
  scan_word (w ++ String ch t) = (w, String ch t).
Proof.
  intros Hw Hch. induction w as [|x w IH].
  - rewrite append_nil. simpl. by rewrite Hch.
  - simpl in Hw. apply andb_true_iff in Hw as [Hx Hw].
    apply negb_true_iff in Hx.
    rewrite append_cons. simpl. rewrite Hx. by rewrite (IH Hw).
Qed.

Lemma is_word_inv s :
  is_word s = true ->
  exists ch t, s = String ch t /\ isspace ch = false /\ no_space s = true.
Proof.
  unfold is_word. destruct s as [|ch t]; [done|]. simpl.
  intros H. apply andb_true_iff in H as [Hch Ht].
  exists ch, t. split_and!; [done | by apply negb_true_iff |].
  by rewrite Hch, Ht.
Qed.

Lemma is_gap_inv s :
  is_gap s = true ->
  exists ch t, s = String ch t /\ isspace ch = true /\ all_space s = true.
Proof.
  unfold is_gap. destruct s as [|ch t]; [done|]. simpl.
  intros H. apply andb_true_iff in H as [Hch Ht].
  exists ch, t. split_and!; [done | done |]. by rewrite Hch, Ht.
Qed.

Lemma word_not_empty s : is_word s = true -> String.eqb s "" = false.
Proof. unfold is_word. by destruct s. Qed.

Lemma scan_literal_prefix (lit s : string) : scan_literal lit (lit ++ s) = Some s.
Proof.
  induction lit as [|ch lit IH]; [by destruct s|].
  rewrite append_cons. simpl. by rewrite Ascii.eqb_refl.
Qed.

(** A line of the usual shape scans whole. *)
Lemma sscanf_request_accepts (lead method gap1 uri gap2 rest : string)
    (version : ascii) :
  all_space lead = true -> is_word method = true -> is_gap gap1 = true ->
  is_word uri = true -> is_gap gap2 = true ->
  sscanf_request (lead ++ method ++ gap1 ++ uri ++ gap2 ++ "HTTP/1."
                  ++ String version rest)
  = (3, method, uri, version).
Proof.
  intros Hlead Hm Hg1 Hu Hg2.
  unfold sscanf_request.
  destruct (is_word_inv _ Hm) as (m & mt & Em & Hmc & Hmw).
  destruct (is_gap_inv _ Hg1) as (g1 & g1t & Eg1 & Hg1c & Hg1s).
  destruct (is_word_inv _ Hu) as (u & ut & Eu & Huc & Huw).
  destruct (is_gap_inv _ Hg2) as (g2 & g2t & Eg2 & Hg2c & Hg2s).
  rewrite Em at 1. rewrite append_cons, (skip_space_gap lead m _ Hlead Hmc).
  rewrite <- append_cons, <- Em.
  rewrite Eg1 at 1. rewrite append_cons, (scan_word_gap method g1 _ Hmw Hg1c).
  rewrite (word_not_empty _ Hm).
  rewrite <- append_cons, <- Eg1.
  rewrite Eu at 1. rewrite append_cons, (skip_space_gap gap1 u _ Hg1s Huc).
  rewrite <- append_cons, <- Eu.
  rewrite Eg2 at 1. rewrite append_cons, (scan_word_gap uri g2 _ Huw Hg2c).
  rewrite (word_not_empty _ Hu).
  rewrite <- append_cons, <- Eg2.
  change ("HTTP/1." ++ String version rest)
    with (String "H" ("TTP/1." ++ String version rest)).
  rewrite (skip_space_gap gap2 "H" _ Hg2s eq_refl).
  change (String "H" ("TTP/1." ++ String version rest))
    with ("HTTP/1." ++ String version rest).
  by rewrite scan_literal_prefix.
Qed.

(** X11.  The scan of line 205 reads every request line of the usual shape:
    a method, a URI, the literal [HTTP/1.] and a version character, with
    white space (one character at least) between them, whatever white space
    comes before and whatever text comes after.  It returns 3 and yields the
    method, the URI and the version character; so the line passes the first
    check exactly when the character is 0 or 1, and the method compared with
    GET is the method sent. *)
Theorem sscanf_request_reads_request_line
    (lead method gap1 uri gap2 rest : string) (version : ascii) :
  all_space lead = true -> is_word method = true -> is_gap gap1 = true ->
  is_word uri = true -> is_gap gap2 = true ->
  let buf := lead ++ method ++ gap1 ++ uri ++ gap2 ++ "HTTP/1."
             ++ String version rest in
  sscanf_request buf = (3, method, uri, version) /\
  malformed buf
    = negb (Ascii.eqb version "0") && negb (Ascii.eqb version "1") /\
  request_method buf = method.
Proof.
  intros Hlead Hm Hg1 Hu Hg2 buf.
  pose proof (sscanf_request_accepts lead method gap1 uri gap2 rest version
                Hlead Hm Hg1 Hu Hg2) as Hscan.
  fold buf in Hscan.
  split; [done|]. unfold malformed, request_method. rewrite Hscan. done.
Qed.

Lemma sscanf_request_reads_request_line_witness :
  all_space "" = true /\ is_word "GET" = true /\ is_gap " " = true /\
  is_word "http://h/x" = true /\
  sscanf_request ("GET http://h/x HTTP/1.0" ++ CRLF)
  = (3, "GET", "http://h/x", "0"%char) /\
  malformed ("GET http://h/x HTTP/1.0" ++ CRLF) = false /\
  request_method ("GET http://h/x HTTP/1.0" ++ CRLF) = "GET".
Proof.
  assert (H1 : all_space "" = true) by reflexivity.
  assert (H2 : is_word "GET" = true) by reflexivity.
  assert (H3 : is_gap " " = true) by reflexivity.
  assert (H4 : is_word "http://h/x" = true) by reflexivity.
  split_and!; [done..| | |];
    apply (sscanf_request_reads_request_line "" "GET" " " "http://h/x" " "
             CRLF "0" H1 H2 H3 H4 H3).
Defined.

(** ** The scan, read backwards *)

(** What [skip_space] skips is white space. *)
Lemma skip_space_split (s : string) :
  exists lead, s = lead ++ skip_space s /\ all_space lead = true.
Proof.
  induction s as [|ch s (lead & E & Hlead)]; [by exists ""|].
  simpl. destruct (isspace ch) eqn:Hch; [|by exists ""].
  exists (String ch lead). rewrite append_cons, <- E. simpl.
  by rewrite Hch, Hlead.
Qed.

(** After a character that is white space, it is a gap. *)
Lemma skip_space_gap_split ch (s : string) :
  isspace ch = true ->
  exists gap, String ch s = gap ++ skip_space (String ch s) /\
              is_gap gap = true.
Proof.
  intros Hch. destruct (skip_space_split s) as (lead & E & Hlead).
  exists (String ch lead). simpl. rewrite Hch, append_cons, <- E.
  split; [done|]. unfold is_gap. simpl. by rewrite Hch, Hlead.
Qed.

(** What [%s] reads has no white space, and stops at white space or at the
    end. *)
Lemma scan_word_split (s : string) :
  s = (scan_word s).1 ++ (scan_word s).2 /\
  no_space (scan_word s).1 = true /\
  ((scan_word s).2 = "" \/
   exists ch t, (scan_word s).2 = String ch t /\ isspace ch = true).
Proof.
  induction s as [|ch s (E & Hw & Hr)]; [by split_and!; [..| left]|].
  simpl. destruct (isspace ch) eqn:Hch.
  - simpl. split_and!; [done..|]. right. by exists ch, s.
  - destruct (scan_word s) as [w r]. simpl in *.
    rewrite append_cons, <- E, Hch. by split_and!.
Qed.

Lemma scan_literal_split (lit s r : string) :
  scan_literal lit s = Some r -> s = lit ++ r.
Proof.
  revert s. induction lit as [|a lit IH]; intros s; simpl.
  - intros H. by injection H as ->.
  - destruct s as [|b s]; [done|].
    destruct (Ascii.eqb_spec a b) as [->|]; [|done].
    intros H. by rewrite append_cons, (IH _ H).
Qed.

Lemma word_is_word (w : string) :
  String.eqb w "" = false -> no_space w = true -> is_word w = true.
Proof. intros H1 H2. unfold is_word. by rewrite H1, H2. Qed.

(** The scan returns 3 on the lines that tokenize, and on those only. *)
Lemma sscanf_request_shape (buf method uri : string) (version : ascii) :
  sscanf_request buf = (3, method, uri, version) ->
  tokenizes buf method uri version.
Proof.
  unfold sscanf_request.
  destruct (skip_space_split buf) as (lead & Ebuf & Hlead).
  pose proof (scan_word_split (skip_space buf)) as (E1 & Hm & Hr1).
  destruct (scan_word (skip_space buf)) as [m r1]. simpl in E1, Hm, Hr1.
  destruct (String.eqb m "") eqn:Hm0; [done|].
  destruct Hr1 as [-> | (c1 & t1 & -> & Hc1)]; [done|].
  destruct (skip_space_gap_split c1 t1 Hc1) as (gap1 & Eg1 & Hgap1).
  pose proof (scan_word_split (skip_space (String c1 t1))) as (E2 & Hu & Hr2).
  destruct (scan_word (skip_space (String c1 t1))) as [u r2].
  simpl in E2, Hu, Hr2.
  destruct (String.eqb u "") eqn:Hu0; [done|].
  destruct Hr2 as [-> | (c2 & t2 & -> & Hc2)]; [done|].
  destruct (skip_space_gap_split c2 t2 Hc2) as (gap2 & Eg2 & Hgap2).
  destruct (scan_literal "HTTP/1." (skip_space (String c2 t2)))
    as [[|v rest]|] eqn:Hlit; [done| |done].
  intros H. injection H as <- <- <-.
  apply scan_literal_split in Hlit.
  exists lead, gap1, gap2, rest.
  split_and!; [done | by apply word_is_word | done | by apply word_is_word
              | done |].
  rewrite Ebuf at 1. rewrite E1 at 1. rewrite Eg1 at 1. rewrite E2 at 1.
  rewrite Eg2 at 1. rewrite Hlit.
  reflexivity.
Qed.

Lemma sscanf_request_tokenizes (buf method uri : string) (version : ascii) :
  sscanf_request buf = (3, method, uri, version)
  <-> tokenizes buf method uri version.
Proof.
  split; [apply sscanf_request_shape|].
  intros (lead & gap1 & gap2 & rest & Hlead & Hm & Hg1 & Hu & Hg2 & ->).
  by apply sscanf_request_accepts.
Qed.

(** The first check of the worker lets through the well formed lines, and
    those only. *)
Lemma malformed_not_well_formed (buf : string) :
  malformed buf = true <-> ~ well_formed_line buf.
Proof.
  unfold malformed.
  destruct (sscanf_request buf) as [[[n m] u] v] eqn:Hscan. split.
  - intros Hbad (m' & u' & v' & Htok & Hv).
    apply sscanf_request_tokenizes in Htok. rewrite Hscan in Htok.
    injection Htok as -> -> -> ->. by destruct Hv as [-> | ->].
  - intros Hnot.
    destruct (negb (n =? 3) || _) eqn:Hbad; [done|]. exfalso. apply Hnot.
    apply orb_false_iff in Hbad as [Hn Hv].
    apply negb_false_iff, Z.eqb_eq in Hn. subst n.
    exists m, u, v. split; [by apply sscanf_request_tokenizes|].
    apply andb_false_iff in Hv as [Hv|Hv]; apply negb_false_iff in Hv;
      apply Ascii.eqb_eq in Hv; auto.
Qed.

Lemma tokenizes_method (buf method uri : string) (version : ascii) :
  tokenizes buf method uri version -> request_method buf = method.
Proof.
  intros H. apply sscanf_request_tokenizes in H.
  unfold request_method. by rewrite H.
Qed.

Lemma tokenizes_well_formed (buf method uri : string) (version : ascii) :
  tokenizes buf method uri version ->
  version = "0"%char \/ version = "1"%char ->
  malformed buf = false.
Proof.
  intros Htok Hv. destruct (malformed buf) eqn:Hbad; [|done].
  apply malformed_not_well_formed in Hbad. exfalso. apply Hbad.
  by exists method, uri, version.
Qed.

(** C9.  For a request line that was read: the worker answers 400 exactly
    when the line is not well formed, that is, when it does not tokenize
    into method, URI and version character, or the character is neither 0
    nor 1; for a well formed line it answers 501 exactly when the method is
    not GET; and in both cases it returns with no connection to the origin
    made, nothing sent to it, and the cache as it was.  ([MAXLINE] and
    [MAXBUF] are large enough for the two pages.) *)
Theorem request_line_errors (MAXLINE MAXBUF : Z) (e : env) (c : Cache)
    (buf : string) (client_rio : list string) :
  256 <= MAXLINE -> 256 <= MAXBUF ->
  client_lines e = buf :: client_rio ->
  let r := clientRequestHandler MAXLINE MAXBUF e c in
  (responds_400 (writable e) r.1 <-> ~ well_formed_line buf) /\
  (forall method uri version,
     tokenizes buf method uri version ->
     version = "0"%char \/ version = "1"%char ->
     (responds_501 (writable e) r.1 <-> method <> "GET")) /\
  (~ well_formed_line buf -> contacts_origin r.1 = false /\ r.2 = inr c) /\
  (forall method uri version,
     tokenizes buf method uri version -> method <> "GET" ->
     contacts_origin r.1 = false /\ r.2 = inr c).
Proof.
  intros Hl Hb Hlines r.
  destruct (request_line_checks MAXLINE MAXBUF e c buf client_rio Hl Hb Hlines)
    as (H400 & H501 & Hquiet).
  fold r in H400, H501, Hquiet. split_and!.
  - by rewrite H400, malformed_not_well_formed.
  - intros method uri version Htok Hv.
    rewrite (H501 (tokenizes_well_formed _ _ _ _ Htok Hv)).
    by rewrite (tokenizes_method _ _ _ _ Htok).
  - intros Hnot. apply Hquiet. left. by apply malformed_not_well_formed.
  - intros method uri version Htok Hget. apply Hquiet. right.
    by rewrite (tokenizes_method _ _ _ _ Htok).
Qed.

(** A line with no URI is answered 400 and a PUT of the usual shape 501,
    with nothing sent to the origin; a GET of the usual shape is answered
    neither. *)
Lemma request_line_errors_witness :
  256 <= 8192 /\
  ~ well_formed_line ("GARBAGE" ++ CRLF) /\
  responds_400 (fun _ => true)
    (clientRequestHandler 8192 8192 (only_line ("GARBAGE" ++ CRLF))
       cache_init).1 /\
  tokenizes ("PUT /x HTTP/1.0" ++ CRLF) "PUT" "/x" "0" /\
  responds_501 (fun _ => true)
    (clientRequestHandler 8192 8192 (only_line ("PUT /x HTTP/1.0" ++ CRLF))
       cache_init).1 /\
  (clientRequestHandler 8192 8192 (only_line ("PUT /x HTTP/1.0" ++ CRLF))
     cache_init).2 = inr cache_init /\
  tokenizes ("GET http://h/x HTTP/1.1" ++ CRLF) "GET" "http://h/x" "1" /\
  ~ responds_400 (fun _ => true)
      (clientRequestHandler 8192 8192 (get_x [] id id) cache_init).1 /\
  ~ responds_501 (fun _ => true)
      (clientRequestHandler 8192 8192
         (only_line ("GET http://h/x HTTP/1.1" ++ CRLF)) cache_init).1.
Proof.
  assert (H1 : 256 <= 8192) by lia.
  assert (Hbad : ~ well_formed_line ("GARBAGE" ++ CRLF)).
  { apply malformed_not_well_formed. reflexivity. }
  assert (Hput : tokenizes ("PUT /x HTTP/1.0" ++ CRLF) "PUT" "/x" "0").
  { by exists "", " ", " ", CRLF. }
  assert (Hget : tokenizes ("GET http://h/x HTTP/1.1" ++ CRLF) "GET"
                   "http://h/x" "1").
  { by exists "", " ", " ", CRLF. }
  assert (Hget0 : well_formed_line ("GET http://h/x HTTP/1.0" ++ CRLF)).
  { exists "GET", "http://h/x", "0"%char. split; [|by left].
    by exists "", " ", " ", CRLF. }
  pose proof (request_line_errors 8192 8192 (only_line ("GARBAGE" ++ CRLF))
                cache_init _ [] H1 H1 eq_refl) as (G400 & _ & _ & _).
  pose proof (request_line_errors 8192 8192
                (only_line ("PUT /x HTTP/1.0" ++ CRLF))
                cache_init _ [] H1 H1 eq_refl) as (_ & P501 & _ & Pquiet).
  pose proof (request_line_errors 8192 8192 (get_x [] id id)
                cache_init _ _ H1 H1 eq_refl) as (X400 & _ & _ & _).
  pose proof (request_line_errors 8192 8192
                (only_line ("GET http://h/x HTTP/1.1" ++ CRLF))
                cache_init _ [] H1 H1 eq_refl) as (_ & X501 & _ & _).
  split_and!; [done | done | by apply G400 | done | | | done | |].
  - by apply (P501 _ _ _ Hput (or_introl eq_refl)).
  - by apply (Pquiet _ _ _ Hput).
  - intros H. by apply X400 in H.
  - intros H. by apply (X501 _ _ _ Hget (or_intror eq_refl)) in H.
Defined.

(** * Transactions of the worker *)

(** A request line that scans, with version character 0 or 1 and method
    GET, takes the worker to the probe of the cache. *)
Lemma clientRequestHandler_get MAXLINE MAXBUF e c buf client_rio uri version :
  client_lines e = buf :: client_rio ->
  sscanf_request buf = (3, "GET", uri, version) ->
  version = "0"%char \/ version = "1"%char ->
  clientRequestHandler MAXLINE MAXBUF e c =
  match cache_find uri c with
  | inl f => ([], inl f)
  | inr (Some a, c1) =>
    match serve_hit (Some a) c1 with
    | inl f => ([], inl f)
    | inr (data, c2) => ([ClientWrite CachedObject data], inr c2)
    end
  | inr (None, c1) => fetch_from_origin MAXLINE e buf uri client_rio c1
  end.
Proof.
  intros Hlines Hscan Hv. unfold clientRequestHandler.
  rewrite Hlines, Hscan. by destruct Hv as [-> | ->].
Qed.

Lemma length_concat_total (chunks : list (list byte)) :
  Z.of_nat (length (concat chunks)) = total_length chunks.
Proof.
  induction chunks as [|ch chunks IH]; [done|]. simpl.
  by rewrite length_app, Nat2Z.inj_add, IH.
Qed.

Lemma not_in_uris_keys c uri :
  uri ∉ cache_uris c -> Forall (fun d => entry_key d <> uri) (entries c).
Proof.
  intros Hout. apply Forall_forall. intros d Hd Hk. apply Hout.
  rewrite cache_uris_entries, <- Hk.
  apply list_elem_of_In, in_map. by apply list_elem_of_In.
Qed.



(** The worker after a miss, when the URI parses, the request is built and
    the origin is reached and sends less than [MAX_OBJECT_SIZE] bytes. *)
Lemma fetch_from_origin_relays MAXLINE e buf uri client_rio c
    portVal path hostname server_http_request chunks :
  server_reads e = map ReadBytes chunks ->
  parser_parse_line e buf
  = Some (mk_parsed (Some portVal) (Some path) (Some hostname)) ->
  let port := match portVal with
              | None => DEFAULT_PORT_NUM
              | Some s => atoi s
              end in
  create_server_http_request MAXLINE (host_hdr_entry e) (other_hdr_entry e)
    hostname path port client_rio = inr server_http_request ->
  open_clientfd e hostname (print_int port) = true ->
  Forall (fun ch => ch <> []) chunks ->
  total_length chunks < MAX_OBJECT_SIZE ->
  fetch_from_origin MAXLINE e buf uri client_rio c =
  (([OriginConnect hostname (print_int port);
     OriginWrite (bytes server_http_request)]
    ++ map (ClientWrite RelayedChunk) chunks ++ [OriginClose])%list,
   match store_response uri (total_length chunks)
           (concat chunks) (others_before_insert e)
           (others_during_relay e c) with
   | inl f => inl f
   | inr (_, c') => inr c'
   end).
Proof.
  intros Hreads Hparse port Hreq Hopen Hne Hsmall. unfold fetch_from_origin.
  rewrite Hparse. cbn [parsed_port parsed_path parsed_host]. fold port.
  rewrite Hreq, Hopen, Hreads. cbn [negb]. fold (relay_loop chunks 0 []).
  rewrite (relay_loop_fits chunks 0 [] Hne eq_refl ltac:(lia)).
  by rewrite Z.add_0_l, app_nil_l.
Qed.

(** The insert step on a cache that has no entry for the URI and no block
    in use, with no other worker at work: the response is stored. *)
Lemma store_response_stores uri buf others c :
  cache_wf c -> all_unpinned c -> uri ∉ cache_uris c ->
  Z.of_nat (length buf) < MAX_OBJECT_SIZE -> others c = c ->
  exists c' e0 e',
    store_response uri (Z.of_nat (length buf)) buf others c = inr (tt, c') /\
    cache_wf c' /\
    entries c = (e0 ++ e')%list /\
    entries c' = (e' ++ [(uri, buf, Z.of_nat (length buf), 0)])%list.
Proof.
  intros Hwf Hun Hout Hsmall Hothers.
  assert (MAX_OBJECT_SIZE <= MAX_CACHE_SIZE) by done.
  destruct (cache_uri_entries_run c uri buf Hwf Hun ltac:(lia))
    as (c' & e0 & e' & Hrun & Hwf' & Hent & Hent' & _).
  exists c', e0, e'. split_and!; try done.
  unfold store_response.
  destruct (Z.ltb_spec (Z.of_nat (length buf)) MAX_OBJECT_SIZE); [|lia].
  rewrite (bind_inr _ _ _ _ _
             (cache_find_entries_miss uri c Hwf (not_in_uris_keys c uri Hout))).
  cbn [is_null]. unfold interleave, bind at 1. by rewrite Hothers.
Qed.

(** X13.  A request for a URL that is not cached is fetched, relayed and
    stored.  The request line passes the checks and the cache, well formed
    and with no block in use, has no entry for the URI; the URI parses; the
    arrays of [create_server_http_request] are empty on entry and the lines
    and the request fit them; the origin is reached, no read from it
    fails, and it sends less than [MAX_OBJECT_SIZE] bytes; no other worker
    changes the cache meanwhile.
    Then the worker connects to the host and port parsed (80 when the URI
    names none), sends the request, writes to the client the chunks it
    reads, in order and as they are, closes the connection, and returns with
    the response stored as the last entry of the cache, whole and with no
    reference. *)
Theorem uncached_url_is_fetched_and_stored (MAXLINE MAXBUF : Z) (e : env)
    (c : Cache) (buf : string) (client_rio : list string) (uri : string)
    (version : ascii) (portVal : option string) (path hostname : string)
    (chunks : list (list byte)) :
  client_lines e = buf :: client_rio ->
  sscanf_request buf = (3, "GET", uri, version) ->
  version = "0"%char \/ version = "1"%char ->
  cache_wf c -> all_unpinned c -> uri ∉ cache_uris c ->
  parser_parse_line e buf
  = Some (mk_parsed (Some portVal) (Some path) (Some hostname)) ->
  host_hdr_entry e = "" -> other_hdr_entry e = "" ->
  Forall (fun l => strlen l < MAXLINE) client_rio ->
  strlen (upstream_request_spec hostname path client_rio) < MAXLINE ->
  let portStr := print_int (match portVal with
                            | None => 80
                            | Some s => atoi s
                            end) in
  open_clientfd e hostname portStr = true ->
  server_reads e = map ReadBytes chunks ->
  Forall (fun ch => ch <> []) chunks ->
  total_length chunks < MAX_OBJECT_SIZE ->
  others_during_relay e c = c -> others_before_insert e c = c ->
  exists c' e0 e',
    clientRequestHandler MAXLINE MAXBUF e c =
    (([OriginConnect hostname portStr;
       OriginWrite (bytes (upstream_request_spec hostname path client_rio))]
      ++ map (ClientWrite RelayedChunk) chunks
      ++ [OriginClose])%list, inr c') /\
    cache_wf c' /\
    entries c = (e0 ++ e')%list /\
    entries c' = (e' ++ [(uri, concat chunks,
                          total_length chunks, 0)])%list.
Proof.
  intros Hlines Hscan Hv Hwf Hun Hout Hparse Hhost Hother Hfit Hreq portStr
    Hopen Hreads Hne Hsmall Ho1 Ho2.
  rewrite (clientRequestHandler_get _ _ _ _ _ _ _ _ Hlines Hscan Hv).
  rewrite (cache_find_entries_miss uri c Hwf (not_in_uris_keys c uri Hout)).
  rewrite (fetch_from_origin_relays MAXLINE e buf uri client_rio c portVal
             path hostname (upstream_request_spec hostname path client_rio)
             chunks Hreads Hparse); try done.
  2:{ rewrite Hhost, Hother. by apply create_server_http_request_clean. }
  rewrite Ho1, <- length_concat_total.
  destruct (store_response_stores uri (concat chunks)
              (others_before_insert e) c Hwf Hun Hout
              ltac:(by rewrite length_concat_total) Ho2)
    as (c' & e0 & e' & Hrun & Hwf' & Hent & Hent').
  exists c', e0, e'. by rewrite Hrun.
Qed.

Lemma uncached_url_is_fetched_and_stored_witness :
  cache_wf cache_with_A /\ all_unpinned cache_with_A /\
  ("http://h/x" ∉ cache_uris cache_with_A) /\
  strlen (upstream_request_spec "h" "/x" [CRLF]) < 8192 /\
  total_length [[x58; x59]; [x5a]] < MAX_OBJECT_SIZE /\
  exists c' e0 e',
    clientRequestHandler 8192 8192 (get_x [[x58; x59]; [x5a]] id id)
      cache_with_A =
    ([OriginConnect "h" "80";
      OriginWrite (bytes (upstream_request_spec "h" "/x" [CRLF]));
      ClientWrite RelayedChunk [x58; x59];
      ClientWrite RelayedChunk [x5a];
      OriginClose], inr c') /\
    cache_wf c' /\
    entries cache_with_A = (e0 ++ e')%list /\
    entries c' = (e' ++ [("http://h/x", [x58; x59; x5a], 3, 0)])%list.
Proof.
  assert (H1 : cache_wf cache_with_A) by wf_run.
  assert (H2 : all_unpinned cache_with_A) by unpinned_run.
  assert (H3 : "http://h/x" ∉ cache_uris cache_with_A) by absent_run.
  assert (H4 : strlen (upstream_request_spec "h" "/x" [CRLF]) < 8192).
  { apply Z.ltb_lt. by_run. }
  assert (H5 : total_length [[x58; x59]; [x5a]] < MAX_OBJECT_SIZE).
  { apply Z.ltb_lt. by_run. }
  split_and!; [done..|].
  refine (uncached_url_is_fetched_and_stored 8192 8192
            (get_x [[x58; x59]; [x5a]] id id) cache_with_A _ _
            "http://h/x" "0" None "/x" "h" [[x58; x59]; [x5a]]
            eq_refl eq_refl (or_introl eq_refl) H1 H2 H3 eq_refl eq_refl
            eq_refl _ H4 eq_refl eq_refl _ H5 eq_refl eq_refl).
  - by repeat constructor.
  - by repeat constructor.
Defined.

Lemma client_writes_relayed (chunks : list (list byte)) :
  client_writes (map (ClientWrite RelayedChunk) chunks)
  = map (fun ch => (RelayedChunk, ch)) chunks.
Proof. induction chunks as [|ch chunks IH]; [done|]. simpl. by rewrite IH. Qed.

(** X14.  What is served from the cache is what the origin sent.  A first
    transaction misses, reaches the origin, reads from it without failure
    less than [MAX_OBJECT_SIZE] bytes, relays and stores them, no other
    worker changing the cache meanwhile; a second transaction, for the same URI, then makes one
    write to the client: the bytes of the chunks the first one relayed, one
    after the other; it does not contact the origin, and it leaves the
    entries of the cache as they were. *)
Theorem second_request_gets_the_bytes_relayed (MAXLINE MAXBUF : Z)
    (e e' : env) (c : Cache) (buf buf' : string)
    (client_rio client_rio' : list string) (uri : string)
    (version version' : ascii) (portVal : option string)
    (path hostname server_http_request : string)
    (chunks : list (list byte)) :
  client_lines e = buf :: client_rio ->
  sscanf_request buf = (3, "GET", uri, version) ->
  version = "0"%char \/ version = "1"%char ->
  cache_wf c -> all_unpinned c -> uri ∉ cache_uris c ->
  parser_parse_line e buf
  = Some (mk_parsed (Some portVal) (Some path) (Some hostname)) ->
  let port := match portVal with
              | None => DEFAULT_PORT_NUM
              | Some s => atoi s
              end in
  create_server_http_request MAXLINE (host_hdr_entry e) (other_hdr_entry e)
    hostname path port client_rio = inr server_http_request ->
  open_clientfd e hostname (print_int port) = true ->
  server_reads e = map ReadBytes chunks ->
  Forall (fun ch => ch <> []) chunks ->
  total_length chunks < MAX_OBJECT_SIZE ->
  others_during_relay e c = c -> others_before_insert e c = c ->
  client_lines e' = buf' :: client_rio' ->
  sscanf_request buf' = (3, "GET", uri, version') ->
  version' = "0"%char \/ version' = "1"%char ->
  exists tr c1 c2,
    clientRequestHandler MAXLINE MAXBUF e c = (tr, inr c1) /\
    client_writes tr
    = map (fun ch => (RelayedChunk, ch)) chunks /\
    clientRequestHandler MAXLINE MAXBUF e' c1
    = ([ClientWrite CachedObject (concat chunks)], inr c2) /\
    entries c2 = entries c1.
Proof.
  intros Hlines Hscan Hv Hwf Hun Hout Hparse port Hreq Hopen Hreads Hne Hsmall
    Ho1 Ho2 Hlines' Hscan' Hv'.
  destruct (store_response_stores uri (concat chunks)
              (others_before_insert e) c Hwf Hun Hout
              ltac:(by rewrite length_concat_total) Ho2)
    as (c1 & e0 & e1 & Hrun & Hwf1 & Hent & Hent1).
  assert (Hkeys : Forall (fun d => entry_key d <> uri) e1).
  { pose proof (not_in_uris_keys c uri Hout) as Hk. rewrite Hent in Hk.
    by apply Forall_app in Hk as [_ ?]. }
  destruct (hit_then_release uri c1 e1 _ _ 0 [] Hwf1 Hent1 Hkeys ltac:(lia))
    as (a & c1' & b & c2 & Hfind & Hb & Hp & Hrel & Hwf2 & Hent2).
  unfold payload in Hp. injection Hp as Hkey Hobj Hsize.
  eexists _, c1, c2. split_and!.
  - rewrite (clientRequestHandler_get _ _ _ _ _ _ _ _ Hlines Hscan Hv).
    rewrite (cache_find_entries_miss uri c Hwf (not_in_uris_keys c uri Hout)).
    rewrite (fetch_from_origin_relays MAXLINE e buf uri client_rio c portVal
               path hostname server_http_request chunks Hreads Hparse Hreq
               Hopen Hne Hsmall).
    by rewrite Ho1, <- length_concat_total, Hrun.
  - rewrite !client_writes_app, client_writes_relayed. simpl.
    by rewrite app_nil_r.
  - rewrite (clientRequestHandler_get _ _ _ _ _ _ _ _ Hlines' Hscan' Hv'), Hfind.
    rewrite (serve_hit_run c1' a b c2 Hb ltac:(rewrite Hsize, Hobj; lia) Hrel).
    by rewrite Hsize, Hobj, take_whole.
  - by rewrite Hent2, Hent1.
Qed.

Lemma second_request_gets_the_bytes_relayed_witness :
  cache_wf cache_with_A /\ all_unpinned cache_with_A /\
  ("http://h/x" ∉ cache_uris cache_with_A) /\
  create_server_http_request 8192 "" "" "h" "/x" 80 [CRLF]
  = inr (upstream_request_spec "h" "/x" [CRLF]) /\
  total_length [[x58; x59]; [x5a]] < MAX_OBJECT_SIZE /\
  exists tr c1 c2,
    clientRequestHandler 8192 8192 (get_x [[x58; x59]; [x5a]] id id)
      cache_with_A = (tr, inr c1) /\
    client_writes tr
    = [(RelayedChunk, [x58; x59]); (RelayedChunk, [x5a])] /\
    clientRequestHandler 8192 8192 (get_x [] id id) c1
    = ([ClientWrite CachedObject [x58; x59; x5a]], inr c2) /\
    entries c2 = entries c1.
Proof.
  assert (H1 : cache_wf cache_with_A) by wf_run.
  assert (H2 : all_unpinned cache_with_A) by unpinned_run.
  assert (H3 : "http://h/x" ∉ cache_uris cache_with_A) by absent_run.
  assert (H4 : create_server_http_request 8192 "" "" "h" "/x" 80 [CRLF]
               = inr (upstream_request_spec "h" "/x" [CRLF])) by by_run.
  assert (H5 : total_length [[x58; x59]; [x5a]] < MAX_OBJECT_SIZE).
  { apply Z.ltb_lt. by_run. }
  split_and!; [done..|].
  refine (second_request_gets_the_bytes_relayed 8192 8192
            (get_x [[x58; x59]; [x5a]] id id) (get_x [] id id) cache_with_A
            _ _ _ _ "http://h/x" "0" "0" None "/x" "h" _ [[x58; x59]; [x5a]]
            eq_refl eq_refl (or_introl eq_refl) H1 H2 H3 eq_refl H4
            eq_refl eq_refl _ H5 eq_refl eq_refl eq_refl eq_refl
            (or_introl eq_refl)).
  by repeat constructor.
Defined.

(** X15.  When the URI of a request does not parse, the client gets no
    answer.  The request line passes the checks and the cache, well formed,
    has no entry for the URI; [parser_parse_line] reports an error, or one
    of the three [parser_retrieve] calls fails.  Then the worker prints one
    message and returns: it writes nothing to the client, makes no
    connection, and leaves the cache as it was. *)
Theorem unparsable_uri_gets_no_answer (MAXLINE MAXBUF : Z) (e : env)
    (c : Cache) (buf : string) (client_rio : list string) (uri : string)
    (version : ascii) :
  client_lines e = buf :: client_rio ->
  sscanf_request buf = (3, "GET", uri, version) ->
  version = "0"%char \/ version = "1"%char ->
  cache_wf c -> uri ∉ cache_uris c ->
  (parser_parse_line e buf = None \/
   exists pr, parser_parse_line e buf = Some pr /\
              (parsed_port pr = None \/ parsed_path pr = None
               \/ parsed_host pr = None)) ->
  exists msg,
    clientRequestHandler MAXLINE MAXBUF e c = ([Print msg], inr c).
Proof.
  intros Hlines Hscan Hv Hwf Hout Hfail.
  rewrite (clientRequestHandler_get _ _ _ _ _ _ _ _ Hlines Hscan Hv).
  rewrite (cache_find_entries_miss uri c Hwf (not_in_uris_keys c uri Hout)).
  unfold fetch_from_origin.
  destruct Hfail as [-> | (pr & -> & Hpr)]; [by eexists|].
  destruct (parsed_port pr) as [portVal|]; [|by eexists].
  destruct (parsed_path pr) as [path|]; [|by eexists].
  destruct (parsed_host pr) as [hostname|]; [|by eexists].
  by destruct Hpr as [?|[?|?]].
Qed.

Lemma unparsable_uri_gets_no_answer_witness :
  cache_wf cache_with_A /\
  ("http://h/x" ∉ cache_uris cache_with_A) /\
  parser_parse_line (only_line ("GET http://h/x HTTP/1.0" ++ CRLF))
    ("GET http://h/x HTTP/1.0" ++ CRLF) = None /\
  exists msg,
    clientRequestHandler 8192 8192
      (only_line ("GET http://h/x HTTP/1.0" ++ CRLF)) cache_with_A
    = ([Print msg], inr cache_with_A).
Proof.
  assert (H1 : cache_wf cache_with_A) by wf_run.
  assert (H3 : "http://h/x" ∉ cache_uris cache_with_A) by absent_run.
  split_and!; [done..|].
  exact (unparsable_uri_gets_no_answer 8192 8192
           (only_line ("GET http://h/x HTTP/1.0" ++ CRLF)) cache_with_A
           _ _ "http://h/x" "0" eq_refl eq_refl (or_introl eq_refl) H1 H3
           (or_introl eq_refl)).
Defined.

(** X16.  When the origin cannot be reached, the client gets no answer
    either.  The request line passes the checks, the cache, well formed, has
    no entry for the URI, the URI parses and the request is built, and
    [open_clientfd] fails.  Then the worker has tried the host and port
    parsed, prints that the attempt failed, and returns: it writes nothing
    to the client or to the origin, and leaves the cache as it was. *)
Theorem unreachable_origin_gets_no_answer (MAXLINE MAXBUF : Z) (e : env)
    (c : Cache) (buf : string) (client_rio : list string) (uri : string)
    (version : ascii) (portVal : option string)
    (path hostname server_http_request : string) :
  client_lines e = buf :: client_rio ->
  sscanf_request buf = (3, "GET", uri, version) ->
  version = "0"%char \/ version = "1"%char ->
  cache_wf c -> uri ∉ cache_uris c ->
  parser_parse_line e buf
  = Some (mk_parsed (Some portVal) (Some path) (Some hostname)) ->
  let port := match portVal with
              | None => DEFAULT_PORT_NUM
              | Some s => atoi s
              end in
  create_server_http_request MAXLINE (host_hdr_entry e) (other_hdr_entry e)
    hostname path port client_rio = inr server_http_request ->
  open_clientfd e hostname (print_int port) = false ->
  clientRequestHandler MAXLINE MAXBUF e c =
  ([OriginConnect hostname (print_int port);
    Print ("connection attempt to " ++ hostname ++ " at " ++ print_int port
           ++ " failed" ++ NL)], inr c).
Proof.
  intros Hlines Hscan Hv Hwf Hout Hparse port Hreq Hopen.
  rewrite (clientRequestHandler_get _ _ _ _ _ _ _ _ Hlines Hscan Hv).
  rewrite (cache_find_entries_miss uri c Hwf (not_in_uris_keys c uri Hout)).
  unfold fetch_from_origin. rewrite Hparse.
  cbn [parsed_port parsed_path parsed_host]. fold port.
  by rewrite Hreq, Hopen.
Qed.

Lemma unreachable_origin_gets_no_answer_witness :
  cache_wf cache_with_A /\
  ("http://h/x" ∉ cache_uris cache_with_A) /\
  create_server_http_request 8192 "" "" "h" "/x" 80 [CRLF]
  = inr (upstream_request_spec "h" "/x" [CRLF]) /\
  clientRequestHandler 8192 8192 get_x_unreachable cache_with_A =
  ([OriginConnect "h" "80";
    Print ("connection attempt to h at 80 failed" ++ NL)],
   inr cache_with_A).
Proof.
  assert (H1 : cache_wf cache_with_A) by wf_run.
  assert (H3 : "http://h/x" ∉ cache_uris cache_with_A) by absent_run.
  assert (H4 : create_server_http_request 8192 "" "" "h" "/x" 80 [CRLF]
               = inr (upstream_request_spec "h" "/x" [CRLF])) by by_run.
  split_and!; [done..|].
  exact (unreachable_origin_gets_no_answer 8192 8192 get_x_unreachable
           cache_with_A _ _ "http://h/x" "0" None "/x" "h" _
           eq_refl eq_refl (or_introl eq_refl) H1 H3 eq_refl H4 eq_refl).
Defined.



(** * Two workers and one URL *)

(** C4.  The worker checks that the URL is absent and inserts it in two
    critical sections, and the insertion itself does not look.  Two workers
    have fetched the same URL, which the cache, well formed and with no
    block in use, does not hold.  The insert step of the second, its own
    check included, runs between the check of the first and its insertion.
    Then both objects are stored: the step of the first returns, and the
    cache ends with two entries for the URL. *)
Theorem recheck_race_duplicates_uri (c : Cache) (uri : string)
    (buf buf' : list byte) :
  cache_wf c -> all_unpinned c -> uri ∉ cache_uris c ->
  Z.of_nat (length buf) < MAX_OBJECT_SIZE ->
  Z.of_nat (length buf') < MAX_OBJECT_SIZE ->
  exists c' es,
    store_response uri (Z.of_nat (length buf)) buf
      (after (store_response uri (Z.of_nat (length buf')) buf' id)) c
    = inr (tt, c') /\
    entries c' = (es ++ [(uri, buf', Z.of_nat (length buf'), 0);
                         (uri, buf, Z.of_nat (length buf), 0)])%list /\
    ~ NoDup (cache_uris c').
Proof.
  intros Hwf Hun Hout Hsmall Hsmall'.
  assert (Hmax : MAX_OBJECT_SIZE = 102400 /\ MAX_CACHE_SIZE = 1048576) by done.
  destruct (store_response_stores uri buf' id c Hwf Hun Hout Hsmall' eq_refl)
    as (c1 & e0 & e1 & Hrun1 & Hwf1 & Hent & Hent1).
  assert (Hun1 : all_unpinned c1).
  { apply all_unpinned_entries. rewrite Hent1.
    apply all_unpinned_entries in Hun. rewrite Hent in Hun.
    apply Forall_app in Hun as [_ Hun]. apply Forall_app. split; [done|].
    by apply Forall_singleton. }
  destruct (cache_uri_entries_run c1 uri buf Hwf1 Hun1 ltac:(lia))
    as (c' & e0' & e' & Hrun & _ & Hsplit & Hent' & _ & _ & Hmin).
  rewrite Hent1 in Hsplit.
  destruct e' as [|d e' _] using rev_ind.
  { rewrite app_nil_r in Hsplit. specialize (Hmin _ _ (eq_sym Hsplit)).
    rewrite entries_size_cons in Hmin. simpl in Hmin. lia. }
  rewrite app_assoc in Hsplit. apply app_inj_tail in Hsplit as [_ <-].
  exists c', e'. split_and!.
  - unfold store_response at 1.
    destruct (Z.ltb_spec (Z.of_nat (length buf)) MAX_OBJECT_SIZE); [|lia].
    rewrite (bind_inr _ _ _ _ _
               (cache_find_entries_miss uri c Hwf (not_in_uris_keys c uri Hout))).
    cbn [is_null]. unfold interleave, bind at 1. unfold after at 1.
    by rewrite Hrun1.
  - by rewrite Hent', <- app_assoc.
  - rewrite cache_uris_entries, Hent', <- app_assoc, map_app.
    intros Hnd. apply NoDup_app in Hnd as (_ & _ & Hnd).
    apply NoDup_cons in Hnd as [Hin _]. apply Hin. by left.
Qed.

Lemma recheck_race_duplicates_uri_witness :
  cache_wf cache_with_A /\ all_unpinned cache_with_A /\
  ("http://h/x"%string ∉ cache_uris cache_with_A) /\
  Z.of_nat (length [x58; x59; x5a]) < MAX_OBJECT_SIZE /\
  exists c' es,
    store_response "http://h/x" (Z.of_nat (length [x58; x59; x5a]))
      [x58; x59; x5a]
      (after (store_response "http://h/x" (Z.of_nat (length [x58; x59; x5a]))
                [x58; x59; x5a] id))
      cache_with_A
    = inr (tt, c') /\
    entries c'
    = (es ++ [("http://h/x"%string, [x58; x59; x5a],
               Z.of_nat (length [x58; x59; x5a]), 0);
              ("http://h/x"%string, [x58; x59; x5a],
               Z.of_nat (length [x58; x59; x5a]), 0)])%list /\
    ~ NoDup (cache_uris c').
Proof.
  assert (H1 : cache_wf cache_with_A) by wf_run.
  assert (H2 : all_unpinned cache_with_A) by unpinned_run.
  assert (H3 : "http://h/x"%string ∉ cache_uris cache_with_A) by absent_run.
  assert (H4 : Z.of_nat (length [x58; x59; x5a]) < MAX_OBJECT_SIZE)
    by (apply Z.ltb_lt; by_run).
  split_and!; [done..|].
  exact (recheck_race_duplicates_uri cache_with_A "http://h/x"
           [x58; x59; x5a] [x58; x59; x5a] H1 H2 H3 H4 H4).
Defined.

(** * Verification of the port number *)

Lemma atoi_digits_digit ch rest acc d :
  Z.of_nat (nat_of_ascii ch) - 48 = d -> 0 <= d <= 9 ->
  atoi_digits (String ch rest) acc = atoi_digits rest (10 * acc + d).
Proof.
  intros <- Hd. cbn [atoi_digits]. cbv zeta.
  destruct (Z.leb_spec 0 (Z.of_nat (nat_of_ascii ch) - 48)); [|lia].
  by destruct (Z.leb_spec (Z.of_nat (nat_of_ascii ch) - 48) 9); [|lia].
Qed.

(** The digits of a number, read back with an accumulator that is not
    zero. *)
Lemma atoi_digits_acc (d : Decimal.uint) : forall acc : positive,
  atoi_digits (NilEmpty.string_of_uint d) (Z.pos acc)
  = Z.pos (Pos.of_uint_acc d acc).
Proof.
  induction d as [|d IH|d IH|d IH|d IH|d IH|d IH|d IH|d IH|d IH|d IH];
    intros acc; [done|..];
    cbn [NilEmpty.string_of_uint Pos.of_uint_acc];
    (erewrite atoi_digits_digit; [| reflexivity | by vm_compute]);
    rewrite <- IH; f_equal;
    match goal with |- context [Z.of_nat (nat_of_ascii ?ch) - 48] =>
      let v := eval vm_compute in (Z.of_nat (nat_of_ascii ch) - 48) in
      change (Z.of_nat (nat_of_ascii ch) - 48) with v
    end; lia.
Qed.

Lemma atoi_digits_uint (d : Decimal.uint) :
  atoi_digits (NilEmpty.string_of_uint d) 0 = Z.of_N (Pos.of_uint d).
Proof.
  induction d as [|d IH|d IH|d IH|d IH|d IH|d IH|d IH|d IH|d IH|d IH];
    [done|..];
    cbn [NilEmpty.string_of_uint Pos.of_uint];
    (erewrite atoi_digits_digit; [| reflexivity | by vm_compute]);
    [exact IH | exact (atoi_digits_acc d _)..].
Qed.

Lemma decimal_digits (n : Z) :
  0 <= n ->
  decimal n = NilEmpty.string_of_uint (N.to_uint (Z.to_N n)) /\
  exists ch rest, decimal n = String ch rest /\
    0 <= Z.of_nat (nat_of_ascii ch) - 48 <= 9.
Proof.
  intros Hn. unfold decimal.
  assert (Hnil : N.to_uint (Z.to_N n) <> Decimal.Nil).
  { destruct (Z.to_N n); [done | apply Unsigned.to_uint_nonnil]. }
  destruct (N.to_uint (Z.to_N n)) as [|d|d|d|d|d|d|d|d|d|d]; [done|..];
    (split; [done|]); eexists _, _; (split; [reflexivity | by vm_compute]).
Qed.

Lemma atoi_digits_decimal (n : Z) : 0 <= n -> atoi_digits (decimal n) 0 = n.
Proof.
  intros Hn. destruct (decimal_digits n Hn) as [-> _].
  rewrite atoi_digits_uint.
  change (Pos.of_uint (N.to_uint (Z.to_N n))) with (N.of_uint (N.to_uint (Z.to_N n))).
  rewrite DecimalN.Unsigned.of_to. lia.
Qed.

Lemma strtol_decimal (n : Z) :
  0 <= n -> strtol (decimal n) = Z.min LONG_MAX n.
Proof.
  intros Hn. rewrite <- (atoi_digits_decimal n Hn) at 2.
  destruct (decimal_digits n Hn) as [-> _].
  by destruct (N.to_uint (Z.to_N n)).
Qed.

Lemma atoi_decimal (n : Z) : 0 <= n < 2 ^ 31 -> atoi (decimal n) = n.
Proof.
  intros Hn. unfold atoi. rewrite strtol_decimal by lia.
  unfold LONG_MAX. rewrite Z.min_r by lia. apply int_wrap_small. lia.
Qed.

(** X18.  The port number makes the round trip through [atoi] and [%d]: a
    port written in decimal in the URL is the port string the origin is
    dialled with, and an [int] printed with [%d] is read back by [atoi] as the
    same [int]. *)
Theorem port_number_round_trip (n : Z) :
  - 2 ^ 31 <= n < 2 ^ 31 ->
  atoi (print_int n) = n /\
  (0 <= n -> print_int (atoi (decimal n)) = decimal n).
Proof.
  intros Hn. split.
  - unfold print_int. destruct (Z.ltb_spec n 0) as [Hneg|Hpos].
    + destruct (decimal_digits (- n)) as (_ & ch & rest & E & Hch); [lia|].
      pose proof (atoi_digits_decimal (- n)) as Hd. rewrite E in *.
      change ("-" ++ String ch rest) with (String "-" (String ch rest)).
      unfold atoi, strtol. cbn [skip_space]. change (isspace "-") with false.
      cbv iota. rewrite Hd by lia. unfold LONG_MIN.
      rewrite Z.max_r by lia. rewrite int_wrap_small; lia.
    + apply atoi_decimal. lia.
  - intros Hpos. rewrite atoi_decimal by lia.
    unfold print_int. by destruct (Z.ltb_spec n 0); [lia|].
Qed.

(** [atoi] goes through [strtol]: a port of twenty nines is read as
    [LONG_MAX], whose low 32 bits are -1, and the origin is dialled at
    port -1. *)
Example port_beyond_long_is_minus_one :
  atoi "99999999999999999999" = -1 /\
  atoi "-99999999999999999999" = 0 /\
  atoi "4294967376" = 80 /\
  clientRequestHandler 8192 8192
    (mk_env ["GET http://h:99999999999999999999/x HTTP/1.0" ++ CRLF; CRLF]
       (fun _ => true)
       (fun _ => Some (mk_parsed (Some (Some "99999999999999999999"))
                         (Some "/x") (Some "h")))
       (fun _ _ => false) [] "" "" id id)
    cache_init
  = ([OriginConnect "h" "-1";
      Print ("connection attempt to h at -1 failed" ++ NL)], inr cache_init).
Proof. split_and!; by vm_compute. Qed.

Lemma port_number_round_trip_witness :
  - 2 ^ 31 <= 8080 < 2 ^ 31 /\
  atoi (print_int 8080) = 8080 /\
  (0 <= 8080 -> print_int (atoi (decimal 8080)) = decimal 8080).
Proof. split; [lia | apply (port_number_round_trip 8080); lia]. Defined.
